(** * Sequence: a sequential asynchronous step scheduler

    Shallow embedding of [packages/utils/src/promise/sequence.ts] (class
    [Sequence]) together with the part of [packages/utils/src/event/emitter.ts]
    it relies on ([on] and [emit]).

    The instance fields of the class are the record [Sequence]; the JavaScript
    host the class runs on (timers, [process.nextTick], promise reaction jobs,
    arrays held by reference, [console]) is the record [World].  Every method
    and every callback of the class is a computation in the state monad [M]
    over [World], written in the order of the source statements.

    The base class with all its methods ([on], [once], [emit], [off],
    [clear]) and arbitrary handlers is embedded on its own in the module
    [EventEmitter]. *)

From Stdlib Require Import String.
From Stdlib Require Import ZArith List Bool Arith Lia.
Import ListNotations.

(** ** Values, results and steps *)

(** JavaScript values that steps return or throw ([any] in the source). *)
Inductive Value : Type :=
| VUndefined
| VBool (b : bool)
| VNum (n : Z)
| VStr (s : string).

(** [static readonly SUCCEEDED = 1] and [static readonly FAILED = 0]. *)
Definition SUCCEEDED : Z := 1.
Definition FAILED : Z := 0.

(** [interface SequenceResult]. *)
Module SequenceResult.

Record t : Type := mk {
  status : Z;
  index : Z;
  value : option Value;
  reason : option Value;
  time : nat
}.

End SequenceResult.

(** [class SequenceError]: [errno] and [errmsg] are copied by [Object.assign]. *)
Record SequenceError : Type := MkSequenceError {
  errno : Z;
  errmsg : string
}.

(** [interface SequenceOptions]; an absent key is [None]. *)
Module SequenceOptions.

Record t : Type := mk {
  emitEndIfEmpty : option bool;
  interval : option nat;
  autoRun : option bool;
  muteEndIfEmpty : option bool
}.

(** [options = {}] *)
Definition default : t := mk None None None None.

End SequenceOptions.

(** How the awaitable a step hands back ends. *)
Inductive Settlement : Type :=
| Fulfils (v : Value)
| Rejects (r : Value).

(** What a call [step(prev, index, results)] does: return a plain value, throw,
    or return an awaitable that settles [latency] milliseconds later
    ([latency = 0]: a promise that is already settled). *)
Inductive Outcome : Type :=
| Returns (v : Value)
| Throws (e : Value)
| Awaitable (latency : nat) (s : Settlement).

(** [type SequenceStep = (prevResult?, index?, results?) => any]. *)
Definition SequenceStep : Type :=
  option SequenceResult.t -> Z -> list SequenceResult.t -> Outcome.

(** [type SequenceEvent = 'success' | 'failed' | 'end']. *)
Inductive SequenceEvent : Type := EvSuccess | EvFailed | EvEnd.

Definition SequenceEvent_eqb (a b : SequenceEvent) : bool :=
  match a, b with
  | EvSuccess, EvSuccess | EvFailed, EvFailed | EvEnd, EvEnd => true
  | _, _ => false
  end.

(** ** The host: promise jobs, timers, listeners *)

(** The three callbacks that [next] chains on a step:
    [JInvoke] is the callback given to [this.promise.then] (it calls the step),
    [JSettled] is the [.then(value => ...)] / [.catch(reason => ...)] pair,
    [JAdvance] is the final [.then(result => ...)].  The number is the
    promise chain the job belongs to. *)
Inductive Job : Type :=
| JInvoke (c : nat)
| JSettled (c : nat) (s : Settlement)
| JAdvance (c : nat) (r : SequenceResult.t).

(** The arrow functions handed to [setTimeout], [process.nextTick] and
    [setImmediate], and the settling of a step's awaitable. *)
Inductive Callback : Type :=
| CbRun                                (* () => this.run() *)
| CbEmitEnd                            (* () => this.emit('end', this.results, this) *)
| CbNext                               (* () => { this.running && this.next(true) } *)
| CbResume                             (* the callback of suspend() *)
| CbSettle (c : nat) (s : Settlement). (* a step's awaitable settles *)

Record Timer : Type := MkTimer {
  tid : nat;
  due : nat;
  tcb : Callback
}.

(** A promise of the chain [this.promise]. *)
Inductive ChainState : Type :=
| ChPending (waiters : list Job)
| ChFulfilled (v : option SequenceResult.t)
| ChRejected (e : Value).

(** What [next] returns: a rejected promise carrying a [SequenceError],
    [Promise.resolve()], or the chain [this.promise]. *)
Inductive NextResult : Type :=
| NRejected (e : SequenceError)
| NResolved
| NPromise (c : nat).

(** The listeners that the static combinators register. *)
Inductive Listener : Type :=
| AllOnEnd        (* (results) => resolve(results) *)
| AllOnFailed     (* () => { sequence.stop(); reject(sequence.results) } *)
| ChainOnEnd      (* (results) => resolve(results) *)
| AnyOnSuccess    (* () => { resolve(sequence.results); sequence.stop() } *)
| AnyOnEnd.       (* () => { reject(sequence.results) } *)

Definition listens (l : Listener) : SequenceEvent :=
  match l with
  | AllOnEnd | ChainOnEnd | AnyOnEnd => EvEnd
  | AllOnFailed => EvFailed
  | AnyOnSuccess => EvSuccess
  end.

Definition Listener_eqb (a b : Listener) : bool :=
  match a, b with
  | AllOnEnd, AllOnEnd | AllOnFailed, AllOnFailed | ChainOnEnd, ChainOnEnd
  | AnyOnSuccess, AnyOnSuccess | AnyOnEnd, AnyOnEnd => true
  | _, _ => false
  end.

(** One notification as a subscriber sees it: a per-step event with its
    record and index, or [end] with the array it carries (its reference and
    its content at that moment). *)
Inductive Emission : Type :=
| EmStep (ev : SequenceEvent) (r : SequenceResult.t) (i : Z)
| EmEnd (arr : nat) (content : list SequenceResult.t).

(** The promise a combinator returns; it is settled with an array reference. *)
Inductive FutureState : Type :=
| FPending
| FResolved (arr : nat)
| FRejected (arr : nat).

(** Which deferral [scheduleEndEvent] finds on the host. *)
Inductive Host : Type :=
| HostNextTick        (* process.nextTick exists *)
| HostSetImmediate    (* only setImmediate *)
| HostSetTimeout.     (* neither *)

(** ** The instance and the world around it *)

(** The fields of a [Sequence] instance, with the listeners of its
    [EventEmitter] part.  ([createConfig] also lists [promises], which
    nothing reads.) *)
Record Sequence : Type := MkSequence {
  running : bool;
  suspended : bool;
  suspendTimeout : option nat;
  muteEndIfEmpty : bool;
  interval : nat;
  index : Z;
  steps : list SequenceStep;
  results : nat;                 (* reference into [arrays] *)
  busy : bool;
  promise : nat;                 (* reference into [chains] *)
  events : list Listener         (* EventEmitter's #events, in subscription order *)
}.

(** The instance and the host it runs on.  The last three fields only
    observe: [emitted] logs every notification, [calls] logs the index of
    every step that was called, [future] is the promise a combinator
    returned. *)
Record World : Type := MkWorld {
  self : Sequence;
  host : Host;
  arrays : list (list SequenceResult.t);   (* the arrays, by reference *)
  chains : list ChainState;                (* the promises, by reference *)
  ticks : list Callback;                   (* process.nextTick queue *)
  microtasks : list Job;                   (* promise reaction jobs *)
  immediates : list Callback;              (* setImmediate queue *)
  timers : list Timer;                     (* pending setTimeout timers *)
  nextTimer : nat;                         (* next timer handle *)
  now : nat;                               (* the clock, in milliseconds *)
  console : list string;                   (* console.warn output *)
  unhandled : list SequenceError;          (* rejections nobody handled *)
  emitted : list Emission;
  calls : list Z;
  future : FutureState
}.

Definition set_running (v : bool) (s : Sequence) : Sequence :=
  MkSequence v (suspended s) (suspendTimeout s) (muteEndIfEmpty s) (interval s) (index s) (steps s) (results s) (busy s) (promise s) (events s).
Definition set_suspended (v : bool) (s : Sequence) : Sequence :=
  MkSequence (running s) v (suspendTimeout s) (muteEndIfEmpty s) (interval s) (index s) (steps s) (results s) (busy s) (promise s) (events s).
Definition set_suspendTimeout (v : option nat) (s : Sequence) : Sequence :=
  MkSequence (running s) (suspended s) v (muteEndIfEmpty s) (interval s) (index s) (steps s) (results s) (busy s) (promise s) (events s).
Definition set_muteEndIfEmpty (v : bool) (s : Sequence) : Sequence :=
  MkSequence (running s) (suspended s) (suspendTimeout s) v (interval s) (index s) (steps s) (results s) (busy s) (promise s) (events s).
Definition set_interval (v : nat) (s : Sequence) : Sequence :=
  MkSequence (running s) (suspended s) (suspendTimeout s) (muteEndIfEmpty s) v (index s) (steps s) (results s) (busy s) (promise s) (events s).
Definition set_index (v : Z) (s : Sequence) : Sequence :=
  MkSequence (running s) (suspended s) (suspendTimeout s) (muteEndIfEmpty s) (interval s) v (steps s) (results s) (busy s) (promise s) (events s).
Definition set_steps (v : list SequenceStep) (s : Sequence) : Sequence :=
  MkSequence (running s) (suspended s) (suspendTimeout s) (muteEndIfEmpty s) (interval s) (index s) v (results s) (busy s) (promise s) (events s).
Definition set_results (v : nat) (s : Sequence) : Sequence :=
  MkSequence (running s) (suspended s) (suspendTimeout s) (muteEndIfEmpty s) (interval s) (index s) (steps s) v (busy s) (promise s) (events s).
Definition set_busy (v : bool) (s : Sequence) : Sequence :=
  MkSequence (running s) (suspended s) (suspendTimeout s) (muteEndIfEmpty s) (interval s) (index s) (steps s) (results s) v (promise s) (events s).
Definition set_promise (v : nat) (s : Sequence) : Sequence :=
  MkSequence (running s) (suspended s) (suspendTimeout s) (muteEndIfEmpty s) (interval s) (index s) (steps s) (results s) (busy s) v (events s).
Definition set_events (v : list Listener) (s : Sequence) : Sequence :=
  MkSequence (running s) (suspended s) (suspendTimeout s) (muteEndIfEmpty s) (interval s) (index s) (steps s) (results s) (busy s) (promise s) v.

Definition set_self (v : Sequence) (w : World) : World :=
  MkWorld v (host w) (arrays w) (chains w) (ticks w) (microtasks w) (immediates w) (timers w) (nextTimer w) (now w) (console w) (unhandled w) (emitted w) (calls w) (future w).
Definition set_host (v : Host) (w : World) : World :=
  MkWorld (self w) v (arrays w) (chains w) (ticks w) (microtasks w) (immediates w) (timers w) (nextTimer w) (now w) (console w) (unhandled w) (emitted w) (calls w) (future w).
Definition set_arrays (v : list (list SequenceResult.t)) (w : World) : World :=
  MkWorld (self w) (host w) v (chains w) (ticks w) (microtasks w) (immediates w) (timers w) (nextTimer w) (now w) (console w) (unhandled w) (emitted w) (calls w) (future w).
Definition set_chains (v : list ChainState) (w : World) : World :=
  MkWorld (self w) (host w) (arrays w) v (ticks w) (microtasks w) (immediates w) (timers w) (nextTimer w) (now w) (console w) (unhandled w) (emitted w) (calls w) (future w).
Definition set_ticks (v : list Callback) (w : World) : World :=
  MkWorld (self w) (host w) (arrays w) (chains w) v (microtasks w) (immediates w) (timers w) (nextTimer w) (now w) (console w) (unhandled w) (emitted w) (calls w) (future w).
Definition set_microtasks (v : list Job) (w : World) : World :=
  MkWorld (self w) (host w) (arrays w) (chains w) (ticks w) v (immediates w) (timers w) (nextTimer w) (now w) (console w) (unhandled w) (emitted w) (calls w) (future w).
Definition set_immediates (v : list Callback) (w : World) : World :=
  MkWorld (self w) (host w) (arrays w) (chains w) (ticks w) (microtasks w) v (timers w) (nextTimer w) (now w) (console w) (unhandled w) (emitted w) (calls w) (future w).
Definition set_timers (v : list Timer) (w : World) : World :=
  MkWorld (self w) (host w) (arrays w) (chains w) (ticks w) (microtasks w) (immediates w) v (nextTimer w) (now w) (console w) (unhandled w) (emitted w) (calls w) (future w).
Definition set_nextTimer (v : nat) (w : World) : World :=
  MkWorld (self w) (host w) (arrays w) (chains w) (ticks w) (microtasks w) (immediates w) (timers w) v (now w) (console w) (unhandled w) (emitted w) (calls w) (future w).
Definition set_now (v : nat) (w : World) : World :=
  MkWorld (self w) (host w) (arrays w) (chains w) (ticks w) (microtasks w) (immediates w) (timers w) (nextTimer w) v (console w) (unhandled w) (emitted w) (calls w) (future w).
Definition set_console (v : list string) (w : World) : World :=
  MkWorld (self w) (host w) (arrays w) (chains w) (ticks w) (microtasks w) (immediates w) (timers w) (nextTimer w) (now w) v (unhandled w) (emitted w) (calls w) (future w).
Definition set_unhandled (v : list SequenceError) (w : World) : World :=
  MkWorld (self w) (host w) (arrays w) (chains w) (ticks w) (microtasks w) (immediates w) (timers w) (nextTimer w) (now w) (console w) v (emitted w) (calls w) (future w).
Definition set_emitted (v : list Emission) (w : World) : World :=
  MkWorld (self w) (host w) (arrays w) (chains w) (ticks w) (microtasks w) (immediates w) (timers w) (nextTimer w) (now w) (console w) (unhandled w) v (calls w) (future w).
Definition set_calls (v : list Z) (w : World) : World :=
  MkWorld (self w) (host w) (arrays w) (chains w) (ticks w) (microtasks w) (immediates w) (timers w) (nextTimer w) (now w) (console w) (unhandled w) (emitted w) v (future w).
Definition set_future (v : FutureState) (w : World) : World :=
  MkWorld (self w) (host w) (arrays w) (chains w) (ticks w) (microtasks w) (immediates w) (timers w) (nextTimer w) (now w) (console w) (unhandled w) (emitted w) (calls w) v.

(** ** A state monad over the world *)

Definition M (A : Type) : Type := World -> A * World.

Definition ret {A : Type} (a : A) : M A := fun w => (a, w).

Definition bind {A B : Type} (m : M A) (k : A -> M B) : M B :=
  fun w => let p := m w in k (fst p) (snd p).

Declare Scope seq_scope.
Delimit Scope seq_scope with seq.
Notation "x <- m ;; k" := (bind m (fun x => k))
  (at level 61, m at next level, right associativity) : seq_scope.
Notation "m ;; k" := (bind m (fun _ => k))
  (at level 61, right associativity) : seq_scope.
Local Open Scope seq_scope.

Definition exec {A : Type} (m : M A) (w : World) : World := snd (m w).

Definition modify (f : World -> World) : M unit := fun w => (tt, f w).

(** Read and write the fields of [this]. *)
Definition this : M Sequence := fun w => (self w, w).
Definition assign (f : Sequence -> Sequence) : M unit :=
  modify (fun w => set_self (f (self w)) w).

Definition skip : M unit := ret tt.

Fixpoint forEach {A : Type} (l : list A) (f : A -> M unit) : M unit :=
  match l with
  | [] => skip
  | x :: l' => f x ;; forEach l' f
  end.

(** ** Host primitives *)

(** Replace the element at position [n]. *)
Fixpoint update {A : Type} (n : nat) (f : A -> A) (l : list A) : list A :=
  match l, n with
  | [], _ => []
  | x :: l', O => f x :: l'
  | x :: l', S n' => x :: update n' f l'
  end.

(** The content of the array behind a reference. *)
Definition read (a : nat) (w : World) : list SequenceResult.t :=
  nth a (arrays w) [].

(** [[]]: a fresh empty array. *)
Definition newArray : M nat :=
  fun w => (length (arrays w), set_arrays (arrays w ++ [[]]) w).

(** [arr.push(r)]. *)
Definition push (a : nat) (r : SequenceResult.t) : M unit :=
  modify (fun w => set_arrays (update a (fun l => l ++ [r]) (arrays w)) w).

(** [Promise.resolve()]. *)
Definition promiseResolve : M nat :=
  fun w => (length (chains w), set_chains (chains w ++ [ChFulfilled None]) w).

Definition enqueue (j : Job) : M unit :=
  modify (fun w => set_microtasks (microtasks w ++ [j]) w).

(** [p.then(() => { ...the step... })]: the derived promise is returned; its
    callback [JInvoke] is queued at once when [p] is fulfilled and waits on
    [p] while [p] is pending. *)
Definition thenInvoke (p : nat) : M nat :=
  fun w =>
    let c := length (chains w) in
    match nth_error (chains w) p with
    | Some (ChFulfilled _) =>
        (c, set_microtasks (microtasks w ++ [JInvoke c])
              (set_chains (chains w ++ [ChPending []]) w))
    | Some (ChPending ws) =>
        (c, set_chains
              (update p (fun _ => ChPending (ws ++ [JInvoke c])) (chains w)
                 ++ [ChPending []]) w)
    | Some (ChRejected e) => (c, set_chains (chains w ++ [ChRejected e]) w)
    | None => (c, set_chains (chains w ++ [ChPending []]) w)
    end.

(** The derived promise takes the value its callback returned; the jobs that
    waited on it are queued. *)
Definition fulfil (c : nat) (v : option SequenceResult.t) : M unit :=
  fun w =>
    match nth_error (chains w) c with
    | Some (ChPending ws) =>
        (tt, set_microtasks (microtasks w ++ ws)
               (set_chains (update c (fun _ => ChFulfilled v) (chains w)) w))
    | _ => (tt, w)
    end.

(** The instant a timer set now with [delay] is due. *)
Definition dueAt (now delay : nat) : nat := now + delay.

Definition setTimeout (cb : Callback) (delay : nat) : M nat :=
  fun w =>
    (nextTimer w,
     set_nextTimer (S (nextTimer w))
       (set_timers (timers w ++ [MkTimer (nextTimer w) (dueAt (now w) delay) cb]) w)).

Definition clearTimeout (id : nat) : M unit :=
  modify (fun w =>
    set_timers (filter (fun t => negb (Nat.eqb (tid t) id)) (timers w)) w).

Definition nextTick (cb : Callback) : M unit :=
  modify (fun w => set_ticks (ticks w ++ [cb]) w).

Definition setImmediate (cb : Callback) : M unit :=
  modify (fun w => set_immediates (immediates w ++ [cb]) w).

Definition warn (msg : string) : M unit :=
  modify (fun w => set_console (console w ++ [msg]) w).

(** [+new Date()]. *)
Definition date : M nat := fun w => (now w, w).

(** A promise returned by [next] that nobody looks at: a rejection stays
    unhandled. *)
Definition discard (r : NextResult) : M unit :=
  match r with
  | NRejected e => modify (fun w => set_unhandled (unhandled w ++ [e]) w)
  | _ => skip
  end.

(** [resolve(arr)] and [reject(arr)] of the combinator's promise: only the
    first call settles it. *)
Definition resolve (arr : nat) : M unit :=
  modify (fun w =>
    match future w with FPending => set_future (FResolved arr) w | _ => w end).

Definition reject (arr : nat) : M unit :=
  modify (fun w =>
    match future w with FPending => set_future (FRejected arr) w | _ => w end).

(** [steps[i]]: [undefined] outside the array, also for a negative [i]. *)
Definition stepAt (l : list SequenceStep) (i : Z) : option SequenceStep :=
  if (i <? 0)%Z then None else nth_error l (Z.to_nat i).

(** [results[results.length - 1]]. *)
Definition lastOf (h : list SequenceResult.t) : option SequenceResult.t :=
  match rev h with
  | [] => None
  | r :: _ => Some r
  end.

(** ** Methods of [Sequence] *)

(** [stop()] *)
Definition stop : M unit :=
  assign (set_running false) ;;
  s <- this ;;
  match suspendTimeout s with
  | Some id => clearTimeout id ;; assign (set_suspendTimeout None)
  | None => skip
  end ;;
  assign (set_suspended false).

(** The body of each listener of the combinators. *)
Definition listener (l : Listener) (e : Emission) : M unit :=
  match l with
  | AllOnEnd | ChainOnEnd =>
      match e with
      | EmEnd arr _ => resolve arr
      | _ => skip
      end
  | AllOnFailed => stop ;; s <- this ;; reject (results s)
  | AnyOnSuccess => s <- this ;; resolve (results s) ;; stop
  | AnyOnEnd => s <- this ;; reject (results s)
  end.

(** [EventEmitter.on]: a handler is held once per event name (a [Set]). *)
Definition on (l : Listener) : M unit :=
  assign (fun s =>
    if existsb (Listener_eqb l) (events s) then s
    else set_events (events s ++ [l]) s).

(** [EventEmitter.emit]: every handler of the event, in subscription order. *)
Definition emit (ev : SequenceEvent) (e : Emission) : M unit :=
  modify (fun w => set_emitted (emitted w ++ [e]) w) ;;
  s <- this ;;
  forEach (filter (fun l => SequenceEvent_eqb (listens l) ev) (events s))
          (fun l => listener l e).

(** [this.emit('end', this.results, this)] *)
Definition emitEnd : M unit :=
  s <- this ;;
  fun w => emit EvEnd (EmEnd (results s) (read (results s) w)) w.

(** [Object.assign(this, Sequence.createConfig())] *)
Definition createConfig : M unit :=
  a <- newArray ;;
  p <- promiseResolve ;;
  assign (fun s => set_promise p (set_busy false (set_steps []
           (set_index 0%Z (set_results a s))))).

(** [scheduleEndEvent()] *)
Definition scheduleEndEvent : M unit :=
  fun w =>
    match host w with
    | HostNextTick => nextTick CbEmitEnd w
    | HostSetImmediate => setImmediate CbEmitEnd w
    | HostSetTimeout => (_ <- setTimeout CbEmitEnd 0 ;; skip) w
    end.

(** [next(inner)] *)
Definition next (inner : bool) : M NextResult :=
  s <- this ;;
  if negb inner && running s then
    warn "Please do not call next() while the sequence is running."%string ;;
    ret (NRejected
           (MkSequenceError 2 "Cannot call next during the sequence is running."%string))
  else if busy s || suspended s then ret (NPromise (promise s))
  else if Nat.eqb (length (steps s)) 0 then
    (if negb (muteEndIfEmpty s)
     then _ <- setTimeout CbEmitEnd 0 ;; skip
     else skip) ;;
    ret NResolved
  else
    match stepAt (steps s) (index s) with
    | None => ret (NRejected (MkSequenceError 1 "no more steps."%string))
    | Some _ =>
        assign (set_busy true) ;;
        c <- thenInvoke (promise s) ;;
        assign (set_promise c) ;;
        ret (NPromise c)
    end.

(** The argument of [append]: one function or an array of them. *)
Inductive StepsArg : Type :=
| One (s : SequenceStep)
| Many (l : list SequenceStep).

(** [append(steps)] *)
Definition append (arg : StepsArg) : M unit :=
  s <- this ;;
  let dead := (Z.of_nat (length (steps s)) <=? index s)%Z in
  match arg with
  | One f => assign (set_steps (steps s ++ [f]))
  | Many l => assign (set_steps (steps s ++ l))
  end ;;
  if running s && dead then r <- next true ;; discard r else skip.

(** [go(n)]; [None] is [undefined]. *)
Definition go (n : option Z) : M unit :=
  match n with
  | None => skip
  | Some n =>
      s <- this ;;
      assign (set_index (Z.min n (Z.of_nat (length (steps s)))))
  end.

(** [clear()] *)
Definition clear : M unit := createConfig.

(** [run()] *)
Definition run : M unit :=
  s <- this ;;
  if running s then skip
  else assign (set_running true) ;; r <- next true ;; discard r.

(** [suspend(duration = 1000)] *)
Definition suspend (duration : option nat) : M unit :=
  let duration := match duration with Some d => d | None => 1000 end in
  assign (set_suspended true) ;;
  s <- this ;;
  match suspendTimeout s with
  | Some id => clearTimeout id
  | None => skip
  end ;;
  id <- setTimeout CbResume duration ;;
  assign (set_suspendTimeout (Some id)).

(** ** The callbacks chained by [next] *)

(** The callback of [this.promise.then]: call the step and turn what it does
    into a promise. *)
Definition invoke (c : nat) : M unit :=
  s <- this ;;
  fun w =>
    let h := read (results s) w in
    match stepAt (steps s) (index s) with
    | None => enqueue (JSettled c (Fulfils VUndefined)) w        (* step?.() *)
    | Some step =>
        let w := set_calls (calls w ++ [index s]) w in
        match step (lastOf h) (index s) h with
        | Returns v => enqueue (JSettled c (Fulfils v)) w        (* Promise.resolve(v) *)
        | Throws e => enqueue (JSettled c (Rejects e)) w         (* Promise.reject(e) *)
        | Awaitable O st => enqueue (JSettled c st) w
        | Awaitable (S d) st => (_ <- setTimeout (CbSettle c st) (S d) ;; skip) w
        end
    end.

(** [.then(value => ...)] and [.catch(reason => ...)]. *)
Definition settled (c : nat) (st : Settlement) : M unit :=
  s <- this ;;
  t <- date ;;
  match st with
  | Fulfils v =>
      let result := SequenceResult.mk SUCCEEDED (index s) (Some v) None t in
      push (results s) result ;;
      emit EvSuccess (EmStep EvSuccess result (index s)) ;;
      enqueue (JAdvance c result)
  | Rejects r =>
      let result := SequenceResult.mk FAILED (index s) None (Some r) t in
      push (results s) result ;;
      emit EvFailed (EmStep EvFailed result (index s)) ;;
      enqueue (JAdvance c result)
  end.

(** The final [.then(result => ...)]; its return value fulfils the chain.
    The host does that in a promise job of its own, right after the callback
    has returned and before any timer; the model folds that job into the
    callback, after its last statement. *)
Definition advance (c : nat) (result : SequenceResult.t) : M unit :=
  assign (fun s => set_index (index s + 1)%Z s) ;;
  assign (set_busy false) ;;
  s <- this ;;
  match stepAt (steps s) (index s) with
  | None => emitEnd
  | Some _ => _ <- setTimeout CbNext (interval s) ;; skip
  end ;;
  fulfil c (Some result).

Definition job (j : Job) : M unit :=
  match j with
  | JInvoke c => invoke c
  | JSettled c st => settled c st
  | JAdvance c r => advance c r
  end.

Definition callback (cb : Callback) : M unit :=
  match cb with
  | CbRun => run
  | CbEmitEnd => emitEnd
  | CbNext =>
      s <- this ;;
      if running s then r <- next true ;; discard r else skip
  | CbResume =>
      assign (set_suspended false) ;;
      s <- this ;;
      if running s then r <- next true ;; discard r else skip
  | CbSettle c st => enqueue (JSettled c st)
  end.

(** ** Construction and the static combinators *)

(** The world when [new Sequence] starts: the field initialisers have run
    ([results = []], [promise = Promise.resolve()]), nothing is scheduled. *)
Definition boot (h : Host) : World :=
  MkWorld (MkSequence false false None false 0 0%Z [] 0 false 0 [])
          h [[]] [ChFulfilled None] [] [] [] [] 1 0 [] [] [] [] FPending.

Definition truthy (b : option bool) : bool :=
  match b with Some true => true | _ => false end.

(** [constructor(steps = [], options = {})] *)
Definition construct (steps : list SequenceStep) (options : SequenceOptions.t)
  : M unit :=
  assign (set_running false) ;;
  assign (set_suspended false) ;;
  assign (set_suspendTimeout None) ;;
  assign (set_muteEndIfEmpty (truthy (SequenceOptions.emitEndIfEmpty options))) ;;
  assign (set_interval
            (match SequenceOptions.interval options with Some n => n | None => 0 end)) ;;
  createConfig ;;
  s <- this ;;
  match steps with
  | _ :: _ => append (Many steps)
  | [] => if negb (muteEndIfEmpty s) then scheduleEndEvent else skip
  end ;;
  match SequenceOptions.autoRun options with
  | Some false => skip
  | _ => _ <- setTimeout CbRun 0 ;; skip
  end.

(** [new Sequence(steps, options)] on a host. *)
Definition new (h : Host) (steps : list SequenceStep) (options : SequenceOptions.t)
  : World := exec (construct steps options) (boot h).

(** The options the combinators pass: [{ interval, muteEndIfEmpty: true }]. *)
Definition combinatorOptions (interval : option nat) : SequenceOptions.t :=
  SequenceOptions.mk None interval None (Some true).

Definition callCb (cb : option (M unit)) : M unit :=
  match cb with Some f => f | None => skip end.

(** [Sequence.all(steps, interval, cb)] *)
Definition all (h : Host) (steps : list SequenceStep) (interval : option nat)
  (cb : option (M unit)) : World :=
  match steps with
  | [] => exec (a <- newArray ;; resolve a) (boot h)
  | _ :: _ =>
      exec (construct steps (combinatorOptions interval) ;;
            callCb cb ;;
            on AllOnEnd ;;
            on AllOnFailed) (boot h)
  end.

(** [Sequence.chain(steps, interval, cb)] *)
Definition chain (h : Host) (steps : list SequenceStep) (interval : option nat)
  (cb : option (M unit)) : World :=
  match steps with
  | [] => exec (a <- newArray ;; resolve a) (boot h)
  | _ :: _ =>
      exec (construct steps (combinatorOptions interval) ;;
            callCb cb ;;
            on ChainOnEnd) (boot h)
  end.

(** [Sequence.any(steps, interval, cb)] *)
Definition any (h : Host) (steps : list SequenceStep) (interval : option nat)
  (cb : option (M unit)) : World :=
  match steps with
  | [] => exec (a <- newArray ;; reject a) (boot h)
  | _ :: _ =>
      exec (construct steps (combinatorOptions interval) ;;
            callCb cb ;;
            on AnyOnSuccess ;;
            on AnyOnEnd) (boot h)
  end.

(** What a consumer of the combinator's promise holds: the settled array is
    the live array of the sequence, so its content is read when asked. *)
Inductive Settled : Type :=
| Pending
| ResolvedWith (h : list SequenceResult.t)
| RejectedWith (h : list SequenceResult.t).

Definition outcome (w : World) : Settled :=
  match future w with
  | FPending => Pending
  | FResolved a => ResolvedWith (read a w)
  | FRejected a => RejectedWith (read a w)
  end.

(** The execution history of the instance. *)
Definition history (w : World) : list SequenceResult.t :=
  read (results (self w)) w.

(** The cursor. *)
Definition cursor (w : World) : Z := index (self w).

(** ** The event loop *)

(** The pending timer that is due first; among equals the one set first. *)
Fixpoint earliest (ts : list Timer) : option Timer :=
  match ts with
  | [] => None
  | t :: ts' =>
      match earliest ts' with
      | None => Some t
      | Some u => if due u <? due t then Some u else Some t
      end
  end.

(** A timer fires: it leaves the table, the clock is at its deadline (or
    later), its callback runs. *)
Definition fire (t : Timer) : M unit :=
  modify (fun w =>
    set_now (Nat.max (now w) (due t))
      (set_timers (filter (fun u => negb (Nat.eqb (tid u) (tid t))) (timers w)) w)) ;;
  callback (tcb t).

(** One turn of the loop in the order of the host: [process.nextTick]
    callbacks, promise jobs, [setImmediate] callbacks, then the earliest
    timer.  [None]: nothing is left to run.  (Once the host has started on
    its promise jobs it runs them all before it looks at [nextTick] again;
    no job of the class queues a [nextTick] callback, so the orders agree.) *)
Definition turn (w : World) : option World :=
  match ticks w with
  | cb :: rest => Some (exec (callback cb) (set_ticks rest w))
  | [] =>
      match microtasks w with
      | j :: rest => Some (exec (job j) (set_microtasks rest w))
      | [] =>
          match immediates w with
          | cb :: rest => Some (exec (callback cb) (set_immediates rest w))
          | [] =>
              match earliest (timers w) with
              | Some t => Some (exec (fire t) w)
              | None => None
              end
          end
      end
  end.

Fixpoint drain (fuel : nat) (w : World) : World :=
  match fuel with
  | O => w
  | S n =>
      match turn w with
      | Some w' => drain n w'
      | None => w
      end
  end.

(** Nothing is scheduled any more. *)
Definition idle (w : World) : Prop := turn w = None.

(** ** Interleavings

    Code outside the class may call a public method between any two jobs, and
    the host may run pending work in any order.  A subscriber's handler runs
    inside [emit], which is the last effect of the job that emits, so a call
    made from a handler is a call made right after that job, with the jobs
    then run in any order. *)

Fixpoint dropNth {A : Type} (k : nat) (l : list A) : list A :=
  match l, k with
  | [], _ => []
  | _ :: l', O => l'
  | x :: l', S k' => x :: dropNth k' l'
  end.

Inductive Action : Type :=
| CallAppend (arg : StepsArg)
| CallGo (n : option Z)
| CallClear
| CallNext (inner : bool)
| CallRun
| CallStop
| CallSuspend (duration : option nat)
| CallOn (l : Listener)
| RunTick (k : nat)
| RunMicrotask (k : nat)
| RunImmediate (k : nat)
| FireTimer (k : nat).

Definition perform (a : Action) (w : World) : option World :=
  match a with
  | CallAppend arg => Some (exec (append arg) w)
  | CallGo n => Some (exec (go n) w)
  | CallClear => Some (exec clear w)
  | CallNext inner => Some (exec (next inner) w)
  | CallRun => Some (exec run w)
  | CallStop => Some (exec stop w)
  | CallSuspend d => Some (exec (suspend d) w)
  | CallOn l => Some (exec (on l) w)
  | RunTick k =>
      match nth_error (ticks w) k with
      | Some cb => Some (exec (callback cb) (set_ticks (dropNth k (ticks w)) w))
      | None => None
      end
  | RunMicrotask k =>
      match nth_error (microtasks w) k with
      | Some j => Some (exec (job j) (set_microtasks (dropNth k (microtasks w)) w))
      | None => None
      end
  | RunImmediate k =>
      match nth_error (immediates w) k with
      | Some cb =>
          Some (exec (callback cb) (set_immediates (dropNth k (immediates w)) w))
      | None => None
      end
  | FireTimer k =>
      match nth_error (timers w) k with
      | Some t => Some (exec (fire t) w)
      | None => None
      end
  end.

(** Run a list of actions; an action that is not enabled is skipped. *)
Fixpoint performAll (l : list Action) (w : World) : World :=
  match l with
  | [] => w
  | a :: l' =>
      match perform a w with
      | Some w' => performAll l' w'
      | None => performAll l' w
      end
  end.

(** * EventEmitter

    Shallow embedding of [class EventEmitter] of
    [packages/utils/src/event/emitter.ts], the base class of [Sequence]:
    [#events] is a [Map] from event names to [Set]s of handlers; both keep
    insertion order, and a handler is in a set at most once.

    A handler is a function value, known by its identity.  What the
    handlers supplied from outside do when they are called is a parameter
    of the model: they may subscribe and unsubscribe handlers of the same
    emitter, and return or throw.  (A handler that itself calls [emit] is
    not covered.) *)
Module EventEmitter.

(** A function value: a function supplied by the caller, or the arrow
    function [wrapper] that a call of [once] creates (each call creates a
    new one) around its executor. *)
Inductive Fn : Type :=
| User (id : nat)
| Wrapper (serial : nat) (eventName : string) (executor : nat).

Definition Fn_eqb (a b : Fn) : bool :=
  match a, b with
  | User i, User j => Nat.eqb i j
  | Wrapper k n i, Wrapper k' n' i' => Nat.eqb k k' && String.eqb n n' && Nat.eqb i i'
  | _, _ => false
  end.

(** What is passed as [executor]: a function, or anything else. *)
Inductive Executor : Type :=
| Function (id : nat)
| NotCallable.

(** The errors thrown by [#ensureEvent] and [#ensureExecutor], and the
    value a handler throws. *)
Inductive Exception : Type :=
| EmptyEventName
| ExecutorNotFunction
| Raised (v : Value).

Inductive Result : Type :=
| Returned
| Thrown (e : Exception).

(** The calls a handler makes on the emitter it is subscribed to. *)
Inductive Act : Type :=
| ActOn (eventName : string) (executor : nat)
| ActOnce (eventName : string) (executor : nat)
| ActOff (eventName : string) (executor : option nat).

(** The body of a handler: the calls it makes, then whether it throws. *)
Record Body : Type := MkBody {
  acts : list Act;
  raises : option Value
}.

(** The emitter, with what the outside observes of it: the calls of the
    caller's handlers with their arguments, and the lines of
    [console.error]. *)
Record State : Type := MkState {
  events : list (string * list Fn);       (* #events *)
  serial : nat;                           (* wrappers created so far *)
  called : list (nat * list Value);
  errors : list (string * Exception)
}.

Definition empty : State := MkState [] 0 [] [].

(** [#events.get(eventName)] *)
Fixpoint get (eventName : string) (m : list (string * list Fn)) : option (list Fn) :=
  match m with
  | [] => None
  | (k, v) :: m' => if String.eqb k eventName then Some v else get eventName m'
  end.

(** [#events.set(eventName, v)]: an existing key keeps its place. *)
Fixpoint set (eventName : string) (v : list Fn) (m : list (string * list Fn))
  : list (string * list Fn) :=
  match m with
  | [] => [(eventName, v)]
  | (k, u) :: m' =>
      if String.eqb k eventName then (k, v) :: m' else (k, u) :: set eventName v m'
  end.

(** [#events.delete(eventName)] *)
Definition delete (eventName : string) (m : list (string * list Fn))
  : list (string * list Fn) :=
  filter (fun kv => negb (String.eqb (fst kv) eventName)) m.

(** [Set.add] and [Set.delete]. *)
Definition add (f : Fn) (s : list Fn) : list Fn :=
  if existsb (Fn_eqb f) s then s else s ++ [f].

Definition remove (f : Fn) (s : list Fn) : list Fn :=
  filter (fun g => negb (Fn_eqb f g)) s.

(** The handlers of an event, in subscription order. *)
Definition listeners (eventName : string) (e : State) : list Fn :=
  match get eventName (events e) with
  | Some s => s
  | None => []
  end.

Definition set_events (m : list (string * list Fn)) (e : State) : State :=
  MkState m (serial e) (called e) (errors e).

(** [#ensureEvent]: [!eventName] holds of the empty string. *)
Definition ensureEvent (eventName : string) : Result :=
  if String.eqb eventName "" then Thrown EmptyEventName else Returned.

(** The part of [on] after the two checks. *)
Definition subscribe (eventName : string) (f : Fn) (e : State) : State :=
  let m := match get eventName (events e) with
           | Some _ => events e
           | None => set eventName [] (events e)
           end in
  set_events (set eventName (add f (listeners eventName (set_events m e))) m) e.

(** [on(eventName, executor)] *)
Definition on (eventName : string) (executor : Executor) (e : State) : Result * State :=
  match ensureEvent eventName with
  | Thrown x => (Thrown x, e)
  | Returned =>
      match executor with
      | NotCallable => (Thrown ExecutorNotFunction, e)         (* #ensureExecutor *)
      | Function id => (Returned, subscribe eventName (User id) e)
      end
  end.

(** [off(eventName, executor?)] *)
Definition off (eventName : string) (executor : option Fn) (e : State) : Result * State :=
  match ensureEvent eventName with
  | Thrown x => (Thrown x, e)
  | Returned =>
      match get eventName (events e) with
      | None => (Returned, e)
      | Some s =>
          let s' := match executor with
                    | Some f => remove f s
                    | None => []
                    end in
          match s' with
          | [] => (Returned, set_events (delete eventName (events e)) e)
          | _ :: _ => (Returned, set_events (set eventName s' (events e)) e)
          end
      end
  end.

(** [once(eventName, executor)]: a new wrapper is subscribed with [on]. *)
Definition once (eventName : string) (executor : Executor) (e : State) : Result * State :=
  match ensureEvent eventName with
  | Thrown x => (Thrown x, e)
  | Returned =>
      match executor with
      | NotCallable => (Thrown ExecutorNotFunction, e)         (* #ensureExecutor *)
      | Function id =>
          (Returned,
           subscribe eventName (Wrapper (serial e) eventName id)
             (MkState (events e) (S (serial e)) (called e) (errors e)))
      end
  end.

(** [clear()] *)
Definition clear (e : State) : State := set_events [] e.

Section Handlers.

(** What the caller's function [id] does when called with [args]. *)
Variable body : nat -> list Value -> Body.

Definition act (a : Act) (e : State) : Result * State :=
  match a with
  | ActOn n f => on n (Function f) e
  | ActOnce n f => once n (Function f) e
  | ActOff n f => off n (match f with Some i => Some (User i) | None => None end) e
  end.

(** The calls of a body, up to the first that throws. *)
Fixpoint perform (l : list Act) (e : State) : Result * State :=
  match l with
  | [] => (Returned, e)
  | a :: l' =>
      match act a e with
      | (Returned, e') => perform l' e'
      | (Thrown x, e') => (Thrown x, e')
      end
  end.

(** A call of the caller's function [id]. *)
Definition callUser (id : nat) (args : list Value) (e : State) : Result * State :=
  let e1 := MkState (events e) (serial e) (called e ++ [(id, args)]) (errors e) in
  match perform (acts (body id args)) e1 with
  | (Returned, e2) =>
      match raises (body id args) with
      | Some v => (Thrown (Raised v), e2)
      | None => (Returned, e2)
      end
  | (Thrown x, e2) => (Thrown x, e2)
  end.

(** A call of a function value; the wrapper of [once] calls its executor
    and then unsubscribes itself. *)
Definition call (f : Fn) (args : list Value) (e : State) : Result * State :=
  match f with
  | User id => callUser id args e
  | Wrapper k n id =>
      match callUser id args e with
      | (Returned, e') => off n (Some (Wrapper k n id)) e'
      | (Thrown x, e') => (Thrown x, e')
      end
  end.

(** The body of the [forEach] of [emit]: [try { listener.call(...) }
    catch (error) { console.error(...) }]. *)
Definition notify (eventName : string) (args : list Value) (e : State) (f : Fn) : State :=
  match call f args e with
  | (Returned, e') => e'
  | (Thrown x, e') =>
      MkState (events e') (serial e') (called e') (errors e' ++ [(eventName, x)])
  end.

(** [emit(eventName, ...args)]: the handlers are copied with [Array.from]
    before the first is called. *)
Definition emit (eventName : string) (args : list Value) (e : State) : Result * State :=
  match ensureEvent eventName with
  | Thrown x => (Thrown x, e)
  | Returned =>
      match get eventName (events e) with
      | None => (Returned, e)
      | Some s => (Returned, fold_left (notify eventName args) s e)
      end
  end.

End Handlers.

(** The caller's function that a function value runs. *)
Definition executorOf (f : Fn) : nat :=
  match f with
  | User id => id
  | Wrapper _ _ id => id
  end.

(** One line of [console.error] for each of [ids] whose body throws. *)
Definition raised (body : nat -> list Value -> Body) (eventName : string)
  (args : list Value) (ids : list nat) : list (string * Exception) :=
  flat_map (fun id => match raises (body id args) with
                      | Some v => [(eventName, Raised v)]
                      | None => []
                      end) ids.

End EventEmitter.

(** * Vocabulary of the properties

    Sample steps and worlds for the concrete runs, closed forms of the
    callbacks, and the predicates the theorems are stated with. *)

(** Sample steps used by the concrete runs below. *)
Definition resolveWith (v : Value) : SequenceStep := fun _ _ _ => Returns v.
Definition rejectWith (r : Value) : SequenceStep :=
  fun _ _ _ => Awaitable 0 (Rejects r).
Definition throwing (e : Value) : SequenceStep := fun _ _ _ => Throws e.
Definition slowly (d : nat) (v : Value) : SequenceStep :=
  fun _ _ _ => Awaitable d (Fulfils v).

(** Options [{ autoRun: false }]. *)
Definition manual : SequenceOptions.t :=
  SequenceOptions.mk None None (Some false) None.

(** A sequence of one slow step, started: the step is in flight. *)
Definition inFlight : World :=
  drain 2 (new HostNextTick [slowly 20 (VStr "step1")] SequenceOptions.default).

(** That sequence after [suspend(5)] and the firing of the resume timer: the
    step is still in flight, the sequence is no longer suspended, and the
    instance still holds the handle of the timer that fired. *)
Definition resumedInFlight : World :=
  drain 1 (exec (suspend (Some 5)) inFlight).

Definition cancel (id : option nat) (ts : list Timer) : list Timer :=
  match id with
  | Some id => filter (fun t => negb (Nat.eqb (tid t) id)) ts
  | None => ts
  end.

(** A finished one-step sequence that is still running. *)
Definition exhausted : World :=
  drain 6 (new HostNextTick [resolveWith (VNum 1)] SequenceOptions.default).

(** The record that [settled] builds for a settlement. *)
Definition record (st : Settlement) (w : World) : SequenceResult.t :=
  match st with
  | Fulfils v => SequenceResult.mk SUCCEEDED (cursor w) (Some v) None (now w)
  | Rejects r => SequenceResult.mk FAILED (cursor w) None (Some r) (now w)
  end.

Definition eventOf (st : Settlement) : SequenceEvent :=
  match st with
  | Fulfils _ => EvSuccess
  | Rejects _ => EvFailed
  end.

(** The first two statements of the final callback. *)
Definition bumped (w : World) : World :=
  set_self (set_busy false (set_index (index (self w) + 1)%Z (self w))) w.

(** The sequence of one slow step, stopped while the step is in flight, then
    left to the loop. *)
Definition stoppedInFlight : World := exec stop inFlight.

(** How the awaitable of a call ends, and after how long: a plain return
    value is wrapped by [Promise.resolve], a throw by [Promise.reject]. *)
Definition settlement (o : Outcome) : Settlement :=
  match o with
  | Returns v => Fulfils v
  | Throws e => Rejects e
  | Awaitable _ st => st
  end.

Definition latency (o : Outcome) : nat :=
  match o with
  | Returns _ | Throws _ => 0
  | Awaitable d _ => d
  end.

(** The reactions of a promise that is already settled are queued at once;
    otherwise the host settles it later. *)
Definition deliver (c : nat) (st : Settlement) (d : nat) : M unit :=
  match d with
  | O => enqueue (JSettled c st)
  | S _ => _ <- setTimeout (CbSettle c st) d ;; skip
  end.

(** A step that fulfils whatever it is called with, and one that fails
    (throws or rejects) whatever it is called with. *)
Definition succeeds (s : SequenceStep) : Prop :=
  forall p i h, exists v, settlement (s p i h) = Fulfils v.

Definition fails (s : SequenceStep) : Prop :=
  forall p i h, exists e, settlement (s p i h) = Rejects e.

(** A sequence whose first step throws, after [run()] was called by the
    automatic start. *)
Definition aboutToThrow : World :=
  drain 1 (new HostNextTick [throwing (VStr "error"); resolveWith (VNum 2)]
             SequenceOptions.default).

(** That sequence run to its end and then sent back with [go(0)]: it is
    still running, the throwing step is at the cursor again and nothing is
    scheduled. *)
Definition retried : World :=
  exec (go (Some 0%Z))
    (drain 8 (new HostNextTick [throwing (VStr "error"); resolveWith (VNum 2)]
                SequenceOptions.default)).

(** The steps an argument of [append] stands for. *)
Definition stepsOf (arg : StepsArg) : list SequenceStep :=
  match arg with
  | One f => [f]
  | Many l => l
  end.

(** The worlds a run of [any] goes through: the instance as the combinator
    built it (not suspended, mute flag off, history in array 1, the two
    listeners of [any]), nothing in the [nextTick] and [setImmediate]
    queues. *)
Definition anyWorld (h : Host) (l : list SequenceStep) (itv : nat)
  (run bsy : bool) (i : Z) (hist : list SequenceResult.t)
  (chs : list ChainState) (prom : nat) (mt : list Job) (tm : list Timer)
  (nt t : nat) (em : list Emission) (cl : list Z) (fu : FutureState) : World :=
  MkWorld (MkSequence run false None false itv i l 1 bsy prom [AnyOnSuccess; AnyOnEnd])
          h [[]; hist] chs [] mt [] tm nt t [] [] em cl fu.

Definition intervalOf (itv : option nat) : nat :=
  match itv with Some n => n | None => 0 end.

Definition failedRecord (r : SequenceResult.t) : Prop :=
  SequenceResult.status r = FAILED.

Definition isSuccess (e : Emission) : bool :=
  match e with
  | EmStep EvSuccess _ _ => true
  | _ => false
  end.

(** The indices [0 .. n-1], in order. *)
Definition indices (n : nat) : list Z := map Z.of_nat (seq 0 n).

(** [any] ended on a success: the promise is resolved with the history,
    whose last record is the success and whose earlier records are all
    failures; the steps called are exactly those up to the successful one;
    the sequence is stopped. *)
Definition anyResolved (w : World) : Prop :=
  exists fs r,
    outcome w = ResolvedWith (fs ++ [r])
    /\ SequenceResult.status r = SUCCEEDED
    /\ Forall failedRecord fs
    /\ In (EmStep EvSuccess r (Z.of_nat (length fs))) (emitted w)
    /\ calls w = indices (S (length fs))
    /\ running (self w) = false.

(** [any] ended without a success: [end] was emitted with the full history,
    one failure per step, and the promise is rejected with it. *)
Definition anyRejected (l : list SequenceStep) (w : World) : Prop :=
  exists hs,
    outcome w = RejectedWith hs
    /\ Forall failedRecord hs
    /\ length hs = length l
    /\ In (EmEnd 1 hs) (emitted w)
    /\ Forall (fun e => isSuccess e = false) (emitted w)
    /\ calls w = indices (length l).

(** The jobs of a step that the host still holds: the reaction to a settled
    awaitable is a job in the queue, an awaitable that has not settled yet
    is a timer of the host. *)
Definition settleJob (t : Timer) : list Job :=
  match tcb t with
  | CbSettle c st => [JSettled c st]
  | _ => []
  end.

Definition settleJobs (ts : list Timer) : list Job := flat_map settleJob ts.

Definition inflight (w : World) : list Job :=
  microtasks w ++ settleJobs (timers w).

(** The callbacks that the class itself defers. *)
Definition ownCallback (cb : Callback) : Prop :=
  match cb with
  | CbSettle _ _ => False
  | _ => True
  end.

(** Where a step in flight stands: its job is the only one, and the history
    is one record ahead of the cursor exactly between the callback that
    records and the callback that advances.  (A job whose timer was cleared
    is gone; then [busy] stays set for good.) *)
Definition phase (w : World) : Prop :=
  inflight w = []
  \/ (inflight w = [JInvoke (promise (self w))]
      /\ Z.of_nat (length (history w)) = cursor w)
  \/ (exists st, inflight w = [JSettled (promise (self w)) st]
      /\ Z.of_nat (length (history w)) = cursor w)
  \/ (exists r, inflight w = [JAdvance (promise (self w)) r]
      /\ Z.of_nat (length (history w)) = (cursor w + 1)%Z).

Record Inv (w : World) : Prop := {
  inv_array : results (self w) < length (arrays w);
  inv_ticks : Forall ownCallback (ticks w);
  inv_immediates : Forall ownCallback (immediates w);
  inv_idle :
    busy (self w) = false ->
    inflight w = []
    /\ (exists v, nth_error (chains w) (promise (self w)) = Some (ChFulfilled v))
    /\ Z.of_nat (length (history w)) = cursor w;
  inv_busy :
    busy (self w) = true ->
    nth_error (chains w) (promise (self w)) = Some (ChPending []) /\ phase w
}.

(** [ts'] holds no settlement that [ts] does not hold. *)
Definition quieter (ts' ts : list Timer) : Prop :=
  incl (settleJobs ts') (settleJobs ts)
  /\ length (settleJobs ts') <= length (settleJobs ts).

(** A change that leaves the engine's own data alone: arrays, promises, job
    queue, cursor, [busy]; timers may be cleared and own callbacks added. *)
Record calm (w w' : World) : Prop := {
  calm_arrays : arrays w' = arrays w;
  calm_chains : chains w' = chains w;
  calm_microtasks : microtasks w' = microtasks w;
  calm_results : results (self w') = results (self w);
  calm_busy : busy (self w') = busy (self w);
  calm_promise : promise (self w') = promise (self w);
  calm_index : index (self w') = index (self w);
  calm_ticks : Forall ownCallback (ticks w) -> Forall ownCallback (ticks w');
  calm_immediates : Forall ownCallback (immediates w) -> Forall ownCallback (immediates w');
  calm_timers : quieter (timers w') (timers w)
}.

(** What an interleaving may not do here: move the cursor with [go(n)],
    or [clear()] while a step is in flight. *)
Definition allowed (a : Action) (w : World) : Prop :=
  match a with
  | CallGo (Some _) => False
  | CallClear => busy (self w) = false
  | _ => True
  end.

(** The worlds an instance goes through, from its construction, under any
    interleaving of calls from outside with the work of the host, as long as
    the calls are [allowed]. *)
Inductive ordinary (w0 : World) : World -> Prop :=
| ordinary_start : ordinary w0 w0
| ordinary_step (a : Action) (w w' : World) :
    ordinary w0 w -> allowed a w -> perform a w = Some w' -> ordinary w0 w'.

(** A checkable form of [allowed], to build runs. *)
Definition allowedb (a : Action) (w : World) : bool :=
  match a with
  | CallGo (Some _) => false
  | CallClear => negb (busy (self w))
  | _ => true
  end.

Fixpoint trace (l : list Action) (w : World) : option World :=
  match l with
  | [] => Some w
  | a :: l' =>
      if allowedb a w then
        match perform a w with
        | Some w' => trace l' w'
        | None => None
        end
      else None
  end.

(** A run with calls from outside: two steps, with a [suspend], an
    [append], a [stop] and a [run] in between, then a refused [next()]. *)
Definition sampleRun : list Action :=
  [FireTimer 0; RunMicrotask 0; CallSuspend (Some 50); RunMicrotask 0;
   CallAppend (One (rejectWith (VStr "x"))); RunMicrotask 0; CallStop; CallRun;
   FireTimer 0; RunMicrotask 0; FireTimer 0; RunMicrotask 0; RunMicrotask 0;
   CallNext false; CallGo None].

Definition sampleStart : World :=
  new HostNextTick [resolveWith (VNum 1); slowly 5 (VNum 2)] SequenceOptions.default.

Definition sampleEnd : World := performAll sampleRun sampleStart.

(** ** A reference run

    What a sequence left alone does with its steps, written as a plain
    recursion: the steps are called one after the other, each with the
    previous record, its index and the history so far; its record carries
    the instant it settled; the next call comes [itv] milliseconds later. *)

(** The record built by the [then] and [catch] callbacks of [next] for a
    settlement seen at index [i] and instant [t]. *)
Definition recordAt (st : Settlement) (i : Z) (t : nat) : SequenceResult.t :=
  match st with
  | Fulfils v => SequenceResult.mk SUCCEEDED i (Some v) None t
  | Rejects r => SequenceResult.mk FAILED i None (Some r) t
  end.

Fixpoint played (itv : nat) (l : list SequenceStep) (hist : list SequenceResult.t)
  (t : nat) : list SequenceResult.t :=
  match l with
  | [] => hist
  | s :: l' =>
      let i := Z.of_nat (length hist) in
      let o := s (lastOf hist) i hist in
      played itv l' (hist ++ [recordAt (settlement o) i (t + latency o)])
        (t + latency o + itv)
  end.

(** The same run cut at the first failure, as [Sequence.all] cuts it; the
    flag tells whether every step succeeded. *)
Fixpoint playedAll (itv : nat) (l : list SequenceStep) (hist : list SequenceResult.t)
  (t : nat) : list SequenceResult.t * bool :=
  match l with
  | [] => (hist, true)
  | s :: l' =>
      let i := Z.of_nat (length hist) in
      let o := s (lastOf hist) i hist in
      let r := recordAt (settlement o) i (t + latency o) in
      match settlement o with
      | Fulfils _ => playedAll itv l' (hist ++ [r]) (t + latency o + itv)
      | Rejects _ => (hist ++ [r], false)
      end
  end.

(** The per-step notification of a record. *)
Definition eventOfRecord (r : SequenceResult.t) : SequenceEvent :=
  if (SequenceResult.status r =? SUCCEEDED)%Z then EvSuccess else EvFailed.

Definition stepEvents (hist : list SequenceResult.t) : list Emission :=
  map (fun r => EmStep (eventOfRecord r) r (SequenceResult.index r)) hist.

(** The listeners of an event, in subscription order. *)
Definition listenersOf (ev : SequenceEvent) (evs : list Listener) : list Listener :=
  filter (fun l => SequenceEvent_eqb (listens l) ev) evs.

(** The worlds a run goes through: nothing in the [nextTick] and
    [setImmediate] queues, the history in array 1, no warning and no
    unhandled rejection so far. *)
Definition runWorld (h : Host) (mute : bool) (evs : list Listener) (sto : option nat)
  (l : list SequenceStep) (itv : nat) (run bsy : bool) (i : Z)
  (hist : list SequenceResult.t) (chs : list ChainState) (prom : nat)
  (mt : list Job) (tm : list Timer) (nt t : nat) (em : list Emission)
  (cl : list Z) (fu : FutureState) : World :=
  MkWorld (MkSequence run false sto mute itv i l 1 bsy prom evs)
          h [[]; hist] chs [] mt [] tm nt t [] [] em cl fu.

(** The world in which the call of step [length hist] is the only job;
    [em] is what was emitted so far. *)
Definition atCall (h : Host) (mute : bool) (evs : list Listener) (sto : option nat)
  (l : list SequenceStep) (itv : nat) (hist : list SequenceResult.t)
  (chs : list ChainState) (nt t : nat) (em : list Emission) : World :=
  runWorld h mute evs sto l itv true true (Z.of_nat (length hist)) hist
    (chs ++ [ChPending []]) (length chs) [JInvoke (length chs)] [] nt t
    em (indices (length hist)) FPending.

(** The world in which the final callback of the last step is the only
    job; [fu] is what the listeners made of the promise so far. *)
Definition atLast (h : Host) (mute : bool) (evs : list Listener) (sto : option nat)
  (l : list SequenceStep) (itv : nat) (run : bool) (hist : list SequenceResult.t)
  (r : SequenceResult.t) (chs : list ChainState) (nt : nat) (fu : FutureState)
  (em : list Emission) : World :=
  runWorld h mute evs sto l itv run true (Z.of_nat (length hist)) (hist ++ [r])
    (chs ++ [ChPending []]) (length chs) [JAdvance (length chs) r] [] nt
    (SequenceResult.time r) em (indices (S (length hist))) fu.

Definition succeededRecord (r : SequenceResult.t) : Prop :=
  SequenceResult.status r = SUCCEEDED.

(** The listeners that [Sequence.all] and [Sequence.chain] register. *)
Definition allListeners : list Listener := [AllOnEnd; AllOnFailed].
Definition chainListeners : list Listener := [ChainOnEnd].

(** [suspend(duration = 1000)]: the default of the parameter. *)
Definition durationOf (duration : option nat) : nat :=
  match duration with Some d => d | None => 1000 end.

(** The error of [next] past the last step. *)
Definition noMoreSteps : SequenceError := MkSequenceError 1 "no more steps."%string.

(** A two-step sequence between its steps: the first record is in the
    history, the interval timer is pending. *)
Definition betweenSteps : World :=
  drain 4 (new HostNextTick [resolveWith (VNum 1); resolveWith (VNum 2)]
             SequenceOptions.default).

(** The same sequence while its first step is being recorded: the [then]
    callback has run, the final callback is the next job. *)
Definition beingRecorded : World :=
  drain 3 (new HostNextTick [resolveWith (VNum 1); resolveWith (VNum 2)]
             SequenceOptions.default).

(** A record as [next] builds them, at position [k] of the history: its
    index is its position, and it carries either a value with status
    [SUCCEEDED] or a reason with status [FAILED]. *)
Definition wellFormedRecord (k : nat) (r : SequenceResult.t) : Prop :=
  SequenceResult.index r = Z.of_nat k
  /\ ((SequenceResult.status r = SUCCEEDED
       /\ SequenceResult.value r <> None /\ SequenceResult.reason r = None)
      \/ (SequenceResult.status r = FAILED
          /\ SequenceResult.value r = None /\ SequenceResult.reason r <> None)).

Definition wellFormedHistory (hs : list SequenceResult.t) : Prop :=
  forall k r, nth_error hs k = Some r -> wellFormedRecord k r.

(** Consecutive records are at least [itv] milliseconds apart. *)
Definition spaced (itv : nat) (hs : list SequenceResult.t) : Prop :=
  forall k r1 r2,
    nth_error hs k = Some r1 -> nth_error hs (S k) = Some r2 ->
    SequenceResult.time r1 + itv <= SequenceResult.time r2.

(** Sample handlers: function 1 unsubscribes function 2 from ["end"] and
    subscribes function 3 to it; function 4 throws; the others do nothing. *)
Definition sampleBody (id : nat) (args : list Value) : EventEmitter.Body :=
  match id with
  | 1 => EventEmitter.MkBody
           [EventEmitter.ActOff "end" (Some 2); EventEmitter.ActOn "end" 3] None
  | 4 => EventEmitter.MkBody [] (Some (VStr "boom"))
  | _ => EventEmitter.MkBody [] None
  end.

(** An emitter with functions 1 and 2 subscribed to ["end"], in that order. *)
Definition sampleEmitter : EventEmitter.State :=
  snd (EventEmitter.on "end" (EventEmitter.Function 2)
         (snd (EventEmitter.on "end" (EventEmitter.Function 1) EventEmitter.empty))).

(** * Properties *)

(** ** [go] *)

(** [go] writes the cursor and nothing else. *)
Lemma go_self (n : Z) (w : World) :
  exec (go (Some n)) w =
  set_self (set_index (Z.min n (Z.of_nat (length (steps (self w))))) (self w)) w.
Proof. reflexivity. Qed.

(** C7 (as stated) fails: a negative target is stored as it is, so the cursor
    leaves the range [0, steps.length]; the repository's own test of [go]
    rewinds with [go(index - 1)] at index 0. *)
Lemma C7_go_negative_counterexample :
  let w := exec (go (Some (-1)%Z)) (new HostNextTick [resolveWith VUndefined] manual) in
  cursor w = (-1)%Z /\ (cursor w < 0)%Z /\ length (steps (self w)) = 1.
Proof. cbv. repeat split; reflexivity. Qed.

(** C7 (amended): for every integer [n], [go(n)] sets the cursor to
    [min(n, steps.length)], so it never exceeds the queue length, and it is
    bounded below only by [min(0, n)]: non-negative targets stay in
    [0, steps.length], a negative target is stored unchanged.  [go] with an
    absent target changes nothing. *)
Theorem C7_go_min_upper_clamp (w : World) (n : Z) :
  let len := Z.of_nat (length (steps (self w))) in
  cursor (exec (go (Some n)) w) = Z.min n len
  /\ (Z.min 0 n <= cursor (exec (go (Some n)) w) <= len)%Z
  /\ steps (self (exec (go (Some n)) w)) = steps (self w)
  /\ history (exec (go (Some n)) w) = history w
  /\ exec (go None) w = w.
Proof.
  intros len. rewrite go_self. unfold cursor, history, len. simpl.
  repeat split; try reflexivity; lia.
Qed.

(** ** Re-entrancy of [next] *)

(** C9: on a running sequence an external [next()] returns a promise rejected
    with the re-entrancy error (errno 2); the instance (cursor, steps, history
    reference, busy, running, suspended, chain, listeners) and every queue of
    the host are as before; only the console got the warning. *)
Theorem C9_next_reentrancy (w : World) :
  running (self w) = true ->
  next false w =
    (NRejected (MkSequenceError 2 "Cannot call next during the sequence is running."%string),
     set_console
       (console w ++ ["Please do not call next() while the sequence is running."%string]) w)
  /\ self (exec (next false) w) = self w
  /\ history (exec (next false) w) = history w
  /\ microtasks (exec (next false) w) = microtasks w
  /\ timers (exec (next false) w) = timers w
  /\ chains (exec (next false) w) = chains w
  /\ emitted (exec (next false) w) = emitted w
  /\ unhandled (exec (next false) w) = unhandled w.
Proof.
  intros Hrun.
  assert (E : next false w =
    (NRejected (MkSequenceError 2 "Cannot call next during the sequence is running."%string),
     set_console
       (console w ++ ["Please do not call next() while the sequence is running."%string]) w)).
  { unfold next, bind, this. cbn. rewrite Hrun. reflexivity. }
  split; [exact E|].
  unfold exec, history. rewrite E. simpl. repeat split; reflexivity.
Qed.

Lemma C9_next_reentrancy_witness :
  running (self inFlight) = true
  /\ self (exec (next false) inFlight) = self inFlight.
Proof.
  split; [reflexivity|].
  exact (proj1 (proj2 (C9_next_reentrancy inFlight eq_refl))).
Defined.

(** ** What [stop], the listeners and [emit] can change *)

Ltac world w :=
  let s := fresh "s" in
  destruct w as [s ? ? ? ? ? ? ? ? ? ? ? ? ? ?]; destruct s; simpl in *.

(** [stop] in closed form. *)
Lemma stop_eq (w : World) :
  exec stop w =
  set_self (set_suspended false (set_suspendTimeout None (set_running false (self w))))
    (set_timers (cancel (suspendTimeout (self w)) (timers w)) w).
Proof. world w. destruct suspendTimeout0; reflexivity. Qed.

Lemma stop_stop (w : World) : exec stop (exec stop w) = exec stop w.
Proof. rewrite !stop_eq. world w. reflexivity. Qed.

Lemma stop_set_future f (w : World) :
  exec stop (set_future f w) = set_future f (exec stop w).
Proof. rewrite !stop_eq. world w. reflexivity. Qed.

Lemma set_future_twice f g (w : World) :
  set_future f (set_future g w) = set_future f w.
Proof. world w. reflexivity. Qed.

(** A listener of the combinators settles the future at most, and may stop
    the sequence. *)
Lemma listener_cases (l : Listener) (e : Emission) (w : World) :
  exists f, exec (listener l e) w = set_future f w
         \/ exec (listener l e) w = set_future f (exec stop w).
Proof.
  assert (R : forall a v, exec (resolve a) v = set_future (future (exec (resolve a) v)) v).
  { intros a v. world v. destruct future0; reflexivity. }
  assert (J : forall a v, exec (reject a) v = set_future (future (exec (reject a) v)) v).
  { intros a v. world v. destruct future0; reflexivity. }
  destruct l; simpl.
  - destruct e; [exists (future w); left; world w; reflexivity|].
    eexists; left; apply R.
  - eexists; right.
    change (exec (stop;; s <- this;; reject (results s)) w)
      with (exec (reject (results (self (exec stop w)))) (exec stop w)).
    apply J.
  - destruct e; [exists (future w); left; world w; reflexivity|].
    eexists; left; apply R.
  - eexists; right.
    change (exec (s <- this;; resolve (results s);; stop) w)
      with (exec stop (exec (resolve (results (self w))) w)).
    rewrite R, stop_set_future. reflexivity.
  - eexists; left.
    change (exec (s <- this;; reject (results s)) w)
      with (exec (reject (results (self w))) w).
    apply J.
Qed.

Lemma forEach_cons {A : Type} (x : A) (l : list A) (f : A -> M unit) (w : World) :
  exec (forEach (x :: l) f) w = exec (forEach l f) (exec (f x) w).
Proof. reflexivity. Qed.

Lemma listeners_cases (ls : list Listener) (e : Emission) (w : World) :
  exists f, exec (forEach ls (fun l => listener l e)) w = set_future f w
         \/ exec (forEach ls (fun l => listener l e)) w = set_future f (exec stop w).
Proof.
  revert w. induction ls as [|l ls IH]; intros w.
  - exists (future w). left. world w. reflexivity.
  - rewrite forEach_cons.
    destruct (listener_cases l e w) as [f [E|E]]; rewrite E;
      destruct (IH (set_future f w)) as [g [G|G]];
      destruct (IH (set_future f (exec stop w))) as [g' [G'|G']];
      try rewrite G; try rewrite G'.
    all: try rewrite !stop_set_future; try rewrite !stop_stop;
         try rewrite !set_future_twice; eauto.
Qed.

(** [emit] logs the notification; after that the world differs from the
    logged one by the future, and by a [stop] if a listener called it. *)
Lemma emit_cases (ev : SequenceEvent) (e : Emission) (w : World) :
  let logged := set_emitted (emitted w ++ [e]) w in
  exists f, exec (emit ev e) w = set_future f logged
         \/ exec (emit ev e) w = set_future f (exec stop logged).
Proof.
  intros logged.
  change (exec (emit ev e) w)
    with (exec (forEach (filter (fun l => SequenceEvent_eqb (listens l) ev)
                                (events (self logged)))
                        (fun l => listener l e)) logged).
  apply listeners_cases.
Qed.

(** ** [stop] and [clear] *)

Lemma nth_snoc {A : Type} (l : list A) (x d : A) : nth (length l) (l ++ [x]) d = x.
Proof. induction l; simpl; auto. Qed.

Lemma find_cancel (id : nat) (ts : list Timer) :
  find (fun t => Nat.eqb (tid t) id) (cancel (Some id) ts) = None.
Proof.
  induction ts as [|t ts IH]; simpl; [reflexivity|].
  destruct (Nat.eqb (tid t) id) eqn:E; simpl; [exact IH|].
  rewrite E. exact IH.
Qed.

(** [clear] in closed form: a fresh array, a fresh resolved promise, and the
    six fields of [createConfig] rewritten. *)
Lemma clear_eq (w : World) :
  exec clear w =
  set_self (set_promise (length (chains w)) (set_busy false (set_steps []
             (set_index 0%Z (set_results (length (arrays w)) (self w))))))
    (set_chains (chains w ++ [ChFulfilled None]) (set_arrays (arrays w ++ [[]]) w)).
Proof. world w. reflexivity. Qed.

(** [stop()] cancels the pending resume timer, clears [running] and
    [suspended], and leaves history, cursor, steps and [busy] as they
    were. *)
Lemma stop_cancels_resume_timer (w : World) :
  running (self (exec stop w)) = false
  /\ suspended (self (exec stop w)) = false
  /\ suspendTimeout (self (exec stop w)) = None
  /\ timers (exec stop w) = cancel (suspendTimeout (self w)) (timers w)
  /\ (forall id, suspendTimeout (self w) = Some id ->
        find (fun t => Nat.eqb (tid t) id) (timers (exec stop w)) = None)
  /\ history (exec stop w) = history w
  /\ cursor (exec stop w) = cursor w
  /\ steps (self (exec stop w)) = steps (self w)
  /\ busy (self (exec stop w)) = busy (self w).
Proof.
  rewrite stop_eq. unfold history, cursor, read. simpl.
  repeat split; try reflexivity.
  intros id E. rewrite E. apply find_cancel.
Qed.

(** [clear()] as it is written assigns the fields that [createConfig]
    lists and nothing else: the timer table, the handle of the resume timer
    and the flags [suspended] and [running] are not among them. *)
Lemma clear_assigns_config_only (w : World) :
  timers (exec clear w) = timers w
  /\ suspendTimeout (self (exec clear w)) = suspendTimeout (self w)
  /\ suspended (self (exec clear w)) = suspended (self w)
  /\ running (self (exec clear w)) = running (self w)
  /\ steps (self (exec clear w)) = []
  /\ history (exec clear w) = []
  /\ cursor (exec clear w) = 0%Z
  /\ busy (self (exec clear w)) = false.
Proof.
  rewrite clear_eq. unfold history, cursor, read. simpl.
  repeat split; try reflexivity.
  apply nth_snoc.
Qed.

(** C8: the code misses the [clear] half of the claim.  The input is a
    finished sequence of one step that is still running, after
    [suspend(50)]: a resume timer is pending and the instance holds its
    handle.  [stop()] on it cancels the timer, forgets the handle and clears
    both flags, with history and cursor as they were, and nothing is left to
    run.  [clear()] on the same input, documented as resetting all state,
    leaves the timer pending, the handle held and the sequence suspended and
    running; the resume is not inert: when the timer fires it ends the
    suspension and calls [next], which schedules an [end] notification. *)
Theorem C8_clear_leaves_resume_timer :
  let w := exec (suspend (Some 50)) exhausted in
  (timers w = [MkTimer 2 50 CbResume]
   /\ suspendTimeout (self w) = Some 2
   /\ suspended (self w) = true
   /\ running (self w) = true)
  /\
  (timers (exec stop w) = []
   /\ suspendTimeout (self (exec stop w)) = None
   /\ suspended (self (exec stop w)) = false
   /\ running (self (exec stop w)) = false
   /\ history (exec stop w) = history w
   /\ cursor (exec stop w) = cursor w
   /\ idle (exec stop w))
  /\
  (timers (exec clear w) = [MkTimer 2 50 CbResume]
   /\ suspendTimeout (self (exec clear w)) = Some 2
   /\ suspended (self (exec clear w)) = true
   /\ running (self (exec clear w)) = true
   /\ suspended (self (drain 1 (exec clear w))) = false
   /\ emitted (drain 2 (exec clear w)) = emitted (exec clear w) ++ [EmEnd 2 []]).
Proof. vm_compute. repeat split; reflexivity. Qed.

(** ** A step that settles after [stop] *)

(** [settled] in three moves: push the record, emit, queue the final
    callback. *)
Lemma settled_eq (c : nat) (st : Settlement) (w : World) :
  exec (settled c st) w =
  exec (enqueue (JAdvance c (record st w)))
    (exec (emit (eventOf st) (EmStep (eventOf st) (record st w) (cursor w)))
       (exec (push (results (self w)) (record st w)) w)).
Proof. destruct st; reflexivity. Qed.

Lemma read_update (a : nat) (r : SequenceResult.t) (arrs : list (list SequenceResult.t)) :
  a < length arrs ->
  nth a (update a (fun l => l ++ [r]) arrs) [] = nth a arrs [] ++ [r].
Proof.
  revert a. induction arrs as [|x arrs IH]; intros [|a] H; simpl in *; try lia.
  - reflexivity.
  - apply IH. lia.
Qed.

(** What a step's settlement does to any world whose history array exists:
    the record is appended, the notification is logged, the final callback is
    queued; nothing looks at [running]. *)
Lemma settled_records (c : nat) (st : Settlement) (w : World) :
  results (self w) < length (arrays w) ->
  let w' := exec (settled c st) w in
  history w' = history w ++ [record st w]
  /\ emitted w' = emitted w ++ [EmStep (eventOf st) (record st w) (cursor w)]
  /\ microtasks w' = microtasks w ++ [JAdvance c (record st w)]
  /\ cursor w' = cursor w
  /\ busy (self w') = busy (self w)
  /\ steps (self w') = steps (self w)
  /\ calls w' = calls w
  /\ chains w' = chains w
  /\ (running (self w) = false -> running (self w') = false).
Proof.
  intros Hreg w'. subst w'. rewrite settled_eq.
  set (r := record st w).
  set (e := EmStep (eventOf st) r (cursor w)).
  set (w1 := exec (push (results (self w)) r) w).
  assert (H1 : history w1 = history w ++ [r]).
  { subst w1. unfold history, read. world w. apply read_update. exact Hreg. }
  assert (K : emitted w1 = emitted w /\ microtasks w1 = microtasks w
              /\ cursor w1 = cursor w /\ busy (self w1) = busy (self w)
              /\ steps (self w1) = steps (self w) /\ calls w1 = calls w
              /\ chains w1 = chains w /\ running (self w1) = running (self w)).
  { subst w1. world w. repeat split; reflexivity. }
  destruct K as (K1 & K2 & K3 & K4 & K5 & K6 & K7 & K8).
  rewrite <- H1, <- K1, <- K2, <- K3, <- K4, <- K5, <- K6, <- K7, <- K8.
  clearbody w1 e r. clear.
  destruct (emit_cases (eventOf st) e w1) as [f [E|E]]; cbv zeta in E; rewrite E;
    rewrite ?stop_eq; unfold history, cursor, read; world w1;
    repeat split; auto.
Qed.

Lemma advance_eq (c : nat) (r : SequenceResult.t) (w : World) :
  exec (advance c r) w =
  exec (fulfil c (Some r))
    (match stepAt (steps (self w)) (cursor w + 1) with
     | None => exec emitEnd (bumped w)
     | Some _ => exec (setTimeout CbNext (interval (self w))) (bumped w)
     end).
Proof.
  world w. unfold cursor, advance, exec, bind, assign, modify, this.
  cbn [fst snd self index steps set_self set_index set_busy].
  destruct (stepAt steps0 (index0 + 1)); reflexivity.
Qed.

Lemma emitEnd_eq (w : World) :
  exec emitEnd w = exec (emit EvEnd (EmEnd (results (self w)) (history w))) w.
Proof. reflexivity. Qed.

(** [fulfil] touches the promise table and the job queue only. *)
Lemma fulfil_frame (c : nat) (v : option SequenceResult.t) (w : World) :
  exists ch mt, exec (fulfil c v) w = set_microtasks mt (set_chains ch w).
Proof.
  unfold exec, fulfil.
  destruct (nth_error (chains w) c) as [[ws| |]|]; simpl; eauto;
    exists (chains w), (microtasks w); world w; reflexivity.
Qed.

Lemma nth_error_update {A : Type} (n : nat) (f : A -> A) (l : list A) (x : A) :
  nth_error l n = Some x -> nth_error (update n f l) n = Some (f x).
Proof.
  revert n. induction l as [|y l IH]; intros [|n] H; simpl in *; try discriminate.
  - congruence.
  - auto.
Qed.

(** A pending chain is fulfilled with the record, and its waiters are queued. *)
Lemma fulfil_pending (c : nat) (v : option SequenceResult.t) (ws : list Job) (w : World) :
  nth_error (chains w) c = Some (ChPending ws) ->
  exec (fulfil c v) w =
  set_microtasks (microtasks w ++ ws)
    (set_chains (update c (fun _ => ChFulfilled v) (chains w)) w).
Proof. intros H. unfold exec, fulfil. rewrite H. reflexivity. Qed.

(** The final callback moves the cursor by one and clears [busy]; it appends
    no record, calls no step and cannot set [running]. *)
Lemma advance_frame (c : nat) (r : SequenceResult.t) (w : World) :
  let w' := exec (advance c r) w in
  cursor w' = (cursor w + 1)%Z
  /\ busy (self w') = false
  /\ history w' = history w
  /\ arrays w' = arrays w
  /\ results (self w') = results (self w)
  /\ calls w' = calls w
  /\ steps (self w') = steps (self w)
  /\ interval (self w') = interval (self w)
  /\ (running (self w) = false -> running (self w') = false).
Proof.
  intros w'. subst w'. rewrite advance_eq.
  destruct (stepAt (steps (self w)) (cursor w + 1)).
  - destruct (fulfil_frame c (Some r)
               (exec (setTimeout CbNext (interval (self w))) (bumped w)))
      as (ch & mt & E).
    rewrite E. unfold history, cursor, read. world w. repeat split; auto.
  - rewrite emitEnd_eq.
    destruct (emit_cases EvEnd (EmEnd (results (self (bumped w))) (history (bumped w)))
                (bumped w)) as [f [E|E]]; cbv zeta in E; rewrite E;
      match goal with |- context [exec (fulfil c (Some r)) ?W] =>
        destruct (fulfil_frame c (Some r) W) as (ch & mt & F); rewrite F end;
      rewrite ?stop_eq; unfold history, cursor, read; world w; repeat split; auto.
Qed.

(** When a further step is queued the final callback sets the interval timer
    and emits nothing. *)
Lemma advance_schedules (c : nat) (r : SequenceResult.t) (w : World) (s : SequenceStep) :
  stepAt (steps (self w)) (cursor w + 1) = Some s ->
  timers (exec (advance c r) w) =
    timers w ++ [MkTimer (nextTimer w) (dueAt (now w) (interval (self w))) CbNext]
  /\ emitted (exec (advance c r) w) = emitted w
  /\ running (self (exec (advance c r) w)) = running (self w)
  /\ suspended (self (exec (advance c r) w)) = suspended (self w).
Proof.
  intros H. rewrite advance_eq, H.
  destruct (fulfil_frame c (Some r)
             (exec (setTimeout CbNext (interval (self w))) (bumped w)))
    as (ch & mt & E).
  rewrite E. world w. repeat split; reflexivity.
Qed.

(** The interval timer's callback on a sequence that is not running. *)
Lemma next_timer_inert (w : World) :
  running (self w) = false -> exec (callback CbNext) w = w.
Proof.
  intros H. unfold exec, callback, bind, this. cbn. rewrite H. reflexivity.
Qed.

(** C6 (as stated) fails: the step was in flight when [stop()] was called,
    yet once its operation settles the record is in the history and the
    [success] notification has been emitted. *)
Lemma C6_result_not_discarded_counterexample :
  busy (self stoppedInFlight) = true
  /\ running (self stoppedInFlight) = false
  /\ history stoppedInFlight = []
  /\ emitted stoppedInFlight = []
  /\ history (drain 3 stoppedInFlight) =
       [SequenceResult.mk SUCCEEDED 0 (Some (VStr "step1")) None 20]
  /\ emitted (drain 2 stoppedInFlight) =
       [EmStep EvSuccess (SequenceResult.mk SUCCEEDED 0 (Some (VStr "step1")) None 20) 0].
Proof. vm_compute. repeat split; reflexivity. Qed.

(** C6 (amended): [stop()] clears [running] and leaves the step in flight
    alone ([busy], the job queue and the history are as before).  When the
    step's operation settles on the stopped sequence, the engine still
    records it: the record is appended to the history, the per-step
    notification is emitted, and the final callback moves the cursor on and
    clears [busy].  What [stop()] prevents is further advancement only: the
    sequence stays not running, no step is called, and the interval timer set
    by the final callback does nothing when it fires. *)
Theorem C6_settles_after_stop_is_recorded (v : World) (c : nat) (st : Settlement) :
  results (self v) < length (arrays v) ->
  running (self v) = false ->
  let v2 := exec (settled c st) v in
  let v3 := exec (advance c (record st v)) v2 in
  (forall w, running (self (exec stop w)) = false
             /\ busy (self (exec stop w)) = busy (self w)
             /\ microtasks (exec stop w) = microtasks w
             /\ history (exec stop w) = history w)
  /\ history v2 = history v ++ [record st v]
  /\ emitted v2 = emitted v ++ [EmStep (eventOf st) (record st v) (cursor v)]
  /\ microtasks v2 = microtasks v ++ [JAdvance c (record st v)]
  /\ history v3 = history v ++ [record st v]
  /\ cursor v3 = (cursor v + 1)%Z
  /\ busy (self v3) = false
  /\ running (self v3) = false
  /\ calls v3 = calls v
  /\ exec (callback CbNext) v3 = v3.
Proof.
  intros Hreg Run v2 v3.
  destruct (settled_records c st v Hreg)
    as (H2 & E2 & M2 & C2 & _ & _ & K2 & _ & Run2).
  fold v2 in H2, E2, M2, C2, K2, Run2.
  destruct (advance_frame c (record st v) v2)
    as (C3 & B3 & H3 & _ & _ & K3 & _ & _ & Run3).
  fold v3 in C3, B3, H3, K3, Run3.
  specialize (Run2 Run). specialize (Run3 Run2).
  split.
  { intros w. rewrite stop_eq. unfold history, read. world w.
    repeat apply conj; reflexivity. }
  repeat apply conj; try congruence.
  apply next_timer_inert. exact Run3.
Qed.

Lemma C6_settles_after_stop_is_recorded_witness :
  results (self stoppedInFlight) < length (arrays stoppedInFlight)
  /\ running (self stoppedInFlight) = false
  /\ history (exec (settled 2 (Fulfils (VStr "step1"))) stoppedInFlight) =
       history stoppedInFlight ++ [record (Fulfils (VStr "step1")) stoppedInFlight].
Proof.
  assert (H : results (self stoppedInFlight) < length (arrays stoppedInFlight))
    by (vm_compute; lia).
  assert (R : running (self stoppedInFlight) = false) by reflexivity.
  split; [exact H|]. split; [exact R|].
  exact (proj1 (proj2
    (C6_settles_after_stop_is_recorded stoppedInFlight 2 (Fulfils (VStr "step1")) H R))).
Defined.

(** ** Calling a step *)

Lemma invoke_eq (c : nat) (w : World) (s : SequenceStep) :
  stepAt (steps (self w)) (cursor w) = Some s ->
  let o := s (lastOf (history w)) (cursor w) (history w) in
  exec (invoke c) w =
  exec (deliver c (settlement o) (latency o)) (set_calls (calls w ++ [cursor w]) w).
Proof.
  intros H o. subst o. unfold history, cursor in *. world w.
  unfold invoke, exec, bind, this.
  cbn [fst snd self index steps results]. rewrite H.
  unfold read. cbn [arrays set_calls].
  destruct (s _ _ _) as [v|e|[|d] st]; reflexivity.
Qed.

Lemma stepAt_nonempty (l : list SequenceStep) (i : Z) (s : SequenceStep) :
  stepAt l i = Some s -> Nat.eqb (length l) 0 = false.
Proof.
  unfold stepAt. destruct (i <? 0)%Z; [discriminate|].
  destruct l; [destruct (Z.to_nat i); discriminate | reflexivity].
Qed.

(** [next] on a sequence that may advance: [busy] is set, a new promise is
    chained and the callback that calls the step is queued. *)
Lemma next_starts (inner : bool) (w : World) (s : SequenceStep)
  (p : option SequenceResult.t) :
  negb inner && running (self w) = false ->
  busy (self w) = false ->
  suspended (self w) = false ->
  stepAt (steps (self w)) (cursor w) = Some s ->
  nth_error (chains w) (promise (self w)) = Some (ChFulfilled p) ->
  next inner w =
  (NPromise (length (chains w)),
   set_self (set_promise (length (chains w)) (set_busy true (self w)))
     (set_microtasks (microtasks w ++ [JInvoke (length (chains w))])
        (set_chains (chains w ++ [ChPending []]) w))).
Proof.
  intros Hin Hb Hs Hst Hch. pose proof (stepAt_nonempty _ _ _ Hst) as Hne.
  unfold cursor in *. world w. subst.
  unfold next, bind, this, assign, modify, thenInvoke, ret.
  cbn [fst snd self running busy suspended steps index promise chains
       set_self set_busy set_promise orb].
  rewrite Hin, Hne, Hst. cbn [fst snd self chains set_self set_busy promise].
  rewrite Hch. reflexivity.
Qed.

(** The interval timer's callback on a running sequence that can advance. *)
Lemma next_timer_starts (w : World) (s : SequenceStep) (p : option SequenceResult.t) :
  running (self w) = true ->
  busy (self w) = false ->
  suspended (self w) = false ->
  stepAt (steps (self w)) (cursor w) = Some s ->
  nth_error (chains w) (promise (self w)) = Some (ChFulfilled p) ->
  exec (callback CbNext) w =
  set_self (set_promise (length (chains w)) (set_busy true (self w)))
    (set_microtasks (microtasks w ++ [JInvoke (length (chains w))])
       (set_chains (chains w ++ [ChPending []]) w)).
Proof.
  intros Hr Hb Hs Hst Hch.
  unfold exec, callback, bind, this. cbn [fst snd]. rewrite Hr.
  cbn [fst snd].
  rewrite (@next_starts true w s p); auto.
Qed.

(** ** Running the loop *)

Lemma drain_S (n : nat) (w : World) :
  drain (S n) w = match turn w with Some w' => drain n w' | None => w end.
Proof. reflexivity. Qed.

Lemma drain_idle (n : nat) (w : World) : idle w -> drain n w = w.
Proof. intros H. destruct n; simpl; [reflexivity|]. rewrite H. reflexivity. Qed.

Lemma drain_add (n m : nat) (w : World) : drain (n + m) w = drain m (drain n w).
Proof.
  revert w. induction n as [|n IH]; intros w; simpl; [reflexivity|].
  destruct (turn w) as [w'|] eqn:E; [apply IH|].
  symmetry. apply drain_idle. exact E.
Qed.

(** Once the loop is idle more fuel changes nothing. *)
Lemma drain_enough (n m : nat) (w : World) :
  idle (drain n w) -> n <= m -> drain m w = drain n w.
Proof.
  intros H L. replace m with (n + (m - n)) by lia.
  rewrite drain_add. apply drain_idle. exact H.
Qed.

(** Symbolic execution of the loop: one turn at a time, with a case analysis
    on what the step does whenever one is called. *)
Ltac one_turn :=
  match goal with
  | |- context [drain (S _) ?W] =>
      lazymatch W with
      | MkWorld _ _ _ _ _ _ _ _ _ _ _ _ _ _ _ => idtac
      end
  end;
  rewrite drain_S;
  match goal with
  | |- context [turn ?W] =>
      let W' := eval cbv -[dueAt Nat.max] in (turn W) in change (turn W) with W'
  end;
  cbv iota beta.

Ltac call s H :=
  match goal with
  | |- context [s ?p ?i ?hs] =>
      let v := fresh "v" in
      let E := fresh "E" in
      let d := fresh "d" in
      destruct (H p i hs) as [v E];
      destruct (s p i hs) as [?|?|d ?]; simpl in E; try discriminate E;
      [ injection E as E; subst | subst; destruct d ];
      cbv iota beta
  end.

(** ** [Sequence.all] *)

Lemma all_three_run (h : Host) (itv : option nat) (s1 s2 s3 : SequenceStep) :
  succeeds s1 -> fails s2 ->
  let w := drain 11 (all h [s1; s2; s3] itv None) in
  idle w
  /\ (exists r1 r2, outcome w = RejectedWith [r1; r2]
        /\ SequenceResult.status r1 = SUCCEEDED
        /\ SequenceResult.status r2 = FAILED)
  /\ calls w = [0%Z; 1%Z].
Proof.
  intros H1 H2. unfold all, combinatorOptions.
  match goal with
  | |- context [drain _ ?W] =>
      let W' := eval cbv -[dueAt Nat.max] in W in change W with W'
  end.
  cbv zeta.
  do 2 one_turn. call s1 H1.
  all: repeat one_turn; call s2 H2.
  all: repeat one_turn.
  all: cbv [drain].
  all: split; [reflexivity|split; [|reflexivity]].
  all: do 2 eexists; split; [reflexivity|split; reflexivity].
Qed.

(** C3: [all([s1, s2, s3])] where [s1] succeeds and [s2] rejects (or throws):
    once the loop has run (eleven turns or more) the returned promise is
    rejected with the history, which has exactly two entries, the second
    [FAILED]; the only steps ever called are those at indices 0 and 1, so
    [s3] is never executed.  [all([])] is resolved with an empty history
    at once, before any turn of the loop. *)
Theorem C3_all_rejects_on_first_failure (h : Host) (itv : option nat)
  (s1 s2 s3 : SequenceStep) (fuel : nat) :
  succeeds s1 -> fails s2 -> 11 <= fuel ->
  let w := drain fuel (all h [s1; s2; s3] itv None) in
  idle w
  /\ (exists r1 r2, outcome w = RejectedWith [r1; r2]
        /\ SequenceResult.status r1 = SUCCEEDED
        /\ SequenceResult.status r2 = FAILED)
  /\ calls w = [0%Z; 1%Z]
  /\ ~ In 2%Z (calls w)
  /\ outcome (all h [] itv None) = ResolvedWith [].
Proof.
  intros H1 H2 L w.
  pose proof (all_three_run h itv s1 s2 s3 H1 H2) as R. cbv zeta in R.
  destruct R as (I & O & C).
  assert (E : w = drain 11 (all h [s1; s2; s3] itv None)).
  { subst w. apply drain_enough; assumption. }
  rewrite E. repeat split; try assumption.
  - rewrite C. simpl. intros [F|[F|[]]]; discriminate.
Qed.

Lemma C3_all_rejects_on_first_failure_witness :
  succeeds (resolveWith (VStr "a")) /\ fails (rejectWith (VStr "error"))
  /\ 11 <= 11
  /\ calls (drain 11 (all HostNextTick
              [resolveWith (VStr "a"); rejectWith (VStr "error"); resolveWith (VStr "c")]
              None None)) = [0%Z; 1%Z].
Proof.
  assert (S1 : succeeds (resolveWith (VStr "a"))) by (intros p i hs; eexists; reflexivity).
  assert (F2 : fails (rejectWith (VStr "error"))) by (intros p i hs; eexists; reflexivity).
  assert (L : 11 <= 11) by lia.
  split; [exact S1|]. split; [exact F2|]. split; [exact L|].
  exact (proj1 (proj2 (proj2
    (C3_all_rejects_on_first_failure HostNextTick None _ _ (resolveWith (VStr "c")) 11 S1 F2 L)))).
Defined.

(** ** A failing step *)

(** The final callback fulfils the promise that [next] returned. *)
Lemma advance_fulfils (c : nat) (r : SequenceResult.t) (ws : list Job) (w : World) :
  nth_error (chains w) c = Some (ChPending ws) ->
  nth_error (chains (exec (advance c r) w)) c = Some (ChFulfilled (Some r)).
Proof.
  intros H. rewrite advance_eq.
  match goal with
  | |- context [exec (fulfil c (Some r)) ?W] =>
      assert (K : chains W = chains w); [|set (W' := W) in *]
  end.
  { destruct (stepAt (steps (self w)) (cursor w + 1)).
    - world w. reflexivity.
    - rewrite emitEnd_eq.
      destruct (emit_cases EvEnd (EmEnd (results (self (bumped w))) (history (bumped w)))
                  (bumped w)) as [f [E|E]]; cbv zeta in E; rewrite E;
        rewrite ?stop_eq; world w; reflexivity. }
  rewrite <- K in H. rewrite (fulfil_pending _ _ _ _ H).
  simpl.
  exact (nth_error_update c (fun _ => ChFulfilled (Some r)) _ _ H).
Qed.

(** The run to the end of a sequence whose first step throws: the failure is
    in the history, the second step has run, and the promise returned by
    [next] for the failing step is fulfilled with its record. *)
Example failing_step_run :
  let w := drain 10 aboutToThrow in
  history w =
    [SequenceResult.mk FAILED 0 None (Some (VStr "error")) 0;
     SequenceResult.mk SUCCEEDED 1 (Some (VNum 2)) None 0]
  /\ calls w = [0%Z; 1%Z]
  /\ unhandled w = []
  /\ nth_error (chains w) 2 =
       Some (ChFulfilled (Some (SequenceResult.mk FAILED 0 None (Some (VStr "error")) 0))).
Proof. vm_compute. repeat split; reflexivity. Qed.

(** ** [append] *)

Lemma stepAt_of_nat (l : list SequenceStep) (i : nat) :
  stepAt l (Z.of_nat i) = nth_error l i.
Proof.
  unfold stepAt. destruct (Z.of_nat i <? 0)%Z eqn:E.
  - apply Z.ltb_lt in E. lia.
  - rewrite Nat2Z.id. reflexivity.
Qed.

Lemma stepAt_tail (l new : list SequenceStep) (f : SequenceStep) :
  stepAt (l ++ f :: new) (Z.of_nat (length l)) = Some f.
Proof.
  rewrite stepAt_of_nat. rewrite nth_error_app2 by lia.
  rewrite Nat.sub_diag. reflexivity.
Qed.

(** [append] in two moves: push, then wake the engine if it was running
    with the cursor at or past the end. *)
Lemma append_eq (arg : StepsArg) (w : World) :
  exec (append arg) w =
  let pushed := set_self (set_steps (steps (self w) ++ stepsOf arg) (self w)) w in
  if running (self w) && (Z.of_nat (length (steps (self w))) <=? cursor w)%Z
  then exec (r <- next true ;; discard r) pushed
  else pushed.
Proof.
  unfold cursor. world w.
  destruct arg; unfold exec, append, bind, this, assign, modify;
    cbn [fst snd self steps running index stepsOf set_self set_steps];
    destruct (running0 && _); reflexivity.
Qed.

(** C10: on a sequence that is running (not suspended, no step in flight,
    so that its promise chain is settled) whose cursor has reached the end
    of the queue, [append] puts the new steps at the tail in submission
    order and wakes the engine at once, with no [run()]: [busy] is set, the
    callback that calls a step is queued, and when it runs it calls the
    first appended step, at the index the cursor stopped at. *)
Theorem C10_append_wakes_exhausted_sequence (w : World) (f : SequenceStep)
  (more : list SequenceStep) (p : option SequenceResult.t) :
  running (self w) = true ->
  busy (self w) = false ->
  suspended (self w) = false ->
  cursor w = Z.of_nat (length (steps (self w))) ->
  nth_error (chains w) (promise (self w)) = Some (ChFulfilled p) ->
  let w' := exec (append (Many (f :: more))) w in
  let c := length (chains w) in
  let o := f (lastOf (history w)) (cursor w) (history w) in
  steps (self w') = steps (self w) ++ f :: more
  /\ cursor w' = cursor w
  /\ running (self w') = true
  /\ busy (self w') = true
  /\ microtasks w' = microtasks w ++ [JInvoke c]
  /\ unhandled w' = unhandled w
  /\ stepAt (steps (self w')) (cursor w') = Some f
  /\ exec (invoke c) w' =
       exec (deliver c (settlement o) (latency o)) (set_calls (calls w ++ [cursor w]) w')
  /\ exec (append (One f)) w = exec (append (Many [f])) w.
Proof.
  intros Hr Hb Hs Hc Hch w' c o.
  set (pushed := set_self (set_steps (steps (self w) ++ f :: more) (self w)) w).
  assert (Hst : stepAt (steps (self pushed)) (cursor pushed) = Some f).
  { subst pushed. unfold cursor in *. world w. rewrite Hc. apply stepAt_tail. }
  assert (E : w' =
    set_self (set_promise (length (chains pushed)) (set_busy true (self pushed)))
      (set_microtasks (microtasks pushed ++ [JInvoke (length (chains pushed))])
         (set_chains (chains pushed ++ [ChPending []]) pushed))).
  { subst w'. rewrite append_eq. cbv zeta. rewrite Hr, Hc, Z.leb_refl.
    cbn [stepsOf andb]. fold pushed. unfold exec, bind. cbv beta zeta.
    rewrite (next_starts true pushed f p); try reflexivity; assumption. }
  assert (Hst' : stepAt (steps (self w')) (cursor w') = Some f).
  { rewrite E. subst pushed. unfold cursor in *. world w. assumption. }
  repeat apply conj.
  - rewrite E. subst pushed. world w. reflexivity.
  - rewrite E. subst pushed. unfold cursor. world w. reflexivity.
  - rewrite E. subst pushed. world w. assumption.
  - rewrite E. reflexivity.
  - rewrite E. subst pushed c. world w. reflexivity.
  - rewrite E. subst pushed. world w. reflexivity.
  - exact Hst'.
  - rewrite (invoke_eq c w' f Hst'). cbv zeta. subst o.
    replace (history w') with (history w)
      by (rewrite E; subst pushed; unfold history, read; world w; reflexivity).
    replace (cursor w') with (cursor w)
      by (rewrite E; subst pushed; unfold cursor; world w; reflexivity).
    replace (calls w') with (calls w)
      by (rewrite E; subst pushed; world w; reflexivity).
    reflexivity.
  - rewrite !append_eq. reflexivity.
Qed.

Lemma C10_append_wakes_exhausted_sequence_witness :
  running (self exhausted) = true
  /\ busy (self exhausted) = false
  /\ suspended (self exhausted) = false
  /\ cursor exhausted = Z.of_nat (length (steps (self exhausted)))
  /\ busy (self (exec (append (Many [resolveWith (VNum 2)])) exhausted)) = true.
Proof.
  split; [reflexivity|]. split; [reflexivity|]. split; [reflexivity|].
  split; [reflexivity|].
  exact (proj1 (proj2 (proj2 (proj2
    (C10_append_wakes_exhausted_sequence exhausted (resolveWith (VNum 2)) []
       (Some (SequenceResult.mk SUCCEEDED 0 (Some (VNum 1)) None 0))
       eq_refl eq_refl eq_refl eq_refl eq_refl))))).
Defined.

(** The appended step runs to its end without any further call. *)
Example appended_step_runs :
  let w := drain 5 (exec (append (One (resolveWith (VNum 2)))) exhausted) in
  idle w /\ calls w = [0%Z; 1%Z] /\ length (history w) = 2.
Proof. vm_compute. repeat split; reflexivity. Qed.

(** ** The empty sequence *)

(** The constructor never reads the key [muteEndIfEmpty] of its options:
    the field of the same name is set from [emitEndIfEmpty]. *)
Lemma constructor_ignores_mute_option (h : Host) (l : list SequenceStep)
  (e : option bool) (i : option nat) (a m : option bool) :
  new h l (SequenceOptions.mk e i a m) = new h l (SequenceOptions.mk e i a None).
Proof. reflexivity. Qed.

(** X1: after construction the field [muteEndIfEmpty] of the instance is
    the truthiness of the option [emitEndIfEmpty], for every step list, host
    and value of the option [muteEndIfEmpty]. *)
Lemma mute_field_from_emit_option (h : Host) (l : list SequenceStep)
  (o : SequenceOptions.t) :
  muteEndIfEmpty (self (new h l o)) = truthy (SequenceOptions.emitEndIfEmpty o).
Proof.
  destruct o as [[[|]|] i a m], l as [|s l], a as [[|]|], h; reflexivity.
Qed.

(** With the option written as the combinators and the repository's test
    write it, [{ muteEndIfEmpty: true }], an empty sequence still emits
    [end]. *)
Example mute_option_still_emits :
  emitted (drain 3 (new HostNextTick [] (SequenceOptions.mk None None None (Some true))))
  = [EmEnd 1 []; EmEnd 1 []].
Proof. reflexivity. Qed.

(** C5 (as stated) fails: with default options the empty sequence emits
    [end] twice, once scheduled by the constructor and once by the automatic
    [run()], whose [next] finds the queue empty. *)
Lemma C5_two_end_events_counterexample :
  let w := drain 3 (new HostNextTick [] SequenceOptions.default) in
  idle w
  /\ emitted w = [EmEnd 1 []; EmEnd 1 []]
  /\ length (emitted w) = 2.
Proof. vm_compute. repeat split; reflexivity. Qed.

(** C5 (amended): a sequence constructed with an empty step list has emitted
    nothing when the constructor returns.  While its mute flag is off, every
    [end] it emits comes from the loop and carries the empty history: one
    scheduled by the constructor and, with the automatic start left on (the
    default), a second one scheduled by the deferred [run()]; with
    [autoRun: false] exactly one.  While its mute flag is on it emits none. *)
Theorem C5_empty_sequence_end_events (h : Host) (o : SequenceOptions.t) :
  let w0 := new h [] o in
  let w := drain 3 w0 in
  emitted w0 = []
  /\ idle w
  /\ history w = []
  /\ emitted w =
       (if muteEndIfEmpty (self w0) then []
        else match SequenceOptions.autoRun o with
             | Some false => [EmEnd 1 []]
             | _ => [EmEnd 1 []; EmEnd 1 []]
             end).
Proof.
  destruct o as [[[|]|] i [[|]|] m], h; vm_compute; repeat split; reflexivity.
Qed.

(** ** [Sequence.any] *)

Ltac fields :=
  cbv [anyWorld
       self host arrays chains ticks microtasks immediates timers nextTimer now
       console unhandled emitted calls future
       running suspended suspendTimeout muteEndIfEmpty interval index steps
       results busy promise events
       set_self set_host set_arrays set_chains set_ticks set_microtasks
       set_immediates set_timers set_nextTimer set_now set_console
       set_unhandled set_emitted set_calls set_future
       set_running set_suspended set_suspendTimeout set_muteEndIfEmpty
       set_interval set_index set_steps set_results set_busy set_promise
       set_events
       tid due tcb
       cursor history read nth fst snd bumped].

(** Run the straight-line part of a callback on an explicit world. *)
Ltac machine :=
  cbv [exec bind ret modify this assign skip forEach
       enqueue setTimeout clearTimeout nextTick setImmediate warn date discard
       resolve reject push newArray promiseResolve
       stop listener on emit emitEnd listens SequenceEvent_eqb filter
       fire callback job deliver settled record eventOf
       negb andb orb];
  fields; cbn [app].

(** After the automatic start has fired the first call is queued. *)
Lemma any_starts (h : Host) (s : SequenceStep) (l : list SequenceStep)
  (itv : option nat) (k : nat) :
  drain (S k) (any h (s :: l) itv None) =
  drain k (anyWorld h (s :: l) (intervalOf itv) true true 0 []
             [ChFulfilled None; ChFulfilled None; ChPending []] 2 [JInvoke 2] []
             2 (Nat.max 0 (dueAt 0 0)) [] [] FPending).
Proof. reflexivity. Qed.

Lemma turn_job (j : Job) (w : World) :
  ticks w = [] -> microtasks w = [j] ->
  turn w = Some (exec (job j) (set_microtasks [] w)).
Proof. intros T Mt. unfold turn. rewrite T, Mt. reflexivity. Qed.

Lemma turn_timer (t : Timer) (w : World) :
  ticks w = [] -> microtasks w = [] -> immediates w = [] -> timers w = [t] ->
  turn w = Some (exec (fire t) w).
Proof. intros T Mt I Tm. unfold turn. rewrite T, Mt, I, Tm. reflexivity. Qed.

(** The call of step [i]: one turn, or two when the awaitable settles
    later; then the reaction to its settlement is the only job. *)
Lemma any_call (h : Host) (l : list SequenceStep) (itv : nat) (i : nat)
  (hist : list SequenceResult.t) (chs : list ChainState) (nt t : nat)
  (em : list Emission) (cl : list Z) (s : SequenceStep) :
  nth_error l i = Some s ->
  exists n nt' t', forall k,
    drain (n + k)
      (anyWorld h l itv true true (Z.of_nat i) hist (chs ++ [ChPending []])
         (length chs) [JInvoke (length chs)] [] nt t em cl FPending) =
    drain k
      (anyWorld h l itv true true (Z.of_nat i) hist (chs ++ [ChPending []])
         (length chs)
         [JSettled (length chs) (settlement (s (lastOf hist) (Z.of_nat i) hist))] []
         nt' t' em (cl ++ [Z.of_nat i]) FPending).
Proof.
  intros Hs.
  set (W := anyWorld h l itv true true (Z.of_nat i) hist (chs ++ [ChPending []])
              (length chs) [JInvoke (length chs)] [] nt t em cl FPending).
  assert (Hst : stepAt (steps (self (set_microtasks [] W))) (cursor (set_microtasks [] W))
                = Some s).
  { subst W. fields. rewrite stepAt_of_nat. exact Hs. }
  assert (T1 : turn W = Some (exec (invoke (length chs)) (set_microtasks [] W))).
  { apply (turn_job (JInvoke (length chs)) W); reflexivity. }
  rewrite (invoke_eq _ _ _ Hst) in T1. cbv zeta in T1.
  replace (history (set_microtasks [] W)) with hist in T1 by reflexivity.
  replace (cursor (set_microtasks [] W)) with (Z.of_nat i) in T1 by reflexivity.
  destruct (s (lastOf hist) (Z.of_nat i) hist) as [v|e|[|d] st]; simpl settlement;
    simpl latency in T1.
  - exists 1, nt, t. intros k. simpl plus. rewrite drain_S, T1. reflexivity.
  - exists 1, nt, t. intros k. simpl plus. rewrite drain_S, T1. reflexivity.
  - exists 1, nt, t. intros k. simpl plus. rewrite drain_S, T1. reflexivity.
  - exists 2, (S nt), (Nat.max t (dueAt t (S d))). intros k. simpl plus.
    rewrite drain_S, T1. rewrite drain_S.
    match goal with
    | |- context [turn ?V] =>
        rewrite (turn_timer (MkTimer nt (dueAt t (S d)) (CbSettle (length chs) st)) V)
          by reflexivity
    end.
    subst W. machine. rewrite Nat.eqb_refl. reflexivity.
Qed.

Lemma nth_error_snoc {A : Type} (l : list A) (x : A) :
  nth_error (l ++ [x]) (length l) = Some x.
Proof. induction l; simpl; auto. Qed.

Lemma update_snoc {A : Type} (l : list A) (x : A) (f : A -> A) :
  update (length l) f (l ++ [x]) = l ++ [f x].
Proof. induction l; simpl; [reflexivity|]. f_equal. assumption. Qed.

(** The reaction to a rejection: the record is appended and [failed] is
    emitted; [any] has no listener for it. *)
Lemma any_settled_failure (h : Host) (l : list SequenceStep) (itv : nat) (i : Z)
  (hist : list SequenceResult.t) (chs : list ChainState) (prom c nt t : nat)
  (em : list Emission) (cl : list Z) (e : Value) (k : nat) :
  let r := SequenceResult.mk FAILED i None (Some e) t in
  drain (S k)
    (anyWorld h l itv true true i hist chs prom [JSettled c (Rejects e)] []
       nt t em cl FPending) =
  drain k
    (anyWorld h l itv true true i (hist ++ [r]) chs prom [JAdvance c r] []
       nt t (em ++ [EmStep EvFailed r i]) cl FPending).
Proof.
  intros r. rewrite drain_S.
  rewrite (turn_job (JSettled c (Rejects e))) by reflexivity.
  reflexivity.
Qed.

(** The reaction to a fulfilment: the record is appended, [success] is
    emitted, and the listener of [any] resolves the promise with the live
    history and stops the sequence. *)
Lemma any_settled_success (h : Host) (l : list SequenceStep) (itv : nat) (i : Z)
  (hist : list SequenceResult.t) (chs : list ChainState) (prom c nt t : nat)
  (em : list Emission) (cl : list Z) (v : Value) (k : nat) :
  let r := SequenceResult.mk SUCCEEDED i (Some v) None t in
  drain (S k)
    (anyWorld h l itv true true i hist chs prom [JSettled c (Fulfils v)] []
       nt t em cl FPending) =
  drain k
    (anyWorld h l itv false true i (hist ++ [r]) chs prom [JAdvance c r] []
       nt t (em ++ [EmStep EvSuccess r i]) cl (FResolved 1)).
Proof.
  intros r. rewrite drain_S.
  rewrite (turn_job (JSettled c (Fulfils v))) by reflexivity.
  reflexivity.
Qed.

(** The final callback while a further step is queued: the interval timer
    is set. *)
Lemma any_advance_more (h : Host) (l : list SequenceStep) (itv : nat) (run : bool)
  (i : nat) (hist : list SequenceResult.t) (chs : list ChainState) (nt t : nat)
  (em : list Emission) (cl : list Z) (fu : FutureState) (r : SequenceResult.t)
  (s' : SequenceStep) (k : nat) :
  nth_error l (S i) = Some s' ->
  drain (S k)
    (anyWorld h l itv run true (Z.of_nat i) hist (chs ++ [ChPending []]) (length chs)
       [JAdvance (length chs) r] [] nt t em cl fu) =
  drain k
    (anyWorld h l itv run false (Z.of_nat (S i)) hist (chs ++ [ChFulfilled (Some r)])
       (length chs) [] [MkTimer nt (dueAt t itv) CbNext] (S nt) t em cl fu).
Proof.
  intros Hs. rewrite drain_S.
  rewrite (turn_job (JAdvance (length chs) r)) by reflexivity.
  cbv [job]. rewrite advance_eq. fields.
  replace (Z.of_nat i + 1)%Z with (Z.of_nat (S i)) by lia.
  rewrite stepAt_of_nat, Hs.
  rewrite (fulfil_pending (length chs) (Some r) [])
    by (machine; apply nth_error_snoc).
  machine. rewrite update_snoc, ?app_nil_r. reflexivity.
Qed.

(** The final callback after the last step: [end] is emitted, and the
    listener of [any] rejects the promise unless it is settled already. *)
Lemma any_advance_last (h : Host) (l : list SequenceStep) (itv : nat) (run : bool)
  (i : nat) (hist : list SequenceResult.t) (chs : list ChainState) (nt t : nat)
  (em : list Emission) (cl : list Z) (fu : FutureState) (r : SequenceResult.t)
  (k : nat) :
  nth_error l (S i) = None ->
  drain (S k)
    (anyWorld h l itv run true (Z.of_nat i) hist (chs ++ [ChPending []]) (length chs)
       [JAdvance (length chs) r] [] nt t em cl fu) =
  anyWorld h l itv run false (Z.of_nat (S i)) hist (chs ++ [ChFulfilled (Some r)])
    (length chs) [] [] nt t (em ++ [EmEnd 1 hist]) cl
    (match fu with FPending => FRejected 1 | _ => fu end).
Proof.
  intros Hs. rewrite drain_S.
  rewrite (turn_job (JAdvance (length chs) r)) by reflexivity.
  cbv [job]. rewrite advance_eq. fields.
  replace (Z.of_nat i + 1)%Z with (Z.of_nat (S i)) by lia.
  rewrite stepAt_of_nat, Hs.
  destruct fu;
    (rewrite (fulfil_pending (length chs) (Some r) [])
       by (machine; apply nth_error_snoc));
    machine; rewrite update_snoc, ?app_nil_r;
    apply drain_idle; reflexivity.
Qed.

Lemma fire_eq (t : Timer) (w : World) :
  exec (fire t) w =
  exec (callback (tcb t))
    (set_now (Nat.max (now w) (due t))
       (set_timers (filter (fun u => negb (Nat.eqb (tid u) (tid t))) (timers w)) w)).
Proof. reflexivity. Qed.

(** The interval timer on the running sequence: the next call is queued. *)
Lemma any_next_running (h : Host) (l : list SequenceStep) (itv : nat)
  (i : nat) (hist : list SequenceResult.t) (chs : list ChainState) (p : option SequenceResult.t)
  (nt nt' t d : nat) (em : list Emission) (cl : list Z) (s : SequenceStep) (k : nat) :
  nth_error l i = Some s ->
  drain (S k)
    (anyWorld h l itv true false (Z.of_nat i) hist (chs ++ [ChFulfilled p])
       (length chs) [] [MkTimer nt d CbNext] nt' t em cl FPending) =
  drain k
    (anyWorld h l itv true true (Z.of_nat i) hist
       ((chs ++ [ChFulfilled p]) ++ [ChPending []]) (length (chs ++ [ChFulfilled p]))
       [JInvoke (length (chs ++ [ChFulfilled p]))] [] nt' (Nat.max t d) em cl FPending).
Proof.
  intros Hs. rewrite drain_S.
  rewrite (turn_timer (MkTimer nt d CbNext)) by reflexivity.
  rewrite fire_eq. fields. cbv [filter]. fields.
  rewrite Nat.eqb_refl. cbv [negb].
  match goal with
  | |- context [exec (callback CbNext) ?W] => rewrite (next_timer_starts W s p)
  end; try reflexivity.
  - fields. rewrite stepAt_of_nat. exact Hs.
  - fields. apply nth_error_snoc.
Qed.

(** The interval timer on the stopped sequence: nothing happens. *)
Lemma any_next_stopped (h : Host) (l : list SequenceStep) (itv : nat)
  (i : Z) (hist : list SequenceResult.t) (chs : list ChainState) (prom : nat)
  (nt nt' t d : nat) (em : list Emission) (cl : list Z) (fu : FutureState) (k : nat) :
  drain (S k)
    (anyWorld h l itv false false i hist chs prom [] [MkTimer nt d CbNext] nt' t em cl fu) =
  anyWorld h l itv false false i hist chs prom [] [] nt' (Nat.max t d) em cl fu.
Proof.
  rewrite drain_S.
  rewrite (turn_timer (MkTimer nt d CbNext)) by reflexivity.
  machine. rewrite Nat.eqb_refl. machine.
  apply drain_idle. reflexivity.
Qed.

Lemma indices_S (n : nat) : indices (S n) = indices n ++ [Z.of_nat n].
Proof. unfold indices. rewrite seq_S, map_app. reflexivity. Qed.

(** From the call of step [i], with only failures behind it, the loop
    reaches an idle world in which [any] has ended one way or the other. *)
Lemma any_run (h : Host) (l : list SequenceStep) (itv : nat) :
  forall (m i : nat) (hist : list SequenceResult.t) (chs : list ChainState)
         (nt t : nat) (em : list Emission) (s : SequenceStep),
    length l - i = m ->
    nth_error l i = Some s ->
    Forall failedRecord hist ->
    length hist = i ->
    Forall (fun e => isSuccess e = false) em ->
    exists n F,
      drain n (anyWorld h l itv true true (Z.of_nat i) hist (chs ++ [ChPending []])
                 (length chs) [JInvoke (length chs)] [] nt t em (indices i) FPending) = F
      /\ idle F
      /\ (anyResolved F \/ anyRejected l F).
Proof.
  induction m as [|m IH]; intros i hist chs nt t em s Hm Hs Hf Hl He.
  { assert (i < length l) by (apply nth_error_Some; congruence). lia. }
  assert (Hi : i < length l) by (apply nth_error_Some; congruence).
  destruct (any_call h l itv i hist chs nt t em (indices i) s Hs)
    as (n1 & nt1 & t1 & Hcall).
  destruct (settlement (s (lastOf hist) (Z.of_nat i) hist)) as [v|e].
  - (* the step succeeds *)
    set (r := SequenceResult.mk SUCCEEDED (Z.of_nat i) (Some v) None t1).
    assert (Res : forall F em',
      outcome F = ResolvedWith (hist ++ [r]) ->
      emitted F = (em ++ [EmStep EvSuccess r (Z.of_nat i)]) ++ em' ->
      calls F = indices i ++ [Z.of_nat i] ->
      running (self F) = false ->
      anyResolved F).
    { intros F em' HO HE HC HR. exists hist, r. rewrite Hl, indices_S.
      repeat apply conj; auto.
      rewrite HE. apply in_or_app. left. apply in_or_app. right. left. reflexivity. }
    destruct (nth_error l (S i)) as [s'|] eqn:Hn.
    + eexists (n1 + 3), _. split; [|split].
      * rewrite Hcall. rewrite any_settled_success.
        rewrite (any_advance_more _ _ _ _ _ _ _ _ _ _ _ _ _ s') by exact Hn.
        rewrite any_next_stopped. reflexivity.
      * reflexivity.
      * left. apply (Res _ []); try reflexivity. rewrite app_nil_r. reflexivity.
    + eexists (n1 + 2), _. split; [|split].
      * rewrite Hcall. rewrite any_settled_success.
        rewrite any_advance_last by exact Hn. reflexivity.
      * reflexivity.
      * left. apply (Res _ [EmEnd 1 (hist ++ [r])]); reflexivity.
  - (* the step fails *)
    set (r := SequenceResult.mk FAILED (Z.of_nat i) None (Some e) t1).
    assert (Hf' : Forall failedRecord (hist ++ [r])).
    { apply Forall_app. split; [assumption|]. constructor; [reflexivity|constructor]. }
    assert (He' : Forall (fun e => isSuccess e = false)
                    (em ++ [EmStep EvFailed r (Z.of_nat i)])).
    { apply Forall_app. split; [assumption|]. constructor; [reflexivity|constructor]. }
    assert (Hl' : length (hist ++ [r]) = S i).
    { rewrite length_app. simpl. lia. }
    destruct (nth_error l (S i)) as [s'|] eqn:Hn.
    + destruct (IH (S i) (hist ++ [r]) (chs ++ [ChFulfilled (Some r)]) (S nt1)
                  (Nat.max t1 (dueAt t1 itv))
                  (em ++ [EmStep EvFailed r (Z.of_nat i)]) s')
        as (n2 & F & HD & HI & HF); try assumption; try lia.
      exists (n1 + S (S (S n2))), F. split; [|split; assumption].
      rewrite Hcall. rewrite any_settled_failure.
      rewrite (any_advance_more _ _ _ _ _ _ _ _ _ _ _ _ _ s') by exact Hn.
      rewrite (any_next_running _ _ _ _ _ _ _ _ _ _ _ _ _ s') by exact Hn.
      rewrite <- indices_S. exact HD.
    + eexists (n1 + 2), _. split; [|split].
      * rewrite Hcall. rewrite any_settled_failure.
        rewrite any_advance_last by exact Hn. reflexivity.
      * reflexivity.
      * right. exists (hist ++ [r]). repeat apply conj.
        -- reflexivity.
        -- assumption.
        -- apply nth_error_None in Hn. lia.
        -- apply in_or_app. right. left. reflexivity.
        -- apply Forall_app. split; [assumption|].
           constructor; [reflexivity|constructor].
        -- apply nth_error_None in Hn.
           replace (length l) with (S i) by lia.
           rewrite indices_S. reflexivity.
Qed.

(** C4: [any([])] is rejected at once.  For a non-empty input the loop
    reaches an idle world, and there either a [success] was emitted, the
    promise is resolved with a history ending in that [SUCCEEDED] record
    after failures only, the sequence is stopped and no step after the
    successful one was called; or no [success] was emitted, [end] fired with
    one failure per step, and the promise is rejected with that full
    history. *)
Theorem C4_any_resolves_on_first_success (h : Host) (s : SequenceStep)
  (l : list SequenceStep) (itv : option nat) :
  outcome (any h [] itv None) = RejectedWith []
  /\ exists n, forall fuel, n <= fuel ->
       let w := drain fuel (any h (s :: l) itv None) in
       idle w /\ (anyResolved w \/ anyRejected (s :: l) w).
Proof.
  split; [reflexivity|].
  destruct (any_run h (s :: l) (intervalOf itv) (length (s :: l)) 0 []
              [ChFulfilled None; ChFulfilled None] 2 (Nat.max 0 (dueAt 0 0)) [] s)
    as (n & F & HD & HI & HF); try reflexivity; try constructor.
  exists (S n). intros fuel L w.
  assert (E : drain (S n) (any h (s :: l) itv None) = F).
  { rewrite any_starts. exact HD. }
  assert (Ew : w = F).
  { subst w. rewrite <- E. apply drain_enough; [rewrite E; exact HI | exact L]. }
  rewrite Ew. split; assumption.
Qed.

(** The repository's test of [any]: the second step succeeds, the third is
    never called. *)
Example any_stops_after_success :
  let w := drain 20 (any HostNextTick
                       [rejectWith VUndefined; resolveWith (VBool true); resolveWith (VNum 0)]
                       None None) in
  idle w
  /\ outcome w =
       ResolvedWith [SequenceResult.mk FAILED 0 None (Some VUndefined) 0;
                     SequenceResult.mk SUCCEEDED 1 (Some (VBool true)) None 0]
  /\ calls w = [0%Z; 1%Z].
Proof. vm_compute. repeat split; reflexivity. Qed.

(** ** The history and the cursor *)

Lemma quieter_refl (ts : list Timer) : quieter ts ts.
Proof. split; [apply incl_refl | lia]. Qed.

Lemma quieter_trans (a b c : list Timer) : quieter a b -> quieter b c -> quieter a c.
Proof. intros [I1 L1] [I2 L2]. split; [eapply incl_tran; eauto | lia]. Qed.

Lemma quieter_filter (p : Timer -> bool) (ts : list Timer) : quieter (filter p ts) ts.
Proof.
  unfold quieter, settleJobs.
  induction ts as [|t ts [I L]]; simpl; [split; [apply incl_refl | lia]|].
  destruct (p t); simpl.
  - split.
    + apply incl_app; [apply incl_appl, incl_refl | apply incl_appr; exact I].
    + rewrite !length_app. lia.
  - split; [apply incl_appr; exact I | rewrite length_app; lia].
Qed.

Lemma quieter_cancel (id : option nat) (ts : list Timer) : quieter (cancel id ts) ts.
Proof. destruct id; [apply quieter_filter | apply quieter_refl]. Qed.

Lemma settleJobs_snoc (ts : list Timer) (t : Timer) :
  ownCallback (tcb t) -> settleJobs (ts ++ [t]) = settleJobs ts.
Proof.
  intros H. unfold settleJobs. rewrite flat_map_app. simpl.
  unfold settleJob. destruct (tcb t); try contradiction; rewrite app_nil_r; reflexivity.
Qed.

Lemma quieter_snoc (ts' ts : list Timer) (t : Timer) :
  ownCallback (tcb t) -> quieter ts' ts -> quieter (ts' ++ [t]) ts.
Proof. intros H Q. unfold quieter. rewrite (settleJobs_snoc _ _ H). exact Q. Qed.

Lemma calm_refl (w : World) : calm w w.
Proof. constructor; auto using quieter_refl. Qed.

Lemma calm_trans (a b c : World) : calm a b -> calm b c -> calm a c.
Proof.
  intros [] []. constructor; try congruence; auto.
  eapply quieter_trans; eauto.
Qed.

Lemma short_quieter (l' l : list Job) :
  incl l' l -> length l' <= length l -> length l <= 1 -> l' = l \/ l' = [].
Proof.
  intros I L1 L2. destruct l as [|j [|j2 l]]; simpl in *; try lia.
  - destruct l'; simpl in *; [auto | lia].
  - destruct l' as [|j' [|j2 l']]; simpl in *; try lia; auto.
    left. destruct (I j' (or_introl eq_refl)) as [E|[]]. congruence.
Qed.

Lemma inflight_calm (w w' : World) :
  calm w w' -> length (inflight w) <= 1 ->
  inflight w' = inflight w \/ inflight w' = [].
Proof.
  intros C L. unfold inflight in *. rewrite (calm_microtasks _ _ C).
  destruct (calm_timers _ _ C) as [I Le]. rewrite length_app in L.
  destruct (short_quieter _ _ I Le) as [E|E]; [lia | rewrite E; auto |].
  rewrite E. destruct (microtasks w) as [|j m]; simpl in *; auto.
  left. assert (settleJobs (timers w) = []) by (destruct (settleJobs (timers w)); simpl in *; [reflexivity | lia]).
  congruence.
Qed.

Lemma Inv_short (w : World) : Inv w -> length (inflight w) <= 1.
Proof.
  intros I. destruct (busy (self w)) eqn:B.
  - destruct (inv_busy _ I B) as [_ [E|[[E _]|[[st [E _]]|[r [E _]]]]]];
      rewrite E; simpl; lia.
  - destruct (inv_idle _ I B) as [E _]. rewrite E. simpl. lia.
Qed.

Lemma history_calm (w w' : World) : calm w w' -> history w' = history w.
Proof.
  intros C. unfold history, read.
  rewrite (calm_results _ _ C), (calm_arrays _ _ C). reflexivity.
Qed.

(** The invariant survives every calm change. *)
Lemma Inv_calm (w w' : World) : calm w w' -> Inv w -> Inv w'.
Proof.
  intros C I. pose proof (Inv_short _ I) as L.
  pose proof (history_calm _ _ C) as H.
  constructor.
  - rewrite (calm_results _ _ C), (calm_arrays _ _ C). apply (inv_array _ I).
  - apply (calm_ticks _ _ C), (inv_ticks _ I).
  - apply (calm_immediates _ _ C), (inv_immediates _ I).
  - rewrite (calm_busy _ _ C). intros B. destruct (inv_idle _ I B) as (E & Ch & Len).
    unfold cursor in *.
    rewrite (calm_chains _ _ C), (calm_promise _ _ C), (calm_index _ _ C), H.
    repeat apply conj; auto.
    destruct (inflight_calm _ _ C L) as [E'|E']; congruence.
  - rewrite (calm_busy _ _ C). intros B. destruct (inv_busy _ I B) as (Ch & P).
    rewrite (calm_chains _ _ C), (calm_promise _ _ C). split; [exact Ch|].
    unfold phase, cursor in *.
    rewrite (calm_promise _ _ C), (calm_index _ _ C), H.
    destruct (inflight_calm _ _ C L) as [E'|E']; rewrite E'; auto.
Qed.

Ltac calm_fields :=
  constructor; simpl; try reflexivity; auto using quieter_refl.

Lemma calm_stop (w : World) : calm w (exec stop w).
Proof. rewrite stop_eq. world w. calm_fields. apply quieter_cancel. Qed.

Lemma calm_set_future (f : FutureState) (w : World) : calm w (set_future f w).
Proof. world w. calm_fields. Qed.

Lemma calm_set_emitted (e : list Emission) (w : World) : calm w (set_emitted e w).
Proof. world w. calm_fields. Qed.

Lemma calm_emit (ev : SequenceEvent) (e : Emission) (w : World) :
  calm w (exec (emit ev e) w).
Proof.
  destruct (emit_cases ev e w) as [f [E|E]]; cbv zeta in E; rewrite E.
  - eapply calm_trans; [apply calm_set_emitted | apply calm_set_future].
  - eapply calm_trans; [apply calm_set_emitted |].
    eapply calm_trans; [apply calm_stop | apply calm_set_future].
Qed.

Lemma calm_emitEnd (w : World) : calm w (exec emitEnd w).
Proof. rewrite emitEnd_eq. apply calm_emit. Qed.

Lemma calm_setTimeout (cb : Callback) (d : nat) (w : World) :
  ownCallback cb -> calm w (exec (setTimeout cb d) w).
Proof.
  intros H. world w. calm_fields.
  apply quieter_snoc; [exact H | apply quieter_refl].
Qed.

Lemma calm_suspend (d : option nat) (w : World) : calm w (exec (suspend d) w).
Proof.
  world w. destruct suspendTimeout0; calm_fields.
  - apply quieter_snoc; [exact I | apply quieter_filter].
  - apply quieter_snoc; [exact I | apply quieter_refl].
Qed.

Lemma calm_on (l : Listener) (w : World) : calm w (exec (on l) w).
Proof.
  world w. unfold exec, on, assign, modify. simpl.
  destruct (existsb (Listener_eqb l) events0); calm_fields.
Qed.

Lemma calm_warn (msg : string) (w : World) : calm w (exec (warn msg) w).
Proof. world w. calm_fields. Qed.

Lemma calm_discard (r : NextResult) (w : World) : calm w (exec (discard r) w).
Proof. destruct r; world w; calm_fields. Qed.

Lemma calm_set_running (b : bool) (w : World) :
  calm w (set_self (set_running b (self w)) w).
Proof. world w. calm_fields. Qed.

Lemma calm_set_suspended (b : bool) (w : World) :
  calm w (set_self (set_suspended b (self w)) w).
Proof. world w. calm_fields. Qed.

Lemma calm_set_steps (l : list SequenceStep) (w : World) :
  calm w (set_self (set_steps l (self w)) w).
Proof. world w. calm_fields. Qed.

(** [next] either returns without touching the engine's data, or starts
    the step at the cursor. *)
Lemma next_cases (inner : bool) (w : World) :
  calm w (exec (next inner) w)
  \/ (busy (self w) = false
      /\ exists s, stepAt (steps (self w)) (cursor w) = Some s
      /\ exec (next inner) w =
         exec (c <- thenInvoke (promise (self w)) ;; assign (set_promise c))
           (set_self (set_busy true (self w)) w)).
Proof.
  unfold cursor.
  assert (E : exec (next inner) w =
    if negb inner && running (self w) then
      exec (warn "Please do not call next() while the sequence is running."%string) w
    else if busy (self w) || suspended (self w) then w
    else if Nat.eqb (length (steps (self w))) 0 then
      (if negb (muteEndIfEmpty (self w)) then exec (setTimeout CbEmitEnd 0) w else w)
    else match stepAt (steps (self w)) (index (self w)) with
         | None => w
         | Some _ =>
             exec (c <- thenInvoke (promise (self w)) ;; assign (set_promise c))
               (set_self (set_busy true (self w)) w)
         end).
  { world w. unfold exec, next, bind, this, ret.
    cbn [fst snd self running busy suspended steps index muteEndIfEmpty promise].
    destruct (negb inner && running0); [reflexivity|].
    destruct (busy0 || suspended0) eqn:B; [reflexivity|].
    destruct (Nat.eqb (length steps0) 0); [destruct muteEndIfEmpty0; reflexivity|].
    destruct (stepAt steps0 index0); reflexivity. }
  rewrite E.
  destruct (negb inner && running (self w)); [left; apply calm_warn|].
  destruct (busy (self w)) eqn:B; simpl; [left; apply calm_refl|].
  destruct (suspended (self w)); [left; apply calm_refl|].
  destruct (Nat.eqb (length (steps (self w))) 0).
  { destruct (muteEndIfEmpty (self w)); simpl;
      [left; apply calm_refl | left; apply calm_setTimeout; exact I]. }
  destruct (stepAt (steps (self w)) (index (self w))) as [s|];
    [|left; apply calm_refl].
  right. split; [reflexivity|]. exists s. split; reflexivity.
Qed.

(** [next] keeps the invariant. *)
Lemma Inv_next (inner : bool) (w : World) : Inv w -> Inv (exec (next inner) w).
Proof.
  intros I. destruct (next_cases inner w) as [C|(B & s & _ & E)].
  - exact (Inv_calm _ _ C I).
  - destruct (inv_idle _ I B) as (F & (v & Ch) & Len).
    rewrite E. clear E.
    pose proof (inv_array _ I) as A.
    pose proof (inv_ticks _ I) as T. pose proof (inv_immediates _ I) as Im.
    unfold inflight, history, read, cursor in *.
    apply app_eq_nil in F. destruct F as [Fm Ft].
    world w. unfold exec, bind, thenInvoke, assign, modify. simpl.
    rewrite Ch. simpl. subst.
    constructor; simpl; auto; try discriminate.
    intros _. split; [apply nth_error_snoc|].
    right. left. unfold inflight, history, read, cursor. simpl.
    rewrite Ft. auto.
Qed.

Lemma Inv_discard (r : NextResult) (w : World) : Inv w -> Inv (exec (discard r) w).
Proof. apply Inv_calm, calm_discard. Qed.

Lemma Inv_next_discard (w : World) :
  Inv w -> Inv (exec (r <- next true ;; discard r) w).
Proof.
  intros I.
  change (exec (r <- next true ;; discard r) w)
    with (exec (discard (fst (next true w))) (exec (next true) w)).
  apply Inv_discard, Inv_next, I.
Qed.

Lemma Inv_run (w : World) : Inv w -> Inv (exec run w).
Proof.
  intros I.
  assert (E : exec run w =
    if running (self w) then w
    else exec (r <- next true ;; discard r) (set_self (set_running true (self w)) w)).
  { world w. unfold exec, run, bind, this. cbn [fst snd self running].
    destruct running0; reflexivity. }
  rewrite E. destruct (running (self w)); [exact I|].
  apply Inv_next_discard. exact (Inv_calm _ _ (calm_set_running true w) I).
Qed.

Lemma Inv_append (arg : StepsArg) (w : World) : Inv w -> Inv (exec (append arg) w).
Proof.
  intros I. rewrite append_eq. cbv zeta.
  pose proof (Inv_calm _ _ (calm_set_steps (steps (self w) ++ stepsOf arg) w) I) as I'.
  destruct (running (self w) && _); [apply Inv_next_discard|]; exact I'.
Qed.

(** [clear] on a sequence with no step in flight. *)
Lemma Inv_clear (w : World) : busy (self w) = false -> Inv w -> Inv (exec clear w).
Proof.
  intros B I. rewrite clear_eq.
  destruct (inv_idle _ I B) as (F & _ & _).
  pose proof (inv_ticks _ I) as T. pose proof (inv_immediates _ I) as Im.
  unfold inflight in *. world w.
  constructor; simpl; auto; try discriminate.
  - rewrite length_app. simpl. lia.
  - intros _. unfold inflight, history, read, cursor. simpl.
    repeat apply conj; auto.
    + exists None. apply nth_error_snoc.
    + rewrite nth_snoc. reflexivity.
Qed.

(** The callbacks that the class defers keep the invariant. *)
Lemma Inv_callback (cb : Callback) (w : World) :
  ownCallback cb -> Inv w -> Inv (exec (callback cb) w).
Proof.
  intros O I. destruct cb; try contradiction; simpl callback.
  - apply Inv_run, I.
  - exact (Inv_calm _ _ (calm_emitEnd w) I).
  - assert (E : exec (s <- this ;; if running s then r <- next true ;; discard r else skip) w
               = if running (self w) then exec (r <- next true ;; discard r) w else w).
    { world w. unfold exec, bind, this. cbn [fst snd self running].
      destruct running0; reflexivity. }
    rewrite E. destruct (running (self w)); [apply Inv_next_discard|]; exact I.
  - set (w1 := set_self (set_suspended false (self w)) w).
    assert (E : exec (assign (set_suspended false) ;; s <- this ;;
                      if running s then r <- next true ;; discard r else skip) w
               = if running (self w1) then exec (r <- next true ;; discard r) w1 else w1).
    { subst w1. world w. unfold exec, bind, this, assign, modify.
      cbn [fst snd self running set_self set_suspended].
      destruct running0; reflexivity. }
    rewrite E.
    pose proof (Inv_calm _ _ (calm_set_suspended false w) I) as I1. fold w1 in I1.
    destruct (running (self w1)); [apply Inv_next_discard|]; exact I1.
Qed.

Lemma length_update {A : Type} (n : nat) (f : A -> A) (l : list A) :
  length (update n f l) = length l.
Proof.
  revert n. induction l as [|x l IH]; intros [|n]; simpl; auto.
Qed.

(** [step?.()] on a cursor that points at no step. *)
Lemma invoke_none (c : nat) (w : World) :
  stepAt (steps (self w)) (cursor w) = None ->
  exec (invoke c) w = exec (enqueue (JSettled c (Fulfils VUndefined))) w.
Proof.
  unfold cursor. world w. intros H.
  unfold exec, invoke, bind, this. cbn [fst snd self steps index].
  rewrite H. reflexivity.
Qed.

(** The job the loop is about to run is the one job of the step in flight. *)
Lemma Inv_alone (w : World) (k : nat) (j : Job) :
  Inv w -> nth_error (microtasks w) k = Some j ->
  busy (self w) = true
  /\ microtasks w = [j] /\ k = 0
  /\ settleJobs (timers w) = []
  /\ nth_error (chains w) (promise (self w)) = Some (ChPending [])
  /\ ((j = JInvoke (promise (self w)) /\ Z.of_nat (length (history w)) = cursor w)
      \/ (exists st, j = JSettled (promise (self w)) st
                     /\ Z.of_nat (length (history w)) = cursor w)
      \/ (exists r, j = JAdvance (promise (self w)) r
                    /\ Z.of_nat (length (history w)) = (cursor w + 1)%Z)).
Proof.
  intros I N.
  assert (Hne : microtasks w <> []) by (intros E; rewrite E in N; destruct k; discriminate).
  assert (Single : forall j0, inflight w = [j0] ->
            microtasks w = [j0] /\ settleJobs (timers w) = [] /\ k = 0 /\ j = j0).
  { intros j0 E. unfold inflight in E.
    destruct (microtasks w) as [|a [|b m]]; try congruence; simpl in E.
    - injection E as E1 E2. subst a.
      destruct k as [|[|k]]; simpl in N; try discriminate.
      injection N as N. auto.
    - discriminate. }
  destruct (busy (self w)) eqn:B.
  - destruct (inv_busy _ I B) as (Ch & P).
    destruct P as [E|[[E L]|[[st [E L]]|[r [E L]]]]].
    + unfold inflight in E. apply app_eq_nil in E. tauto.
    + destruct (Single _ E) as (M & S & K & J). subst. repeat apply conj; auto.
    + destruct (Single _ E) as (M & S & K & J). subst. repeat apply conj; auto.
      right. left. eauto.
    + destruct (Single _ E) as (M & S & K & J). subst. repeat apply conj; auto.
      right. right. eauto.
  - destruct (inv_idle _ I B) as (E & _). unfold inflight in E.
    apply app_eq_nil in E. tauto.
Qed.

(** Running the job of the step in flight keeps the invariant. *)
Lemma Inv_job (w : World) (k : nat) (j : Job) :
  Inv w -> nth_error (microtasks w) k = Some j ->
  Inv (exec (job j) (set_microtasks (dropNth k (microtasks w)) w)).
Proof.
  intros I N.
  destruct (Inv_alone w k j I N) as (B & M & K & S & Ch & P).
  pose proof (inv_array _ I) as A.
  pose proof (inv_ticks _ I) as T. pose proof (inv_immediates _ I) as Im.
  rewrite M, K. simpl dropNth.
  set (w1 := set_microtasks [] w).
  assert (C1 : arrays w1 = arrays w /\ chains w1 = chains w /\ self w1 = self w
               /\ timers w1 = timers w /\ ticks w1 = ticks w
               /\ immediates w1 = immediates w /\ microtasks w1 = []
               /\ history w1 = history w /\ cursor w1 = cursor w).
  { subst w1. unfold history, cursor, read. world w. repeat apply conj; reflexivity. }
  destruct C1 as (A1 & Ch1 & S1 & Tm1 & T1 & Im1 & M1 & H1 & Cu1).
  destruct P as [[J L]|[[st [J L]]|[r [J L]]]]; subst j; simpl job.
  - (* the step is called *)
    assert (E : exists st d cl,
      exec (invoke (promise (self w))) w1 =
      exec (deliver (promise (self w)) st d) (set_calls cl w1)).
    { destruct (stepAt (steps (self w1)) (cursor w1)) as [s|] eqn:St.
      - rewrite (invoke_eq _ _ _ St). cbv zeta. eauto.
      - exists (Fulfils VUndefined), 0, (calls w1).
        rewrite (invoke_none _ _ St). clear. world w1. reflexivity. }
    destruct E as (st & d & cl & E). rewrite E. clear E.
    unfold inflight, history, cursor, read in *. subst w1.
    world w. subst.
    destruct d; constructor; simpl; auto; try discriminate; intros _;
      (split; [assumption|]); right; right; left; exists st;
      unfold inflight, history, cursor, read; simpl.
    + rewrite S. auto.
    + unfold settleJobs in *. rewrite flat_map_app, S. simpl. auto.
  - (* its settlement is recorded *)
    rewrite settled_eq.
    set (r := record st w1).
    set (v1 := exec (push (results (self w1)) r) w1).
    set (v2 := exec (emit (eventOf st) (EmStep (eventOf st) r (cursor w1))) v1).
    assert (Cv : calm v1 v2) by apply calm_emit.
    assert (F1 : arrays v1 = update (results (self w)) (fun l => l ++ [r]) (arrays w)
                 /\ self v1 = self w /\ chains v1 = chains w /\ microtasks v1 = []
                 /\ timers v1 = timers w /\ ticks v1 = ticks w
                 /\ immediates v1 = immediates w).
    { subst v1 w1. world w. repeat apply conj; reflexivity. }
    destruct F1 as (Fa & Fs & Fc & Fm & Ft & Fk & Fi).
    assert (Hv1 : history v1 = history w ++ [r]).
    { unfold history, read. rewrite Fa, Fs. apply read_update. exact A. }
    assert (Sv2 : settleJobs (timers v2) = []).
    { destruct (calm_timers _ _ Cv) as [_ Le]. rewrite Ft, S in Le.
      destruct (settleJobs (timers v2)); [reflexivity | simpl in Le; lia]. }
    pose proof (history_calm _ _ Cv) as Hv2.
    pose proof (calm_arrays _ _ Cv) as Av2. pose proof (calm_chains _ _ Cv) as Cv2.
    pose proof (calm_microtasks _ _ Cv) as Mv2.
    pose proof (calm_results _ _ Cv) as Rv2. pose proof (calm_busy _ _ Cv) as Bv2.
    pose proof (calm_promise _ _ Cv) as Pv2. pose proof (calm_index _ _ Cv) as Iv2.
    pose proof (calm_ticks _ _ Cv) as Tv2. pose proof (calm_immediates _ _ Cv) as Imv2.
    rewrite Fs in *. rewrite Fk in Tv2. rewrite Fi in Imv2.
    rewrite Fm in Mv2. rewrite Fc in Cv2. rewrite Fa in Av2. rewrite Hv1 in Hv2.
    clearbody v2. clear Cv Fa Fs Fc Fm Ft Fk Fi Hv1 v1.
    unfold inflight, history, cursor, read in *.
    world v2. subst.
    constructor; simpl; auto.
    + rewrite length_update. exact A.
    + rewrite B. discriminate.
    + intros _. split; [assumption|]. right. right. right. exists r.
      unfold inflight, history, cursor, read. simpl. rewrite Sv2. split; [reflexivity|].
      rewrite Hv2, length_app. simpl. rewrite Nat2Z.inj_add. simpl. lia.
  - (* the cursor moves on *)
    rewrite advance_eq.
    set (v1 := bumped w1).
    set (v2 := match stepAt (steps (self w1)) (cursor w1 + 1) with
               | Some _ => exec (setTimeout CbNext (interval (self w1))) v1
               | None => exec emitEnd v1
               end).
    assert (Cv : calm v1 v2).
    { subst v2. destruct (stepAt _ _);
        [apply calm_setTimeout; constructor | apply calm_emitEnd]. }
    assert (F1 : arrays v1 = arrays w /\ chains v1 = chains w /\ microtasks v1 = []
                 /\ timers v1 = timers w /\ ticks v1 = ticks w
                 /\ immediates v1 = immediates w
                 /\ results (self v1) = results (self w)
                 /\ promise (self v1) = promise (self w)
                 /\ busy (self v1) = false
                 /\ index (self v1) = (index (self w) + 1)%Z).
    { subst v1 w1. world w. repeat apply conj; reflexivity. }
    destruct F1 as (Fa & Fc & Fm & Ft & Fk & Fi & Fr & Fp & Fb & Fx).
    assert (Sv2 : settleJobs (timers v2) = []).
    { destruct (calm_timers _ _ Cv) as [_ Le]. rewrite Ft, S in Le.
      destruct (settleJobs (timers v2)); [reflexivity | simpl in Le; lia]. }
    pose proof (calm_arrays _ _ Cv) as Av2. pose proof (calm_chains _ _ Cv) as Cv2.
    pose proof (calm_microtasks _ _ Cv) as Mv2.
    pose proof (calm_results _ _ Cv) as Rv2. pose proof (calm_busy _ _ Cv) as Bv2.
    pose proof (calm_promise _ _ Cv) as Pv2. pose proof (calm_index _ _ Cv) as Iv2.
    pose proof (calm_ticks _ _ Cv) as Tv2. pose proof (calm_immediates _ _ Cv) as Imv2.
    rewrite Fk in Tv2. rewrite Fi in Imv2. rewrite Fm in Mv2. rewrite Fc in Cv2.
    rewrite Fa in Av2. rewrite Fr in Rv2. rewrite Fb in Bv2. rewrite Fp in Pv2.
    rewrite Fx in Iv2.
    assert (Chv : nth_error (chains v2) (promise (self w)) = Some (ChPending []))
      by (rewrite Cv2; exact Ch).
    rewrite (fulfil_pending _ _ _ _ Chv).
    clearbody v2. clear Cv Fa Fc Fm Ft Fk Fi Fr Fp Fb Fx v1 Chv.
    unfold inflight, history, cursor, read in *.
    world v2. subst.
    constructor; simpl; auto; try discriminate.
    intros _. unfold inflight, history, cursor, read. simpl.
    rewrite Sv2. repeat apply conj; auto.
    exists (Some r). exact (nth_error_update _ (fun _ => ChFulfilled (Some r)) _ _ Ch).
Qed.

Lemma settle_timer_shrinks (ts : list Timer) (k : nat) (t : Timer) (c : nat)
  (st : Settlement) :
  nth_error ts k = Some t ->
  tcb t = CbSettle c st ->
  In (JSettled c st) (settleJobs ts)
  /\ length (settleJobs (filter (fun u => negb (Nat.eqb (tid u) (tid t))) ts))
     < length (settleJobs ts).
Proof.
  intros N C. unfold settleJobs.
  assert (St : settleJob t = [JSettled c st]) by (unfold settleJob; rewrite C; reflexivity).
  revert k N. induction ts as [|u ts IH]; intros k N; [destruct k; discriminate|].
  pose proof (quieter_filter (fun u => negb (Nat.eqb (tid u) (tid t))) ts) as [_ L].
  unfold settleJobs in L.
  destruct k as [|k]; simpl in N.
  - injection N as N. subst u. simpl. rewrite Nat.eqb_refl. simpl.
    rewrite St. simpl. split; [auto | lia].
  - destruct (IH k N) as [I Lt]. simpl.
    split; [apply in_or_app; auto|].
    destruct (Nat.eqb (tid u) (tid t)); simpl; rewrite ?length_app; lia.
Qed.

(** A timer fires. *)
Lemma Inv_fire (w : World) (k : nat) (t : Timer) :
  Inv w -> nth_error (timers w) k = Some t -> Inv (exec (fire t) w).
Proof.
  intros I F. rewrite fire_eq. set (id := tid t).
  set (w1 := set_now (Nat.max (now w) (due t))
               (set_timers (filter (fun u => negb (Nat.eqb (tid u) id)) (timers w)) w)).
  assert (C : calm w w1).
  { subst w1. world w. calm_fields. apply quieter_filter. }
  destruct (tcb t) as [| | | |c st] eqn:Cb;
    try (apply Inv_callback; [exact Logic.I | exact (Inv_calm _ _ C I)]).
  destruct (settle_timer_shrinks _ _ _ _ _ F Cb) as [In L]. fold id in L.
  pose proof (Inv_short _ I) as Sh.
  assert (Fl : microtasks w = [] /\ settleJobs (timers w) = [JSettled c st]).
  { unfold inflight in Sh. rewrite length_app in Sh.
    destruct (settleJobs (timers w)) as [|j [|j2 m]]; simpl in *; try lia; try contradiction.
    destruct In as [E|[]]. subst j.
    destruct (microtasks w); simpl in *; [auto | lia]. }
  destruct Fl as [Fm Fs].
  assert (S1 : settleJobs (timers w1) = []).
  { subst w1. rewrite Fs in L. simpl in L.
    assert (timers (set_now (Nat.max (now w) (due t))
              (set_timers (filter (fun u => negb (Nat.eqb (tid u) id)) (timers w)) w))
            = filter (fun u => negb (Nat.eqb (tid u) id)) (timers w)) as ->
      by (clear; world w; reflexivity).
    destruct (settleJobs (filter (fun u => negb (Nat.eqb (tid u) id)) (timers w)));
      [reflexivity | simpl in L; lia]. }
  destruct (busy (self w)) eqn:B.
  - destruct (inv_busy _ I B) as (Ch & P).
    assert (P' : c = promise (self w) /\ Z.of_nat (length (history w)) = cursor w).
    { unfold phase, inflight in P. rewrite Fm, Fs in P. simpl in P.
      destruct P as [E|[[E _]|[[st' [E Le]]|[r [E _]]]]]; try discriminate.
      injection E as E1 E2. auto. }
    destruct P' as [Pc Pl]. subst c.
    pose proof (inv_array _ I) as A.
    pose proof (inv_ticks _ I) as T. pose proof (inv_immediates _ I) as Im.
    simpl callback.
    assert (E1 : microtasks w1 = [] /\ arrays w1 = arrays w /\ chains w1 = chains w
                 /\ self w1 = self w /\ ticks w1 = ticks w /\ immediates w1 = immediates w).
    { subst w1. rewrite <- Fm. clear. world w. repeat apply conj; reflexivity. }
    destruct E1 as (M1 & A1 & C1 & Se1 & T1 & I1).
    clearbody w1. clear C L F In Sh Fs Fm Cb.
    unfold inflight, history, cursor, read in *.
    world w1. world w. subst. injection Se1 as -> -> -> -> -> -> -> -> -> -> ->.
    constructor; simpl; auto; try discriminate.
    intros _. split; [assumption|]. right. right. left. exists st.
    unfold inflight, history, cursor, read. simpl. rewrite S1. auto.
  - destruct (inv_idle _ I B) as (E & _). unfold inflight in E.
    rewrite Fm, Fs in E. discriminate.
Qed.

Lemma Forall_dropNth {A : Type} (P : A -> Prop) (k : nat) (l : list A) :
  Forall P l -> Forall P (dropNth k l).
Proof.
  intros H. revert k. induction H as [|x l Hx Hl IH]; intros [|k]; simpl; auto.
Qed.

Lemma Inv_perform (a : Action) (w w' : World) :
  Inv w -> allowed a w -> perform a w = Some w' -> Inv w'.
Proof.
  intros I Al P. destruct a; simpl in P.
  - injection P as <-. apply Inv_append, I.
  - destruct n; [contradiction|]. injection P as <-. exact I.
  - injection P as <-. apply Inv_clear; assumption.
  - injection P as <-. apply Inv_next, I.
  - injection P as <-. apply Inv_run, I.
  - injection P as <-. exact (Inv_calm _ _ (calm_stop w) I).
  - injection P as <-. exact (Inv_calm _ _ (calm_suspend duration w) I).
  - injection P as <-. exact (Inv_calm _ _ (calm_on l w) I).
  - destruct (nth_error (ticks w) k) as [cb|] eqn:N; [|discriminate].
    injection P as <-.
    pose proof (inv_ticks _ I) as T.
    apply Inv_callback.
    + rewrite Forall_forall in T. apply T. eapply nth_error_In, N.
    + refine (Inv_calm w _ _ I). world w. calm_fields.
      intros _. apply Forall_dropNth, T.
  - destruct (nth_error (microtasks w) k) as [j|] eqn:N; [|discriminate].
    injection P as <-. apply Inv_job; assumption.
  - destruct (nth_error (immediates w) k) as [cb|] eqn:N; [|discriminate].
    injection P as <-.
    pose proof (inv_immediates _ I) as T.
    apply Inv_callback.
    + rewrite Forall_forall in T. apply T. eapply nth_error_In, N.
    + refine (Inv_calm w _ _ I). world w. calm_fields.
      intros _. apply Forall_dropNth, T.
  - destruct (nth_error (timers w) k) as [t|] eqn:F; [|discriminate].
    injection P as <-. eapply Inv_fire; eassumption.
Qed.

(** The invariant holds when the constructor returns. *)
Lemma Inv_new (h : Host) (l : list SequenceStep) (o : SequenceOptions.t) :
  Inv (new h l o).
Proof.
  destruct o as [[[|]|] i [[|]|] m], h, l as [|s l];
    constructor; simpl;
    first [ lia
          | discriminate
          | solve [repeat constructor]
          | intros _; repeat apply conj;
            first [reflexivity | eexists; reflexivity] ].
Qed.

Lemma Inv_ordinary (w0 w : World) : Inv w0 -> ordinary w0 w -> Inv w.
Proof.
  intros I0 R. induction R as [|a w w' R IH Al P]; [exact I0|].
  exact (Inv_perform a w w' IH Al P).
Qed.

Lemma earliest_nth (ts : list Timer) (t : Timer) :
  earliest ts = Some t -> exists k, nth_error ts k = Some t.
Proof.
  revert t. induction ts as [|u ts IH]; intros t E; simpl in E; [discriminate|].
  destruct (earliest ts) as [v|].
  - destruct (due v <? due u).
    + injection E as <-. destruct (IH v eq_refl) as [k N]. exists (S k). exact N.
    + injection E as <-. exists 0. reflexivity.
  - injection E as <-. exists 0. reflexivity.
Qed.

(** Every turn of the loop is one of the interleavings, and an allowed one. *)
Lemma turn_perform (w w' : World) :
  turn w = Some w' -> exists a, allowed a w /\ perform a w = Some w'.
Proof.
  unfold turn. intros T.
  destruct (ticks w) as [|cb r] eqn:Ti.
  - destruct (microtasks w) as [|j m] eqn:Mi.
    + destruct (immediates w) as [|cb r] eqn:Im.
      * destruct (earliest (timers w)) as [t|] eqn:E; [|discriminate].
        destruct (earliest_nth _ _ E) as [k N].
        exists (FireTimer k). split; [exact Logic.I|]. simpl. rewrite N. exact T.
      * exists (RunImmediate 0). split; [exact Logic.I|]. simpl. rewrite Im. exact T.
    + exists (RunMicrotask 0). split; [exact Logic.I|]. simpl. rewrite Mi. exact T.
  - exists (RunTick 0). split; [exact Logic.I|]. simpl. rewrite Ti. exact T.
Qed.

Lemma ordinary_drain (w0 w : World) (n : nat) :
  ordinary w0 w -> ordinary w0 (drain n w).
Proof.
  revert w. induction n as [|n IH]; intros w R; simpl; [exact R|].
  destruct (turn w) as [w'|] eqn:T; [|exact R].
  apply IH. destruct (turn_perform _ _ T) as (a & Al & P).
  exact (ordinary_step w0 a w w' R Al P).
Qed.

Lemma ordinary_trace (l : list Action) (w0 w w' : World) :
  ordinary w0 w -> trace l w = Some w' -> ordinary w0 w'.
Proof.
  revert w. induction l as [|a l IH]; intros w R T; simpl in T.
  - injection T as <-. exact R.
  - destruct (allowedb a w) eqn:Al; [|discriminate].
    destruct (perform a w) as [w1|] eqn:P; [|discriminate].
    apply (IH w1); [|exact T].
    apply (ordinary_step w0 a w w1 R); [|exact P].
    destruct a; simpl in *; auto; try destruct n; try discriminate; auto.
    destruct (busy (self w)); [discriminate | reflexivity].
Qed.

(** C1 (as stated) fails: after one completed step, [go(0)] rewinds the
    cursor while the history keeps its record; no step is in flight. *)
Lemma C1_go_rewind_counterexample :
  let w := exec (go (Some 0%Z)) exhausted in
  busy (self w) = false
  /\ inflight w = []
  /\ length (history w) = 1
  /\ cursor w = 0%Z.
Proof. vm_compute. repeat split; reflexivity. Qed.

(** [clear()] between the callback that records and the callback that
    advances leaves the cursor one ahead of the history for good. *)
Example clear_in_flight_breaks :
  let w := performAll [RunMicrotask 0; RunMicrotask 0; CallClear; RunMicrotask 0]
             (drain 1 (new HostNextTick [resolveWith (VNum 1)] SequenceOptions.default)) in
  busy (self w) = false /\ inflight w = [] /\ length (history w) = 0 /\ cursor w = 1%Z.
Proof. vm_compute. repeat split; reflexivity. Qed.

(** C1 (amended): for every sequence, however it was constructed, and under
    every interleaving of [append], [run], [stop], [suspend], [next],
    [on], [go] without a target, and [clear()] called while no step is in
    flight, with the jobs, ticks and timers of the host run in any order:
    whenever [busy] is false the length of the history equals the cursor.
    ([go(n)] rewinds the cursor by design and is left out; so is a
    [clear()] issued while a step is in flight.) *)
Theorem C1_history_length_is_cursor (h : Host) (l : list SequenceStep)
  (o : SequenceOptions.t) (w : World) :
  ordinary (new h l o) w ->
  busy (self w) = false ->
  Z.of_nat (length (history w)) = cursor w.
Proof.
  intros R B.
  pose proof (Inv_ordinary _ _ (Inv_new h l o) R) as I.
  apply (inv_idle _ I B).
Qed.

(** The runs of the loop are among these interleavings. *)
Lemma loop_history_length_is_cursor (h : Host) (l : list SequenceStep)
  (o : SequenceOptions.t) (n : nat) :
  busy (self (drain n (new h l o))) = false ->
  Z.of_nat (length (history (drain n (new h l o)))) = cursor (drain n (new h l o)).
Proof.
  intros B.
  pose proof (ordinary_drain _ _ n (ordinary_start (new h l o))) as R.
  pose proof (Inv_ordinary _ _ (Inv_new h l o) R) as I.
  apply (inv_idle _ I B).
Qed.

Lemma C1_history_length_is_cursor_witness :
  ordinary sampleStart sampleEnd
  /\ busy (self sampleEnd) = false
  /\ length (history sampleEnd) = 2
  /\ Z.of_nat (length (history sampleEnd)) = cursor sampleEnd.
Proof.
  assert (T : trace sampleRun sampleStart = Some sampleEnd) by (vm_compute; reflexivity).
  assert (B : busy (self sampleEnd) = false) by (vm_compute; reflexivity).
  assert (L : length (history sampleEnd) = 2) by (vm_compute; reflexivity).
  assert (R : ordinary sampleStart sampleEnd).
  { exact (ordinary_trace sampleRun sampleStart sampleStart sampleEnd
             (ordinary_start sampleStart) T). }
  split; [exact R|]. split; [exact B|]. split; [exact L|].
  exact (C1_history_length_is_cursor HostNextTick _ _ sampleEnd R B).
Defined.

(** ** Runs of a whole sequence *)

Ltac rfields := cbv [atCall atLast runWorld]; fields.

(** The straight-line part of a callback, leaving [emit] folded. *)
Ltac quietly :=
  cbv [exec bind ret modify this assign skip
       enqueue setTimeout clearTimeout date discard push
       fire callback job deliver record eventOf filter negb andb orb];
  rfields; cbn [app].

Lemma emit_unfold (ev : SequenceEvent) (e : Emission) (w : World) :
  exec (emit ev e) w =
  exec (forEach (listenersOf ev (events (self w))) (fun l => listener l e))
    (set_emitted (emitted w ++ [e]) w).
Proof. reflexivity. Qed.

Lemma max_due (t d : nat) : Nat.max t (dueAt t d) = t + d.
Proof. unfold dueAt. lia. Qed.

Lemma stepEvents_one (st : Settlement) (i : Z) (t : nat) :
  [EmStep (eventOf st) (recordAt st i t) i] = stepEvents [recordAt st i t].
Proof. destruct st; reflexivity. Qed.

Lemma stepEvents_app (a b : list SequenceResult.t) :
  stepEvents (a ++ b) = stepEvents a ++ stepEvents b.
Proof. apply map_app. Qed.

(** The call of the step at the cursor: one turn, or two when its awaitable
    settles later; the clock has moved by the latency of the call. *)
Lemma run_call (h : Host) (mute : bool) (evs : list Listener) (sto : option nat)
  (l : list SequenceStep) (itv : nat) (hist : list SequenceResult.t)
  (chs : list ChainState) (nt t : nat) (em : list Emission) (s : SequenceStep) :
  nth_error l (length hist) = Some s ->
  let o := s (lastOf hist) (Z.of_nat (length hist)) hist in
  exists n nt', forall k,
    drain (n + k) (atCall h mute evs sto l itv hist chs nt t em) =
    drain k
      (runWorld h mute evs sto l itv true true (Z.of_nat (length hist)) hist
         (chs ++ [ChPending []]) (length chs)
         [JSettled (length chs) (settlement o)] [] nt' (t + latency o)
         em (indices (S (length hist))) FPending).
Proof.
  intros Hs o. subst o. rewrite indices_S.
  set (W := atCall h mute evs sto l itv hist chs nt t em).
  assert (Hst : stepAt (steps (self (set_microtasks [] W))) (cursor (set_microtasks [] W))
                = Some s).
  { subst W. rfields. rewrite stepAt_of_nat. exact Hs. }
  assert (T1 : turn W = Some (exec (invoke (length chs)) (set_microtasks [] W))).
  { apply (turn_job (JInvoke (length chs)) W); reflexivity. }
  rewrite (invoke_eq _ _ _ Hst) in T1. cbv zeta in T1.
  replace (history (set_microtasks [] W)) with hist in T1 by reflexivity.
  replace (cursor (set_microtasks [] W)) with (Z.of_nat (length hist)) in T1 by reflexivity.
  destruct (s (lastOf hist) (Z.of_nat (length hist)) hist) as [v|e|[|d] st];
    simpl settlement; simpl latency in *.
  - exists 1, nt. intros k. simpl plus. rewrite drain_S, T1, Nat.add_0_r. reflexivity.
  - exists 1, nt. intros k. simpl plus. rewrite drain_S, T1, Nat.add_0_r. reflexivity.
  - exists 1, nt. intros k. simpl plus. rewrite drain_S, T1, Nat.add_0_r. reflexivity.
  - exists 2, (S nt). intros k. simpl plus.
    rewrite drain_S, T1. rewrite drain_S.
    match goal with
    | |- context [turn ?V] =>
        rewrite (turn_timer (MkTimer nt (dueAt t (S d)) (CbSettle (length chs) st)) V)
          by reflexivity
    end.
    subst W. rewrite <- (max_due t (S d)). quietly. rewrite Nat.eqb_refl. reflexivity.
Qed.

(** The reaction to a settlement nobody listens to: the record is
    appended and the notification logged. *)
Lemma run_settled_quiet (h : Host) (mute : bool) (evs : list Listener)
  (sto : option nat) (l : list SequenceStep) (itv : nat) (run : bool) (i : Z)
  (hist : list SequenceResult.t) (chs : list ChainState) (prom c nt t : nat)
  (em : list Emission) (cl : list Z) (fu : FutureState) (st : Settlement) (k : nat) :
  listenersOf (eventOf st) evs = [] ->
  drain (S k)
    (runWorld h mute evs sto l itv run true i hist chs prom [JSettled c st] []
       nt t em cl fu) =
  drain k
    (runWorld h mute evs sto l itv run true i (hist ++ [recordAt st i t]) chs prom
       [JAdvance c (recordAt st i t)] [] nt t
       (em ++ [EmStep (eventOf st) (recordAt st i t) i]) cl fu).
Proof.
  intros Q. rewrite drain_S.
  rewrite (turn_job (JSettled c st)) by reflexivity.
  cbv [job]. rewrite settled_eq, emit_unfold.
  destruct st; cbv [eventOf] in Q |- *; quietly; rewrite Q; reflexivity.
Qed.

(** The final callback while a further step is queued: the interval timer
    is set, nothing is emitted. *)
Lemma run_advance_more (h : Host) (mute : bool) (evs : list Listener)
  (sto : option nat) (l : list SequenceStep) (itv : nat) (run : bool)
  (i : nat) (hist : list SequenceResult.t) (chs : list ChainState) (nt t : nat)
  (em : list Emission) (cl : list Z) (fu : FutureState) (r : SequenceResult.t)
  (s' : SequenceStep) (k : nat) :
  nth_error l (S i) = Some s' ->
  drain (S k)
    (runWorld h mute evs sto l itv run true (Z.of_nat i) hist (chs ++ [ChPending []])
       (length chs) [JAdvance (length chs) r] [] nt t em cl fu) =
  drain k
    (runWorld h mute evs sto l itv run false (Z.of_nat (S i)) hist
       (chs ++ [ChFulfilled (Some r)]) (length chs) []
       [MkTimer nt (dueAt t itv) CbNext] (S nt) t em cl fu).
Proof.
  intros Hs. rewrite drain_S.
  rewrite (turn_job (JAdvance (length chs) r)) by reflexivity.
  cbv [job]. rewrite advance_eq. rfields.
  replace (Z.of_nat i + 1)%Z with (Z.of_nat (S i)) by lia.
  rewrite stepAt_of_nat, Hs.
  rewrite (fulfil_pending (length chs) (Some r) [])
    by (quietly; apply nth_error_snoc).
  quietly. rewrite update_snoc, ?app_nil_r. reflexivity.
Qed.

(** The interval timer on the running sequence: the next call is queued. *)
Lemma run_next_running (h : Host) (mute : bool) (evs : list Listener)
  (sto : option nat) (l : list SequenceStep) (itv : nat)
  (hist : list SequenceResult.t) (chs : list ChainState) (p : option SequenceResult.t)
  (nt nt' t : nat) (em : list Emission) (s : SequenceStep) (k : nat) :
  nth_error l (length hist) = Some s ->
  drain (S k)
    (runWorld h mute evs sto l itv true false (Z.of_nat (length hist)) hist
       (chs ++ [ChFulfilled p]) (length chs) [] [MkTimer nt (dueAt t itv) CbNext] nt' t
       em (indices (length hist)) FPending) =
  drain k (atCall h mute evs sto l itv hist (chs ++ [ChFulfilled p]) nt' (t + itv) em).
Proof.
  intros Hs. rewrite drain_S.
  rewrite (turn_timer (MkTimer nt (dueAt t itv) CbNext)) by reflexivity.
  rewrite fire_eq. rfields. cbv [filter]. rfields.
  rewrite Nat.eqb_refl. cbv [negb]. rewrite max_due.
  match goal with
  | |- context [exec (callback CbNext) ?W] => rewrite (next_timer_starts W s p)
  end; try reflexivity.
  - rfields. rewrite stepAt_of_nat. exact Hs.
  - rfields. apply nth_error_snoc.
Qed.

(** The interval timer on a stopped sequence: nothing happens. *)
Lemma run_next_stopped (h : Host) (mute : bool) (evs : list Listener)
  (sto : option nat) (l : list SequenceStep) (itv : nat)
  (i : Z) (hist : list SequenceResult.t) (chs : list ChainState) (prom : nat)
  (nt nt' t d : nat) (em : list Emission) (cl : list Z) (fu : FutureState) (k : nat) :
  drain (S k)
    (runWorld h mute evs sto l itv false false i hist chs prom [] [MkTimer nt d CbNext]
       nt' t em cl fu) =
  runWorld h mute evs sto l itv false false i hist chs prom [] [] nt' (Nat.max t d) em cl fu.
Proof.
  rewrite drain_S.
  rewrite (turn_timer (MkTimer nt d CbNext)) by reflexivity.
  quietly. rewrite Nat.eqb_refl. quietly.
  apply drain_idle. reflexivity.
Qed.

(** One whole cycle of a step nobody listens to, when a further step is
    queued: from its call to the call of the following step. *)
Lemma run_cycle (h : Host) (mute : bool) (evs : list Listener) (sto : option nat)
  (l : list SequenceStep) (itv : nat) (hist : list SequenceResult.t)
  (chs : list ChainState) (nt t : nat) (em : list Emission) (s s' : SequenceStep) :
  nth_error l (length hist) = Some s ->
  nth_error l (S (length hist)) = Some s' ->
  let o := s (lastOf hist) (Z.of_nat (length hist)) hist in
  let r := recordAt (settlement o) (Z.of_nat (length hist)) (t + latency o) in
  listenersOf (eventOf (settlement o)) evs = [] ->
  exists n chs' nt', forall k,
    drain (n + k) (atCall h mute evs sto l itv hist chs nt t em) =
    drain k (atCall h mute evs sto l itv (hist ++ [r]) chs' nt' (t + latency o + itv)
               (em ++ stepEvents [r])).
Proof.
  intros Hs Hs' o r Q.
  destruct (run_call h mute evs sto l itv hist chs nt t em s Hs) as (n & nt1 & Hcall).
  cbv zeta in Hcall. fold o in Hcall.
  exists (n + 3), (chs ++ [ChFulfilled (Some r)]), (S nt1). intros k.
  rewrite <- Nat.add_assoc, Hcall. simpl plus.
  rewrite run_settled_quiet by exact Q. rewrite stepEvents_one. fold r.
  rewrite (run_advance_more _ _ _ _ _ _ _ _ _ _ _ _ _ _ _ _ s') by exact Hs'.
  assert (L : S (length hist) = length (hist ++ [r])) by (rewrite length_app; simpl; lia).
  rewrite L in *.
  rewrite (run_next_running _ _ _ _ _ _ _ _ _ _ _ _ _ s') by exact Hs'.
  reflexivity.
Qed.

(** The last step, nobody listening to it: from its call to its final
    callback. *)
Lemma run_last (h : Host) (mute : bool) (evs : list Listener) (sto : option nat)
  (l : list SequenceStep) (itv : nat) (hist : list SequenceResult.t)
  (chs : list ChainState) (nt t : nat) (em : list Emission) (s : SequenceStep) :
  nth_error l (length hist) = Some s ->
  let o := s (lastOf hist) (Z.of_nat (length hist)) hist in
  let r := recordAt (settlement o) (Z.of_nat (length hist)) (t + latency o) in
  listenersOf (eventOf (settlement o)) evs = [] ->
  exists n nt', forall k,
    drain (n + k) (atCall h mute evs sto l itv hist chs nt t em) =
    drain k (atLast h mute evs sto l itv true hist r chs nt' FPending
               (em ++ stepEvents [r])).
Proof.
  intros Hs o r Q.
  destruct (run_call h mute evs sto l itv hist chs nt t em s Hs) as (n & nt1 & Hcall).
  cbv zeta in Hcall. fold o in Hcall.
  exists (n + 1), nt1. intros k.
  rewrite <- Nat.add_assoc, Hcall. simpl plus.
  rewrite run_settled_quiet by exact Q. rewrite stepEvents_one. fold r.
  unfold atLast.
  replace (SequenceResult.time r) with (t + latency o)
    by (subst r; destruct (settlement o); reflexivity).
  reflexivity.
Qed.

Lemma skipn_cons_nth {A : Type} (n : nat) (l : list A) (x : A) (r : list A) :
  skipn n l = x :: r -> nth_error l n = Some x /\ skipn (S n) l = r.
Proof.
  revert l. induction n as [|n IH]; intros [|y l] H; simpl in *; try discriminate.
  - injection H as -> ->. auto.
  - apply IH. exact H.
Qed.

Lemma skipn_nil_nth {A : Type} (n : nat) (l : list A) :
  skipn n l = [] -> nth_error l n = None.
Proof.
  intros H. apply nth_error_None.
  pose proof (length_skipn n l) as L. rewrite H in L. simpl in L. lia.
Qed.

Lemma played_length (itv : nat) (l : list SequenceStep) (hist : list SequenceResult.t)
  (t : nat) :
  length (played itv l hist t) = length hist + length l.
Proof.
  revert hist t. induction l as [|s l IH]; intros hist t; simpl; [lia|].
  rewrite IH, length_app. simpl. lia.
Qed.

(** With nobody listening to the per-step events, the loop takes the
    sequence from the call of a step through every remaining step, up to
    the final callback of the last one; the history is the reference run,
    and one notification per new record was emitted. *)
Lemma run_steps (h : Host) (mute : bool) (evs : list Listener) (sto : option nat)
  (l : list SequenceStep) (itv : nat) :
  listenersOf EvSuccess evs = [] -> listenersOf EvFailed evs = [] ->
  forall (suf : list SequenceStep) (s : SequenceStep) (hist : list SequenceResult.t)
         (chs : list ChainState) (nt t : nat) (em : list Emission),
    skipn (length hist) l = s :: suf ->
    exists n front r chs' nt' news,
      played itv (s :: suf) hist t = front ++ [r]
      /\ front ++ [r] = hist ++ news
      /\ forall k,
           drain (n + k) (atCall h mute evs sto l itv hist chs nt t em) =
           drain k (atLast h mute evs sto l itv true front r chs' nt' FPending
                      (em ++ stepEvents news)).
Proof.
  intros QS QF.
  assert (Q : forall st, listenersOf (eventOf st) evs = []) by (intros []; assumption).
  induction suf as [|s' suf IH]; intros s hist chs nt t em Sk;
    destruct (skipn_cons_nth _ _ _ _ Sk) as [Hs Sk'].
  - apply skipn_nil_nth in Sk'.
    destruct (run_last h mute evs sto l itv hist chs nt t em s Hs (Q _)) as (n & nt' & R).
    eexists n, hist, _, chs, nt', [_]. split; [reflexivity|]. split; [reflexivity|].
    exact R.
  - destruct (skipn_cons_nth _ _ _ _ Sk') as [Hs' _].
    destruct (run_cycle h mute evs sto l itv hist chs nt t em s s' Hs Hs' (Q _))
      as (n1 & chs1 & nt1 & R1).
    set (o := s (lastOf hist) (Z.of_nat (length hist)) hist) in *.
    set (r := recordAt (settlement o) (Z.of_nat (length hist)) (t + latency o)) in *.
    assert (L : length (hist ++ [r]) = S (length hist)) by (rewrite length_app; simpl; lia).
    destruct (IH s' (hist ++ [r]) chs1 nt1 (t + latency o + itv) (em ++ stepEvents [r]))
      as (n2 & front & r2 & chs2 & nt2 & news & P & N & R2).
    { rewrite L. exact Sk'. }
    exists (n1 + n2), front, r2, chs2, nt2, (r :: news).
    split; [exact P|]. split.
    { rewrite N, <- app_assoc. reflexivity. }
    intros k. rewrite <- Nat.add_assoc, R1, R2.
    rewrite <- app_assoc, <- stepEvents_app. reflexivity.
Qed.

(** The final callback of the last step with nobody listening to [end]. *)
Lemma run_finish_quiet (h : Host) (mute : bool) (evs : list Listener)
  (sto : option nat) (l : list SequenceStep) (itv : nat) (run : bool)
  (hist : list SequenceResult.t) (r : SequenceResult.t) (chs : list ChainState)
  (nt : nat) (fu : FutureState) (em : list Emission) (k : nat) :
  listenersOf EvEnd evs = [] ->
  nth_error l (S (length hist)) = None ->
  drain (S k) (atLast h mute evs sto l itv run hist r chs nt fu em) =
  runWorld h mute evs sto l itv run false (Z.of_nat (S (length hist))) (hist ++ [r])
    (chs ++ [ChFulfilled (Some r)]) (length chs) [] [] nt (SequenceResult.time r)
    (em ++ [EmEnd 1 (hist ++ [r])])
    (indices (S (length hist))) fu.
Proof.
  intros Q Hs. rewrite drain_S.
  rewrite (turn_job (JAdvance (length chs) r)) by reflexivity.
  cbv [job]. rewrite advance_eq. rfields.
  replace (Z.of_nat (length hist) + 1)%Z with (Z.of_nat (S (length hist))) by lia.
  rewrite stepAt_of_nat, Hs.
  rewrite emitEnd_eq, emit_unfold. rfields. rewrite Q.
  change (exec (forEach [] ?f) ?W) with W.
  rewrite (fulfil_pending (length chs) (Some r) [])
    by (quietly; apply nth_error_snoc).
  quietly. rewrite update_snoc, ?app_nil_r.
  apply drain_idle. reflexivity.
Qed.

(** The same with one listener of [end] that resolves the combinator's
    promise with the array it is given. *)
Lemma run_finish_resolving (h : Host) (mute : bool) (evs : list Listener)
  (sto : option nat) (l : list SequenceStep) (itv : nat) (run : bool)
  (hist : list SequenceResult.t) (r : SequenceResult.t) (chs : list ChainState)
  (nt : nat) (fu : FutureState) (em : list Emission) (x : Listener) (k : nat) :
  listenersOf EvEnd evs = [x] ->
  x = ChainOnEnd \/ x = AllOnEnd ->
  nth_error l (S (length hist)) = None ->
  drain (S k) (atLast h mute evs sto l itv run hist r chs nt fu em) =
  runWorld h mute evs sto l itv run false (Z.of_nat (S (length hist))) (hist ++ [r])
    (chs ++ [ChFulfilled (Some r)]) (length chs) [] [] nt (SequenceResult.time r)
    (em ++ [EmEnd 1 (hist ++ [r])])
    (indices (S (length hist)))
    (match fu with FPending => FResolved 1 | _ => fu end).
Proof.
  intros Q X Hs. rewrite drain_S.
  rewrite (turn_job (JAdvance (length chs) r)) by reflexivity.
  cbv [job]. rewrite advance_eq. rfields.
  replace (Z.of_nat (length hist) + 1)%Z with (Z.of_nat (S (length hist))) by lia.
  rewrite stepAt_of_nat, Hs.
  rewrite emitEnd_eq, emit_unfold. rfields. rewrite Q.
  destruct X; subst x; destruct fu;
    (rewrite (fulfil_pending (length chs) (Some r) [])
       by (machine; rfields; apply nth_error_snoc));
    machine; rfields; rewrite update_snoc, ?app_nil_r;
    apply drain_idle; reflexivity.
Qed.

(** The automatic start: after the first timer the call of step 0 is the
    only job. *)
Lemma new_starts (h : Host) (s : SequenceStep) (l : list SequenceStep)
  (o : SequenceOptions.t) (k : nat) :
  SequenceOptions.autoRun o <> Some false ->
  drain (S k) (new h (s :: l) o) =
  drain k (atCall h (truthy (SequenceOptions.emitEndIfEmpty o)) [] None (s :: l)
             (intervalOf (SequenceOptions.interval o)) []
             [ChFulfilled None; ChFulfilled None] 2 0 []).
Proof.
  intros A. destruct o as [e i [[|]|] m];
    [reflexivity | exfalso; apply A; reflexivity | reflexivity].
Qed.

Lemma skipn_cons_length {A : Type} (n : nat) (l : list A) (x : A) (r : list A) :
  skipn n l = x :: r -> length l = n + S (length r).
Proof.
  intros H. pose proof (length_skipn n l) as L. rewrite H in L. simpl in L. lia.
Qed.

(** With no listener at all, the loop takes the sequence from the call of
    a step to its end: every remaining step is played, [end] is emitted
    with the full history, and the sequence is at rest, still running. *)
Lemma steps_to_end (h : Host) (mute : bool) (sto : option nat)
  (l : list SequenceStep) (itv : nat) (hist : list SequenceResult.t)
  (s : SequenceStep) (suf : list SequenceStep)
  (chs : list ChainState) (nt t : nat) (em : list Emission) :
  skipn (length hist) l = s :: suf ->
  exists n front r chs' nt' news,
    played itv (s :: suf) hist t = front ++ [r]
    /\ front ++ [r] = hist ++ news
    /\ S (length front) = length l
    /\ forall fuel, n <= fuel ->
         drain fuel (atCall h mute [] sto l itv hist chs nt t em) =
         runWorld h mute [] sto l itv
           true false (Z.of_nat (S (length front))) (front ++ [r])
           (chs' ++ [ChFulfilled (Some r)]) (length chs') [] [] nt' (SequenceResult.time r)
           ((em ++ stepEvents news) ++ [EmEnd 1 (front ++ [r])])
           (indices (S (length front))) FPending.
Proof.
  intros Sk.
  destruct (run_steps h mute [] sto l itv eq_refl eq_refl suf s hist chs nt t em Sk)
    as (n & front & r & chs' & nt' & news & P & N & R).
  exists (n + 1), front, r, chs', nt', news. split; [exact P|]. split; [exact N|].
  assert (Len : S (length front) = length l).
  { pose proof (played_length itv (s :: suf) hist t) as L. rewrite P, length_app in L.
    pose proof (skipn_cons_length _ _ _ _ Sk) as L'. simpl in L. lia. }
  split; [exact Len|].
  assert (Hn : nth_error l (S (length front)) = None).
  { apply nth_error_None. lia. }
  assert (E : drain (n + 1) (atCall h mute [] sto l itv hist chs nt t em) =
              runWorld h mute [] sto l itv
                true false (Z.of_nat (S (length front))) (front ++ [r])
                (chs' ++ [ChFulfilled (Some r)]) (length chs') [] [] nt'
                (SequenceResult.time r)
                ((em ++ stepEvents news) ++ [EmEnd 1 (front ++ [r])])
                (indices (S (length front))) FPending).
  { rewrite R. apply (run_finish_quiet _ _ [] _ _ _ _ _ _ _ _ _ _ 0 eq_refl Hn). }
  intros fuel L. rewrite <- E. apply drain_enough; [rewrite E; reflexivity | exact L].
Qed.

(** A sequence left alone ends in this world. *)
Lemma new_runs (h : Host) (s : SequenceStep) (l : list SequenceStep)
  (o : SequenceOptions.t) :
  SequenceOptions.autoRun o <> Some false ->
  let itv := intervalOf (SequenceOptions.interval o) in
  exists n front r chs nt,
    played itv (s :: l) [] 0 = front ++ [r]
    /\ length front = length l
    /\ forall fuel, n <= fuel ->
         drain fuel (new h (s :: l) o) =
         runWorld h (truthy (SequenceOptions.emitEndIfEmpty o)) [] None (s :: l) itv
           true false (Z.of_nat (S (length front))) (front ++ [r])
           (chs ++ [ChFulfilled (Some r)]) (length chs) [] [] nt (SequenceResult.time r)
           (stepEvents (front ++ [r]) ++ [EmEnd 1 (front ++ [r])])
           (indices (S (length front))) FPending.
Proof.
  intros A itv.
  destruct (steps_to_end h (truthy (SequenceOptions.emitEndIfEmpty o)) None (s :: l) itv
              [] s l [ChFulfilled None; ChFulfilled None] 2 0 [] eq_refl)
    as (n & front & r & chs & nt & news & P & N & Len & R).
  simpl in N, Len. subst news.
  exists (S n), front, r, chs, nt. split; [exact P|]. split; [lia|].
  intros fuel L. destruct fuel as [|fuel]; [lia|].
  rewrite (new_starts h s l o fuel A). apply R. lia.
Qed.

(** ** A sequence left alone *)

(** X5: a sequence constructed with at least one step and left alone (the
    automatic start not switched off) calls every step exactly once, in
    order, each with the previous record, its index and the history so far;
    the loop then is idle, the history is the reference run, [success] or
    [failed] was emitted once per record and [end] once, after them, with
    the full history; the cursor is at the end, no step is in flight and the
    sequence is still running. *)
Theorem sequence_plays_every_step (h : Host) (s : SequenceStep)
  (l : list SequenceStep) (o : SequenceOptions.t) :
  SequenceOptions.autoRun o <> Some false ->
  exists n, forall fuel, n <= fuel ->
    let w := drain fuel (new h (s :: l) o) in
    let hist := played (intervalOf (SequenceOptions.interval o)) (s :: l) [] 0 in
    idle w
    /\ history w = hist
    /\ length hist = S (length l)
    /\ calls w = indices (S (length l))
    /\ emitted w = stepEvents hist ++ [EmEnd 1 hist]
    /\ cursor w = Z.of_nat (S (length l))
    /\ busy (self w) = false
    /\ running (self w) = true.
Proof.
  intros A.
  destruct (new_runs h s l o A) as (n & front & r & chs & nt & P & Len & R).
  cbv zeta in P, R.
  exists n. intros fuel L w hist. subst w hist.
  rewrite (R fuel L), P, <- Len.
  repeat apply conj; try reflexivity.
  rewrite length_app. simpl. lia.
Qed.

Lemma sequence_plays_every_step_witness :
  SequenceOptions.autoRun SequenceOptions.default <> Some false
  /\ exists n, forall fuel, n <= fuel ->
       history (drain fuel (new HostNextTick [resolveWith (VNum 1); slowly 5 (VNum 2)]
                              SequenceOptions.default)) =
       [SequenceResult.mk SUCCEEDED 0 (Some (VNum 1)) None 0;
        SequenceResult.mk SUCCEEDED 1 (Some (VNum 2)) None 5].
Proof.
  assert (A : SequenceOptions.autoRun SequenceOptions.default <> Some false)
    by discriminate.
  split; [exact A|].
  destruct (sequence_plays_every_step HostNextTick (resolveWith (VNum 1))
              [slowly 5 (VNum 2)] SequenceOptions.default A) as (n & H).
  exists n. intros fuel L. exact (proj1 (proj2 (H fuel L))).
Defined.

(** ** [Sequence.chain] *)

Lemma chain_starts (h : Host) (s : SequenceStep) (l : list SequenceStep)
  (itv : option nat) (k : nat) :
  drain (S k) (chain h (s :: l) itv None) =
  drain k (atCall h false chainListeners None (s :: l) (intervalOf itv) []
             [ChFulfilled None; ChFulfilled None] 2 0 []).
Proof. reflexivity. Qed.

(** X6: [chain([])] is resolved with an empty history at once.  For a
    non-empty input the loop reaches an idle world in which the promise is
    resolved with the reference run: one record per step whatever the steps
    did, every step called once, in order; [chain] never rejects. *)
Theorem chain_resolves_with_every_record (h : Host) (s : SequenceStep)
  (l : list SequenceStep) (itv : option nat) :
  outcome (chain h [] itv None) = ResolvedWith []
  /\ exists n, forall fuel, n <= fuel ->
       let w := drain fuel (chain h (s :: l) itv None) in
       let hist := played (intervalOf itv) (s :: l) [] 0 in
       idle w
       /\ outcome w = ResolvedWith hist
       /\ length hist = S (length l)
       /\ calls w = indices (S (length l))
       /\ emitted w = stepEvents hist ++ [EmEnd 1 hist].
Proof.
  split; [reflexivity|].
  destruct (run_steps h false chainListeners None (s :: l) (intervalOf itv)
              eq_refl eq_refl l s [] [ChFulfilled None; ChFulfilled None] 2 0 [] eq_refl)
    as (n & front & r & chs & nt & news & P & N & R).
  simpl in N. subst news. simpl app in R.
  assert (Len : length front = length l).
  { pose proof (played_length (intervalOf itv) (s :: l) [] 0) as L.
    rewrite P, length_app in L. simpl in L. lia. }
  assert (Hn : nth_error (s :: l) (S (length front)) = None).
  { apply nth_error_None. simpl. lia. }
  assert (E : drain (S (n + 1)) (chain h (s :: l) itv None) =
              runWorld h false chainListeners None (s :: l) (intervalOf itv)
                true false (Z.of_nat (S (length front))) (front ++ [r])
                (chs ++ [ChFulfilled (Some r)]) (length chs) [] [] nt
                (SequenceResult.time r)
                (stepEvents (front ++ [r]) ++ [EmEnd 1 (front ++ [r])])
                (indices (S (length front))) (FResolved 1)).
  { rewrite chain_starts, R.
    exact (run_finish_resolving h false chainListeners None (s :: l) (intervalOf itv)
             true front r chs nt FPending _ ChainOnEnd 0
             eq_refl (or_introl eq_refl) Hn). }
  exists (S (n + 1)). intros fuel L w hist.
  assert (Ew : w = drain (S (n + 1)) (chain h (s :: l) itv None)).
  { subst w. apply drain_enough; [rewrite E; reflexivity | exact L]. }
  subst hist. rewrite Ew, E, P, <- Len.
  repeat apply conj; try reflexivity.
  rewrite length_app. simpl. lia.
Qed.

(** ** [Sequence.all] on any list of steps *)

Lemma all_starts (h : Host) (s : SequenceStep) (l : list SequenceStep)
  (itv : option nat) (k : nat) :
  drain (S k) (all h (s :: l) itv None) =
  drain k (atCall h false allListeners None (s :: l) (intervalOf itv) []
             [ChFulfilled None; ChFulfilled None] 2 0 []).
Proof. reflexivity. Qed.

(** The reaction to a rejection under [all]: the record is appended,
    [failed] is emitted, and its listener stops the sequence and rejects
    the promise with the live history. *)
Lemma all_settled_failure (h : Host) (l : list SequenceStep) (itv : nat) (i : Z)
  (hist : list SequenceResult.t) (chs : list ChainState) (prom c nt t : nat)
  (em : list Emission) (cl : list Z) (e : Value) (k : nat) :
  let r := recordAt (Rejects e) i t in
  drain (S k)
    (runWorld h false allListeners None l itv true true i hist chs prom
       [JSettled c (Rejects e)] [] nt t em cl FPending) =
  drain k
    (runWorld h false allListeners None l itv false true i (hist ++ [r]) chs prom
       [JAdvance c r] [] nt t (em ++ [EmStep EvFailed r i]) cl (FRejected 1)).
Proof.
  intros r. rewrite drain_S.
  rewrite (turn_job (JSettled c (Rejects e))) by reflexivity.
  reflexivity.
Qed.

Lemma playedAll_shape (itv : nat) (l : list SequenceStep) :
  forall (hist : list SequenceResult.t) (t : nat),
    Forall succeededRecord hist ->
    let p := playedAll itv l hist t in
    if snd p
    then fst p = played itv l hist t /\ Forall succeededRecord (fst p)
    else exists front r,
           fst p = front ++ [r] /\ Forall succeededRecord front /\ failedRecord r
           /\ length front < length hist + length l.
Proof.
  induction l as [|s l IH]; intros hist t Hh; simpl.
  - auto.
  - destruct (settlement (s (lastOf hist) (Z.of_nat (length hist)) hist)) as [v|e] eqn:E.
    + specialize (IH (hist ++ [recordAt (Fulfils v) (Z.of_nat (length hist))
                                 (t + latency (s (lastOf hist) (Z.of_nat (length hist)) hist))])
                     (t + latency (s (lastOf hist) (Z.of_nat (length hist)) hist) + itv)).
      cbv zeta in IH.
      match type of IH with ?A -> _ => assert (HA : A) end.
      { apply Forall_app. split; [exact Hh|]. constructor; [reflexivity|constructor]. }
      specialize (IH HA).
      destruct (snd (playedAll _ _ _ _)); [exact IH|].
      destruct IH as (front & r & E1 & E2 & E3 & E4).
      exists front, r. repeat apply conj; auto.
      rewrite length_app in E4. simpl in E4. lia.
    + simpl. exists hist, (recordAt (Rejects e) (Z.of_nat (length hist))
                             (t + latency (s (lastOf hist) (Z.of_nat (length hist)) hist))).
      repeat apply conj; auto; [reflexivity | lia].
Qed.

(** From the call of a step, with only successes behind it, the loop
    reaches an idle world in which [all] has ended as the reference run
    cut at the first failure says. *)
Lemma all_run (h : Host) (l : list SequenceStep) (itv : nat) :
  forall (suf : list SequenceStep) (s : SequenceStep) (hist : list SequenceResult.t)
         (chs : list ChainState) (nt t : nat) (em : list Emission),
    skipn (length hist) l = s :: suf ->
    let p := playedAll itv (s :: suf) hist t in
    exists n F,
      drain n (atCall h false allListeners None l itv hist chs nt t em) = F
      /\ idle F
      /\ outcome F = (if snd p then ResolvedWith (fst p) else RejectedWith (fst p))
      /\ history F = fst p
      /\ calls F = indices (length (fst p))
      /\ running (self F) = snd p.
Proof.
  induction suf as [|s' suf IH]; intros s hist chs nt t em Sk;
    destruct (skipn_cons_nth _ _ _ _ Sk) as [Hs Sk'];
    cbv zeta; simpl playedAll;
    set (o := s (lastOf hist) (Z.of_nat (length hist)) hist);
    destruct (settlement o) as [v|e] eqn:E.
  - (* the last step succeeds *)
    apply skipn_nil_nth in Sk'.
    destruct (run_last h false allListeners None l itv hist chs nt t em s Hs)
      as (n & nt' & R).
    { fold o. rewrite E. reflexivity. }
    cbv zeta in R. fold o in R. rewrite E in R.
    eexists (n + 1), _. split; [|split].
    + rewrite R.
      exact (run_finish_resolving h false allListeners None l itv true hist _ chs nt'
               FPending _ AllOnEnd 0 eq_refl (or_intror eq_refl) Sk').
    + reflexivity.
    + simpl. rewrite length_app. simpl length. rewrite Nat.add_1_r.
      repeat apply conj; reflexivity.
  - (* the last step fails *)
    apply skipn_nil_nth in Sk'.
    destruct (run_call h false allListeners None l itv hist chs nt t em s Hs)
      as (n & nt' & R).
    cbv zeta in R. fold o in R. rewrite E in R.
    eexists (n + 2), _. split; [|split].
    + rewrite R. rewrite all_settled_failure.
      match goal with
      | |- drain 1 (runWorld _ _ _ _ _ _ _ _ _ _ _ _ _ _ _ _ ?em' _ _) = _ =>
          exact (run_finish_resolving h false allListeners None l itv false hist
                   (recordAt (Rejects e) (Z.of_nat (length hist)) (t + latency o))
                   chs nt' (FRejected 1) em' AllOnEnd 0 eq_refl (or_intror eq_refl) Sk')
      end.
    + reflexivity.
    + simpl. rewrite length_app. simpl length. rewrite Nat.add_1_r.
      repeat apply conj; reflexivity.
  - (* a step succeeds and another follows *)
    destruct (skipn_cons_nth _ _ _ _ Sk') as [Hs' _].
    destruct (run_cycle h false allListeners None l itv hist chs nt t em s s' Hs Hs')
      as (n1 & chs1 & nt1 & R1).
    { fold o. rewrite E. reflexivity. }
    cbv zeta in R1. fold o in R1. rewrite E in R1.
    set (r := recordAt (Fulfils v) (Z.of_nat (length hist)) (t + latency o)) in *.
    assert (L : length (hist ++ [r]) = S (length hist)) by (rewrite length_app; simpl; lia).
    destruct (IH s' (hist ++ [r]) chs1 nt1 (t + latency o + itv) (em ++ stepEvents [r]))
      as (n2 & F & D & I & O); [rewrite L; exact Sk'|].
    exists (n1 + n2), F. split; [|split; assumption].
    rewrite R1. exact D.
  - (* a step fails and another would follow *)
    destruct (skipn_cons_nth _ _ _ _ Sk') as [Hs' _].
    destruct (run_call h false allListeners None l itv hist chs nt t em s Hs)
      as (n & nt' & R).
    cbv zeta in R. fold o in R. rewrite E in R.
    eexists (n + 3), _. split; [|split].
    + rewrite R. rewrite all_settled_failure.
      rewrite (run_advance_more _ _ _ _ _ _ _ _ _ _ _ _ _ _ _ _ s') by exact Hs'.
      rewrite run_next_stopped. reflexivity.
    + reflexivity.
    + simpl. rewrite length_app. simpl length. rewrite Nat.add_1_r.
      repeat apply conj; reflexivity.
Qed.

(** X7: [all] on a non-empty list of arbitrary steps: the loop reaches an idle
    world.  If every step succeeded the promise is resolved with the full
    reference run, all records [SUCCEEDED], and the sequence is still
    running.  Otherwise it is rejected with the history up to and including
    the first [FAILED] record, the sequence is stopped, and no step after
    the failing one was called. *)
Theorem all_settles_on_first_failure_or_end (h : Host) (s : SequenceStep)
  (l : list SequenceStep) (itv : option nat) :
  exists n, forall fuel, n <= fuel ->
    let w := drain fuel (all h (s :: l) itv None) in
    let p := playedAll (intervalOf itv) (s :: l) [] 0 in
    idle w
    /\ outcome w = (if snd p then ResolvedWith (fst p) else RejectedWith (fst p))
    /\ calls w = indices (length (fst p))
    /\ running (self w) = snd p
    /\ (if snd p
        then fst p = played (intervalOf itv) (s :: l) [] 0
             /\ length (fst p) = S (length l)
             /\ Forall succeededRecord (fst p)
        else exists front r,
               fst p = front ++ [r] /\ Forall succeededRecord front /\ failedRecord r
               /\ length front <= length l).
Proof.
  destruct (all_run h (s :: l) (intervalOf itv) l s [] [ChFulfilled None; ChFulfilled None]
              2 0 [] eq_refl) as (n & F & D & I & O & _ & C & Rn).
  exists (S n). intros fuel L w p.
  assert (E : drain (S n) (all h (s :: l) itv None) = F).
  { rewrite all_starts. exact D. }
  assert (Ew : w = F).
  { subst w. rewrite <- E. apply drain_enough; [rewrite E; exact I | exact L]. }
  rewrite Ew. fold p in O, C, Rn.
  repeat apply conj; try assumption.
  pose proof (playedAll_shape (intervalOf itv) (s :: l) [] 0 (Forall_nil _)) as Sh.
  cbv zeta in Sh. fold p in Sh.
  destruct (snd p).
  - destruct Sh as [Sh1 Sh2]. repeat apply conj; auto.
    rewrite Sh1, played_length. reflexivity.
  - destruct Sh as (front & r & E1 & E2 & E3 & E4).
    exists front, r. repeat apply conj; auto. simpl in E4. lia.
Qed.

(** ** Suspending before the start *)




(** ** After the last step *)

(** [next] on a sequence that has steps but none at the cursor. *)
Lemma next_past_the_end (inner : bool) (w : World) (s : SequenceStep)
  (l : list SequenceStep) :
  negb inner && running (self w) = false ->
  busy (self w) = false ->
  suspended (self w) = false ->
  steps (self w) = s :: l ->
  stepAt (steps (self w)) (cursor w) = None ->
  next inner w = (NRejected noMoreSteps, w).
Proof.
  intros Hin Hb Hs Hl Hst. unfold cursor in *. world w. subst.
  unfold next, bind, this, ret.
  cbn [fst snd self running busy suspended steps index orb].
  rewrite Hin. cbn [length Nat.eqb]. rewrite Hst. reflexivity.
Qed.

(** X9: once a sequence has run all its steps, [next] has nothing to give: the
    internal call is rejected with errno 1, "no more steps.", and so is a
    call from outside after [stop()]; neither changes anything. *)
Theorem finished_sequence_has_no_more_steps (h : Host) (s : SequenceStep)
  (l : list SequenceStep) (o : SequenceOptions.t) :
  SequenceOptions.autoRun o <> Some false ->
  exists n, forall fuel, n <= fuel ->
    let w := drain fuel (new h (s :: l) o) in
    next true w = (NRejected noMoreSteps, w)
    /\ next false (exec stop w) = (NRejected noMoreSteps, exec stop w)
    /\ errno noMoreSteps = 1%Z.
Proof.
  intros A.
  destruct (new_runs h s l o A) as (n & front & r & chs & nt & P & Len & R).
  cbv zeta in R.
  exists n. intros fuel L w. subst w. rewrite (R fuel L).
  assert (Hst : stepAt (s :: l) (Z.of_nat (S (length front))) = None).
  { rewrite stepAt_of_nat. apply nth_error_None. simpl. lia. }
  repeat apply conj; [| |reflexivity].
  - apply (next_past_the_end true _ s l); try reflexivity. exact Hst.
  - apply (next_past_the_end false _ s l); try reflexivity. exact Hst.
Qed.

Lemma finished_sequence_has_no_more_steps_witness :
  SequenceOptions.autoRun SequenceOptions.default <> Some false
  /\ exists n, forall fuel, n <= fuel ->
       fst (next true (drain fuel (new HostNextTick [resolveWith (VNum 1)]
                                     SequenceOptions.default))) =
       NRejected noMoreSteps.
Proof.
  assert (A : SequenceOptions.autoRun SequenceOptions.default <> Some false)
    by discriminate.
  split; [exact A|].
  destruct (finished_sequence_has_no_more_steps HostNextTick (resolveWith (VNum 1)) []
              SequenceOptions.default A) as (n & H).
  exists n. intros fuel L. rewrite (proj1 (H fuel L)). reflexivity.
Defined.

(** X10: [run()] and the resume of [suspend()] drop the promise that [next]
    returns.  On a finished sequence that promise is the rejection "no more
    steps.": [stop()] followed by [run()] leaves it unhandled, and so does
    the resume timer of a [suspend()]; in both cases no step is called and
    nothing else is scheduled. *)
Theorem restart_after_the_end_is_unhandled (h : Host) (s : SequenceStep)
  (l : list SequenceStep) (o : SequenceOptions.t) (duration : option nat) :
  SequenceOptions.autoRun o <> Some false ->
  exists n, forall fuel, n <= fuel ->
    let w := drain fuel (new h (s :: l) o) in
    let w1 := exec run (exec stop w) in
    let w2 := drain 1 (exec (suspend duration) w) in
    unhandled w = []
    /\ (unhandled w1 = [noMoreSteps] /\ idle w1 /\ calls w1 = calls w
        /\ history w1 = history w /\ running (self w1) = true)
    /\ (unhandled w2 = [noMoreSteps] /\ idle w2 /\ calls w2 = calls w
        /\ history w2 = history w /\ suspended (self w2) = false).
Proof.
  intros A.
  destruct (new_runs h s l o A) as (n & front & r & chs & nt & P & Len & R).
  cbv zeta in R.
  exists n. intros fuel L w. subst w. rewrite (R fuel L).
  assert (Hst : stepAt (s :: l) (Z.of_nat (S (length front))) = None).
  { rewrite stepAt_of_nat. apply nth_error_None. simpl. lia. }
  set (F := runWorld _ _ _ _ _ _ _ _ _ _ _ _ _ _ _ _ _ _ _).
  cbv zeta. split; [reflexivity|]. split.
  - assert (E : exec run (exec stop F) =
                set_unhandled [noMoreSteps] F).
    { rewrite stop_eq.
      set (G := set_self _ _).
      assert (N : next true (set_self (set_running true (self G)) G) =
                  (NRejected noMoreSteps, set_self (set_running true (self G)) G)).
      { apply (next_past_the_end true _ s l); try reflexivity. exact Hst. }
      unfold exec at 1, run, bind, this, assign, modify.
      cbn [fst snd]. change (running (self G)) with false. cbv iota.
      cbn [fst snd]. rewrite N. reflexivity. }
    rewrite E. repeat apply conj; reflexivity.
  - assert (E : drain 1 (exec (suspend duration) F) =
                set_unhandled [noMoreSteps]
                  (set_self (set_suspendTimeout (Some nt) (self F))
                     (set_nextTimer (S nt)
                        (set_now (Nat.max (now F) (dueAt (now F) (durationOf duration))) F)))).
    { rewrite drain_S.
      rewrite (turn_timer (MkTimer nt (dueAt (now F) (durationOf duration)) CbResume))
        by (destruct duration; reflexivity).
      rewrite fire_eq.
      set (G := set_now _ _).
      assert (G' : G = set_self (set_suspended true (set_suspendTimeout (Some nt) (self F)))
                     (set_nextTimer (S nt)
                        (set_now (Nat.max (now F) (dueAt (now F) (durationOf duration))) F))).
      { subst G F. destruct duration; cbv [suspend durationOf]; quietly;
          rewrite Nat.eqb_refl; reflexivity. }
      rewrite G'. clear G G'.
      set (G := set_self _ _).
      assert (N : next true (set_self (set_suspended false (self G)) G) =
                  (NRejected noMoreSteps, set_self (set_suspended false (self G)) G)).
      { apply (next_past_the_end true _ s l); try reflexivity. exact Hst. }
      cbn [tcb callback].
      unfold exec, bind, this, assign, modify.
      cbn [fst snd]. change (running (self (set_self (set_suspended false (self G)) G))) with true.
      cbv iota. cbn [fst snd]. rewrite N. reflexivity. }
    rewrite E. repeat apply conj; reflexivity.
Qed.

Lemma restart_after_the_end_is_unhandled_witness :
  SequenceOptions.autoRun SequenceOptions.default <> Some false
  /\ exists n, forall fuel, n <= fuel ->
       unhandled (exec run (exec stop
         (drain fuel (new HostNextTick [resolveWith (VNum 1)] SequenceOptions.default)))) =
       [noMoreSteps].
Proof.
  assert (A : SequenceOptions.autoRun SequenceOptions.default <> Some false)
    by discriminate.
  split; [exact A|].
  destruct (restart_after_the_end_is_unhandled HostNextTick (resolveWith (VNum 1)) []
              SequenceOptions.default None A) as (n & H).
  exists n. intros fuel L. exact (proj1 (proj1 (proj2 (H fuel L)))).
Defined.

(** What [clear] leaves behind. *)
Lemma clear_parts (w : World) :
  history (exec clear w) = []
  /\ cursor (exec clear w) = 0%Z
  /\ steps (self (exec clear w)) = []
  /\ results (self (exec clear w)) = length (arrays w)
  /\ emitted (exec clear w) = emitted w.
Proof.
  rewrite clear_eq. unfold history, cursor, read. simpl.
  repeat split; try reflexivity. apply nth_snoc.
Qed.

(** ** [suspend], [stop] and [run] around a step *)

(** [suspend] in closed form. *)
Lemma suspend_eq (duration : option nat) (w : World) :
  exec (suspend duration) w =
  set_self (set_suspendTimeout (Some (nextTimer w)) (set_suspended true (self w)))
    (set_nextTimer (S (nextTimer w))
       (set_timers (cancel (suspendTimeout (self w)) (timers w)
                      ++ [MkTimer (nextTimer w) (dueAt (now w) (durationOf duration)) CbResume])
          w)).
Proof. world w. destruct suspendTimeout0, duration; reflexivity. Qed.

(** X11: [suspend(d)] on a running sequence that could advance: the sequence is
    suspended and exactly one resume timer is pending, the one of an earlier
    [suspend] being cancelled.  While it is suspended nothing starts the
    step: [next], the interval timer and [run()] leave the world as it is.
    When the resume timer fires the suspension ends and the step at the
    cursor is started. *)
Theorem suspend_defers_the_next_step (w : World) (duration : option nat)
  (s : SequenceStep) (p : option SequenceResult.t) :
  running (self w) = true ->
  busy (self w) = false ->
  stepAt (steps (self w)) (cursor w) = Some s ->
  nth_error (chains w) (promise (self w)) = Some (ChFulfilled p) ->
  let w1 := exec (suspend duration) w in
  let w2 := exec (callback CbResume) w1 in
  suspended (self w1) = true
  /\ timers w1 =
       cancel (suspendTimeout (self w)) (timers w)
         ++ [MkTimer (nextTimer w) (dueAt (now w) (durationOf duration)) CbResume]
  /\ suspendTimeout (self w1) = Some (nextTimer w)
  /\ next true w1 = (NPromise (promise (self w)), w1)
  /\ exec (callback CbNext) w1 = w1
  /\ exec run w1 = w1
  /\ suspended (self w2) = false
  /\ busy (self w2) = true
  /\ microtasks w2 = microtasks w ++ [JInvoke (length (chains w))]
  /\ calls w2 = calls w.
Proof.
  intros Hr Hb Hst Hch w1 w2.
  assert (E1 : w1 = set_self (set_suspendTimeout (Some (nextTimer w))
                                (set_suspended true (self w)))
                 (set_nextTimer (S (nextTimer w))
                    (set_timers (cancel (suspendTimeout (self w)) (timers w)
                       ++ [MkTimer (nextTimer w) (dueAt (now w) (durationOf duration))
                             CbResume]) w))).
  { subst w1. apply suspend_eq. }
  assert (N : next true w1 = (NPromise (promise (self w)), w1)).
  { rewrite E1. unfold cursor in *. world w. subst.
    unfold next, bind, this, ret. cbn [fst snd self running busy suspended promise negb andb orb].
    reflexivity. }
  assert (E2 : w2 =
    let v := set_self (set_suspended false (self w1)) w1 in
    set_self (set_promise (length (chains v)) (set_busy true (self v)))
      (set_microtasks (microtasks v ++ [JInvoke (length (chains v))])
         (set_chains (chains v ++ [ChPending []]) v))).
  { subst w2. cbv zeta.
    set (v := set_self (set_suspended false (self w1)) w1).
    assert (Nv : next true v =
      (NPromise (length (chains v)),
       set_self (set_promise (length (chains v)) (set_busy true (self v)))
         (set_microtasks (microtasks v ++ [JInvoke (length (chains v))])
            (set_chains (chains v ++ [ChPending []]) v)))).
    { apply (next_starts true v s p); subst v; rewrite E1; unfold cursor in *;
        world w; auto. }
    unfold exec, callback, bind, this, assign, modify. cbn [fst snd]. fold v.
    replace (running (self v)) with true
      by (subst v; rewrite E1; world w; congruence).
    cbn [fst snd]. rewrite Nv. reflexivity. }
  repeat apply conj.
  - rewrite E1. world w. reflexivity.
  - rewrite E1. world w. reflexivity.
  - rewrite E1. world w. reflexivity.
  - exact N.
  - unfold exec, callback, bind, this. cbn [fst snd].
    replace (running (self w1)) with true by (rewrite E1; world w; congruence).
    cbn [fst snd]. rewrite N. reflexivity.
  - unfold exec, run, bind, this. cbn [fst snd].
    replace (running (self w1)) with true by (rewrite E1; world w; congruence).
    reflexivity.
  - rewrite E2, E1. world w. reflexivity.
  - rewrite E2, E1. world w. reflexivity.
  - rewrite E2, E1. world w. reflexivity.
  - rewrite E2, E1. world w. reflexivity.
Qed.

Lemma suspend_defers_the_next_step_witness :
  running (self betweenSteps) = true
  /\ busy (self betweenSteps) = false
  /\ stepAt (steps (self betweenSteps)) (cursor betweenSteps) = Some (resolveWith (VNum 2))
  /\ suspended (self (exec (suspend (Some 50)) betweenSteps)) = true.
Proof.
  split; [reflexivity|]. split; [reflexivity|]. split; [reflexivity|].
  exact (proj1 (suspend_defers_the_next_step betweenSteps (Some 50)
           (resolveWith (VNum 2))
           (Some (SequenceResult.mk SUCCEEDED 0 (Some (VNum 1)) None 0))
           eq_refl eq_refl eq_refl eq_refl)).
Defined.

(** X12: [stop()] followed at once by [run()] while a step is in flight
    does not call the step again and leaves its callbacks, the queues and
    every other field as they were.  The one trace it leaves is that of
    [stop]: a resume handle the instance still held (that of an earlier
    [suspend] whose timer has fired, say) is forgotten, and its timer, were
    it still pending, is cancelled.  With no handle held the world is
    exactly the one before. *)
Theorem stop_then_run_in_flight (w : World) :
  running (self w) = true ->
  busy (self w) = true ->
  suspended (self w) = false ->
  exec run (exec stop w) =
    set_self (set_suspendTimeout None (self w))
      (set_timers (cancel (suspendTimeout (self w)) (timers w)) w)
  /\ (suspendTimeout (self w) = None -> exec run (exec stop w) = w).
Proof.
  intros Hr Hb Hs.
  assert (E : exec run (exec stop w) =
              set_self (set_suspendTimeout None (self w))
                (set_timers (cancel (suspendTimeout (self w)) (timers w)) w)).
  { rewrite stop_eq. world w. subst.
    unfold exec, run, bind, this, assign, modify, next, ret, discard, skip.
    cbn. reflexivity. }
  split; [exact E|].
  intros Ht. rewrite E. world w. subst. reflexivity.
Qed.

Lemma stop_then_run_in_flight_witness :
  running (self resumedInFlight) = true
  /\ busy (self resumedInFlight) = true
  /\ suspended (self resumedInFlight) = false
  /\ suspendTimeout (self resumedInFlight) = Some 3
  /\ exec run (exec stop resumedInFlight) =
       set_self (set_suspendTimeout None (self resumedInFlight))
         (set_timers (cancel (suspendTimeout (self resumedInFlight))
                        (timers resumedInFlight)) resumedInFlight).
Proof.
  split; [reflexivity|]. split; [reflexivity|]. split; [reflexivity|].
  split; [reflexivity|].
  exact (proj1 (stop_then_run_in_flight resumedInFlight eq_refl eq_refl eq_refl)).
Defined.

(** ** Replaying a step with [go] *)

Lemma stepAt_range (l : list SequenceStep) (i : Z) (s : SequenceStep) :
  stepAt l i = Some s -> (0 <= i < Z.of_nat (length l))%Z.
Proof.
  unfold stepAt. destruct (i <? 0)%Z eqn:E; [discriminate|].
  intros H. apply Z.ltb_ge in E.
  assert (Z.to_nat i < length l) by (apply nth_error_Some; congruence).
  lia.
Qed.

(** X13: the retry of the repository's test: [go(index - 1)] called from a
    listener, between the callback that records the step at the cursor and
    the final callback, makes the final callback land on the same index:
    the cursor is where it was, the same step is at the cursor again, the
    interval timer is set to call it, and no [end] is emitted; the record
    of the first attempt stays in the history.  At index 0 the target is -1. *)
Theorem go_back_replays_the_step (w : World) (c : nat) (r : SequenceResult.t)
  (s : SequenceStep) :
  stepAt (steps (self w)) (cursor w) = Some s ->
  let w1 := exec (go (Some (cursor w - 1)%Z)) w in
  let w2 := exec (advance c r) w1 in
  cursor w1 = (cursor w - 1)%Z
  /\ cursor w2 = cursor w
  /\ stepAt (steps (self w2)) (cursor w2) = Some s
  /\ history w2 = history w
  /\ busy (self w2) = false
  /\ timers w2 = timers w ++ [MkTimer (nextTimer w) (dueAt (now w) (interval (self w))) CbNext]
  /\ emitted w2 = emitted w.
Proof.
  intros Hst w1 w2.
  pose proof (stepAt_range _ _ _ Hst) as Rg.
  assert (E1 : w1 = set_self (set_index (cursor w - 1)%Z (self w)) w).
  { subst w1. rewrite go_self. rewrite Z.min_l by lia. reflexivity. }
  assert (Hst1 : stepAt (steps (self w1)) (cursor w1 + 1) = Some s).
  { rewrite E1. unfold cursor in *. world w.
    replace (index0 - 1 + 1)%Z with index0 by lia. exact Hst. }
  destruct (advance_frame c r w1) as (C & B & H & _ & _ & _ & S & _).
  destruct (advance_schedules c r w1 s Hst1) as (T & Em & _).
  fold w2 in C, B, H, S, T, Em.
  assert (Cw : cursor w2 = cursor w).
  { rewrite C, E1. unfold cursor. world w. lia. }
  repeat apply conj.
  - rewrite E1. unfold cursor. world w. reflexivity.
  - exact Cw.
  - rewrite Cw, S, E1. world w. exact Hst.
  - rewrite H, E1. unfold history, read. world w. reflexivity.
  - exact B.
  - rewrite T, E1. world w. reflexivity.
  - rewrite Em, E1. world w. reflexivity.
Qed.

Lemma go_back_replays_the_step_witness :
  stepAt (steps (self beingRecorded)) (cursor beingRecorded) = Some (resolveWith (VNum 1))
  /\ cursor beingRecorded = 0%Z
  /\ cursor (exec (go (Some (cursor beingRecorded - 1)%Z)) beingRecorded) = (-1)%Z
  /\ cursor (exec (advance 2 (SequenceResult.mk SUCCEEDED 0 (Some (VNum 1)) None 0))
               (exec (go (Some (cursor beingRecorded - 1)%Z)) beingRecorded)) = 0%Z.
Proof.
  split; [reflexivity|]. split; [reflexivity|]. split; [reflexivity|].
  exact (proj1 (proj2 (go_back_replays_the_step beingRecorded 2
           (SequenceResult.mk SUCCEEDED 0 (Some (VNum 1)) None 0)
           (resolveWith (VNum 1)) eq_refl))).
Defined.

(** ** [clear] while a step is in flight *)

(** After the last step the final callback emits [end] with the history
    array of the instance. *)
Lemma advance_ends (c : nat) (r : SequenceResult.t) (w : World) :
  stepAt (steps (self w)) (cursor w + 1) = None ->
  emitted (exec (advance c r) w) =
    emitted w ++ [EmEnd (results (self w)) (history w)].
Proof.
  intros H. rewrite advance_eq, H, emitEnd_eq.
  destruct (emit_cases EvEnd (EmEnd (results (self (bumped w))) (history (bumped w)))
              (bumped w)) as [f [E|E]]; cbv zeta in E; rewrite E;
    match goal with |- context [exec (fulfil c (Some r)) ?W] =>
      destruct (fulfil_frame c (Some r) W) as (ch & mt & F); rewrite F end;
    rewrite ?stop_eq; unfold history, read; world w; reflexivity.
Qed.

(** The callback that records does not replace the history array. *)
Lemma settled_results (c : nat) (st : Settlement) (w : World) :
  results (self (exec (settled c st) w)) = results (self w).
Proof.
  rewrite settled_eq.
  destruct (emit_cases (eventOf st) (EmStep (eventOf st) (record st w) (cursor w))
              (exec (push (results (self w)) (record st w)) w)) as [f [E|E]];
    cbv zeta in E; rewrite E; rewrite ?stop_eq; world w; reflexivity.
Qed.

Lemma stepAt_nil (i : Z) : stepAt [] i = None.
Proof.
  unfold stepAt. destruct (i <? 0)%Z; [reflexivity|].
  destruct (Z.to_nat i); reflexivity.
Qed.

(** X4: [clear()] called while a step is in flight does not stop its
    callbacks.  It leaves an instance with no steps, cursor 0 and a fresh,
    empty history array, and touches neither the jobs and timers of the
    host nor what was emitted.  On an instance in that state, whatever else
    the host holds, each callback of the step that is still to come does
    its work on the fresh fields.
    - The callback that calls the step finds none at the cursor, calls
      nothing and goes on as for a step that returned [undefined].
    - The callback that records makes the record for index 0 and pushes it
      on the fresh array, and its notification is emitted; the final
      callback then moves the cursor to 1, clears [busy] and, the queue
      being empty, emits [end] with that one record.
    - When the record was made before [clear()], the final callback alone
      runs: cursor 1, [busy] cleared, [end] emitted with the fresh, empty
      history.
    Either way the sequence ends up at rest with no steps and cursor 1. *)
Theorem clear_in_flight_desynchronises (w : World) :
  let v0 := exec clear w in
  (steps (self v0) = []
   /\ cursor v0 = 0%Z
   /\ history v0 = []
   /\ results (self v0) = length (arrays w)
   /\ results (self v0) < length (arrays v0)
   /\ microtasks v0 = microtasks w
   /\ timers v0 = timers w
   /\ emitted v0 = emitted w
   /\ calls v0 = calls w)
  /\
  forall (v : World) (c : nat) (st : Settlement) (r : SequenceResult.t),
    steps (self v) = [] ->
    cursor v = 0%Z ->
    history v = [] ->
    results (self v) < length (arrays v) ->
    (exec (invoke c) v = exec (enqueue (JSettled c (Fulfils VUndefined))) v
     /\ calls (exec (invoke c) v) = calls v)
    /\
    (let r0 := recordAt st 0 (now v) in
     let v1 := exec (settled c st) v in
     let w' := exec (advance c r0) v1 in
     microtasks v1 = microtasks v ++ [JAdvance c r0]
     /\ history v1 = [r0]
     /\ busy (self w') = false
     /\ history w' = [r0]
     /\ steps (self w') = []
     /\ cursor w' = 1%Z
     /\ emitted w' =
          emitted v ++ [EmStep (eventOf st) r0 0; EmEnd (results (self v)) [r0]])
    /\
    (let w' := exec (advance c r) v in
     busy (self w') = false
     /\ history w' = []
     /\ steps (self w') = []
     /\ cursor w' = 1%Z
     /\ emitted w' = emitted v ++ [EmEnd (results (self v)) []]).
Proof.
  intros v0. split.
  { subst v0. rewrite clear_eq. unfold history, cursor, read. simpl.
    repeat split; try reflexivity.
    - apply nth_snoc.
    - rewrite length_app. simpl. lia. }
  intros v c st r Vs Vc Vh Hreg.
  assert (R0 : record st v = recordAt st 0 (now v)).
  { unfold record, recordAt. rewrite Vc. reflexivity. }
  split; [|split].
  - assert (E : exec (invoke c) v =
                exec (enqueue (JSettled c (Fulfils VUndefined))) v).
    { unfold cursor in Vc. world v. subst.
      unfold invoke, exec, bind, this.
      cbn [fst snd self index steps results]. rewrite stepAt_nil. reflexivity. }
    split; [exact E|]. rewrite E. world v. reflexivity.
  - intros r0 v1 w'.
    destruct (settled_records c st v Hreg) as (H1 & E1 & M1 & C1 & _ & S1 & _).
    pose proof (settled_results c st v) as R1.
    rewrite R0 in H1, E1, M1. fold r0 v1 in H1, E1, M1, C1, S1, R1.
    destruct (advance_frame c r0 v1) as (C & B & H & _ & _ & _ & S & _).
    fold w' in C, B, H, S.
    assert (N : stepAt (steps (self v1)) (cursor v1 + 1) = None)
      by (rewrite S1, Vs; apply stepAt_nil).
    pose proof (advance_ends c r0 v1 N) as E. fold w' in E.
    repeat apply conj.
    + exact M1.
    + rewrite H1, Vh. reflexivity.
    + exact B.
    + rewrite H, H1, Vh. reflexivity.
    + rewrite S, S1. exact Vs.
    + rewrite C, C1, Vc. reflexivity.
    + rewrite E, E1, H1, R1, Vh, Vc, <- app_assoc. reflexivity.
  - intros w'.
    destruct (advance_frame c r v) as (C & B & H & _ & _ & _ & S & _).
    fold w' in C, B, H, S.
    assert (N : stepAt (steps (self v)) (cursor v + 1) = None)
      by (rewrite Vs; apply stepAt_nil).
    pose proof (advance_ends c r v N) as E. fold w' in E.
    repeat apply conj.
    + exact B.
    + rewrite H. exact Vh.
    + rewrite S. exact Vs.
    + rewrite C, Vc. reflexivity.
    + rewrite E, Vh. reflexivity.
Qed.

(** ** One step at a time *)

(** X14: under every interleaving of allowed calls with the work of the host, at
    most one callback of a step is pending (the call, the reaction to the
    settlement, the final callback, or the host's timer of an awaitable that
    has not settled), and only while [busy] is set; while [busy] is set the
    promise returned by [next] is pending. *)
Theorem at_most_one_step_in_flight (h : Host) (l : list SequenceStep)
  (o : SequenceOptions.t) (w : World) :
  ordinary (new h l o) w ->
  length (inflight w) <= 1
  /\ (inflight w <> [] -> busy (self w) = true)
  /\ (busy (self w) = true ->
      nth_error (chains w) (promise (self w)) = Some (ChPending [])).
Proof.
  intros R.
  pose proof (Inv_ordinary _ _ (Inv_new h l o) R) as I.
  split; [exact (Inv_short _ I)|]. split.
  - intros N. destruct (busy (self w)) eqn:B; [reflexivity|].
    destruct (inv_idle _ I B) as (E & _). contradiction.
  - intros B. exact (proj1 (inv_busy _ I B)).
Qed.

Lemma at_most_one_step_in_flight_witness :
  ordinary (new HostNextTick [slowly 20 (VStr "step1")] SequenceOptions.default) inFlight
  /\ inflight inFlight = [JSettled 2 (Fulfils (VStr "step1"))]
  /\ length (inflight inFlight) <= 1.
Proof.
  assert (R : ordinary (new HostNextTick [slowly 20 (VStr "step1")] SequenceOptions.default)
                inFlight).
  { apply ordinary_drain, ordinary_start. }
  split; [exact R|]. split; [reflexivity|].
  exact (proj1 (at_most_one_step_in_flight HostNextTick _ _ inFlight R)).
Defined.

(** ** The records of the history *)

Lemma history_next (inner : bool) (w : World) :
  history (exec (next inner) w) = history w.
Proof.
  destruct (next_cases inner w) as [C|(_ & s & _ & E)].
  - exact (history_calm _ _ C).
  - rewrite E. unfold history, read. world w.
    unfold exec, bind, thenInvoke, assign, modify. simpl.
    destruct (nth_error chains0 promise0) as [[| |]|]; reflexivity.
Qed.

Lemma history_next_discard (w : World) :
  history (exec (r <- next true ;; discard r) w) = history w.
Proof.
  change (exec (r <- next true ;; discard r) w)
    with (exec (discard (fst (next true w))) (exec (next true) w)).
  rewrite (history_calm _ _ (calm_discard _ _)). apply history_next.
Qed.

Lemma history_run (w : World) : history (exec run w) = history w.
Proof.
  assert (E : exec run w =
    if running (self w) then w
    else exec (r <- next true ;; discard r) (set_self (set_running true (self w)) w)).
  { world w. unfold exec, run, bind, this. cbn [fst snd self running].
    destruct running0; reflexivity. }
  rewrite E. destruct (running (self w)); [reflexivity|].
  rewrite history_next_discard. unfold history, read. world w. reflexivity.
Qed.

Lemma history_append (arg : StepsArg) (w : World) :
  history (exec (append arg) w) = history w.
Proof.
  rewrite append_eq. cbv zeta.
  destruct (running (self w) && _); [rewrite history_next_discard|];
    unfold history, read; world w; reflexivity.
Qed.

Lemma history_callback (cb : Callback) (w : World) :
  history (exec (callback cb) w) = history w.
Proof.
  destruct cb; simpl callback.
  - apply history_run.
  - exact (history_calm _ _ (calm_emitEnd w)).
  - assert (E : exec (s <- this ;; if running s then r <- next true ;; discard r else skip) w
               = if running (self w) then exec (r <- next true ;; discard r) w else w).
    { world w. unfold exec, bind, this. cbn [fst snd self running].
      destruct running0; reflexivity. }
    rewrite E. destruct (running (self w)); [apply history_next_discard | reflexivity].
  - set (w1 := set_self (set_suspended false (self w)) w).
    assert (E : exec (assign (set_suspended false) ;; s <- this ;;
                      if running s then r <- next true ;; discard r else skip) w
               = if running (self w1) then exec (r <- next true ;; discard r) w1 else w1).
    { subst w1. world w. unfold exec, bind, this, assign, modify.
      cbn [fst snd self running set_self set_suspended].
      destruct running0; reflexivity. }
    rewrite E.
    assert (H1 : history w1 = history w) by (subst w1; unfold history, read; world w; reflexivity).
    destruct (running (self w1)); [rewrite history_next_discard|]; exact H1.
  - unfold history, read. world w. reflexivity.
Qed.

Lemma history_invoke (c : nat) (w : World) :
  history (exec (invoke c) w) = history w.
Proof.
  destruct (stepAt (steps (self w)) (cursor w)) as [s|] eqn:E.
  - rewrite (invoke_eq c w s E). cbv zeta.
    destruct (latency _); unfold history, read; world w; reflexivity.
  - rewrite (invoke_none c w E). unfold history, read. world w. reflexivity.
Qed.

(** What one allowed action can do to the history: nothing, empty it
    ([clear]), or append the record of the step at the cursor. *)
Lemma history_perform (a : Action) (w w' : World) :
  Inv w -> allowed a w -> perform a w = Some w' ->
  history w' = history w
  \/ history w' = []
  \/ exists st t,
       history w' = history w ++ [recordAt st (Z.of_nat (length (history w))) t].
Proof.
  intros I Al P. destruct a; simpl in P.
  - injection P as <-. left. apply history_append.
  - destruct n; [contradiction|]. injection P as <-. left. reflexivity.
  - injection P as <-. right. left. exact (proj1 (clear_parts w)).
  - injection P as <-. left. apply history_next.
  - injection P as <-. left. apply history_run.
  - injection P as <-. left. exact (history_calm _ _ (calm_stop w)).
  - injection P as <-. left. exact (history_calm _ _ (calm_suspend duration w)).
  - injection P as <-. left. exact (history_calm _ _ (calm_on l w)).
  - destruct (nth_error (ticks w) k) as [cb|] eqn:N; [|discriminate].
    injection P as <-. left. rewrite history_callback.
    unfold history, read. world w. reflexivity.
  - destruct (nth_error (microtasks w) k) as [j|] eqn:N; [|discriminate].
    injection P as <-.
    destruct (Inv_alone w k j I N) as (B & M & K & S & Ch & Ph).
    pose proof (inv_array _ I) as A.
    set (w1 := set_microtasks (dropNth k (microtasks w)) w).
    assert (C1 : history w1 = history w /\ cursor w1 = cursor w
                 /\ results (self w1) < length (arrays w1)).
    { subst w1. unfold history, cursor, read in *. world w. auto. }
    destruct C1 as (H1 & Cu1 & A1).
    destruct Ph as [[J L]|[[st [J L]]|[r [J L]]]]; subst j; simpl job.
    + left. rewrite history_invoke. exact H1.
    + right. right. exists st, (now w1).
      destruct (settled_records (promise (self w)) st w1 A1) as (Hh & _).
      rewrite Hh, H1. unfold record. rewrite Cu1, <- L.
      destruct st; reflexivity.
    + left. destruct (advance_frame (promise (self w)) r w1) as (_ & _ & Hh & _).
      rewrite Hh. exact H1.
  - destruct (nth_error (immediates w) k) as [cb|] eqn:N; [|discriminate].
    injection P as <-. left. rewrite history_callback.
    unfold history, read. world w. reflexivity.
  - destruct (nth_error (timers w) k) as [t|] eqn:F; [|discriminate].
    injection P as <-. left. rewrite fire_eq, history_callback.
    unfold history, read. world w. reflexivity.
Qed.

Lemma wellFormedHistory_snoc (hs : list SequenceResult.t) (st : Settlement) (t : nat) :
  wellFormedHistory hs ->
  wellFormedHistory (hs ++ [recordAt st (Z.of_nat (length hs)) t]).
Proof.
  intros H k r N.
  destruct (Nat.lt_ge_cases k (length hs)) as [L|L].
  - rewrite nth_error_app1 in N by exact L. apply H, N.
  - rewrite nth_error_app2 in N by exact L.
    destruct (k - length hs) as [|d] eqn:D; simpl in N;
      [|destruct d; discriminate].
    injection N as <-. replace k with (length hs) by lia.
    split; [destruct st; reflexivity|].
    destruct st; [left | right]; simpl; repeat split; congruence.
Qed.

(** X15: under every interleaving of allowed calls with the work of the host,
    every record of the history sits at the position its [index] names, and
    is either a success carrying a value and no reason, or a failure carrying
    a reason and no value. *)
Theorem history_records_are_well_formed (h : Host) (l : list SequenceStep)
  (o : SequenceOptions.t) (w : World) :
  ordinary (new h l o) w ->
  forall (k : nat) (r : SequenceResult.t),
    nth_error (history w) k = Some r -> wellFormedRecord k r.
Proof.
  intros R. change (wellFormedHistory (history w)).
  induction R as [|a w w' R IH Al P].
  - assert (E : history (new h l o) = []).
    { destruct o as [[[|]|] i [[|]|] m], h, l as [|s l]; reflexivity. }
    rewrite E. intros [|k] r N; discriminate.
  - pose proof (Inv_ordinary _ _ (Inv_new h l o) R) as I.
    destruct (history_perform a w w' I Al P) as [E|[E|(st & t & E)]]; rewrite E.
    + exact IH.
    + intros [|k] r N; discriminate.
    + apply wellFormedHistory_snoc, IH.
Qed.

Lemma history_records_are_well_formed_witness :
  ordinary sampleStart sampleEnd
  /\ nth_error (history sampleEnd) 1 =
       Some (SequenceResult.mk SUCCEEDED 1 (Some (VNum 2)) None 5)
  /\ wellFormedRecord 1 (SequenceResult.mk SUCCEEDED 1 (Some (VNum 2)) None 5).
Proof.
  assert (T : trace sampleRun sampleStart = Some sampleEnd) by (vm_compute; reflexivity).
  assert (N : nth_error (history sampleEnd) 1 =
                Some (SequenceResult.mk SUCCEEDED 1 (Some (VNum 2)) None 5))
    by (vm_compute; reflexivity).
  assert (R : ordinary sampleStart sampleEnd).
  { exact (ordinary_trace sampleRun sampleStart sampleStart sampleEnd
             (ordinary_start sampleStart) T). }
  split; [exact R|]. split; [exact N|].
  exact (history_records_are_well_formed HostNextTick _ _ sampleEnd R 1 _ N).
Defined.

(** ** One call of a step, turn by turn *)

(** Normalise a callback that was run on an explicit world, leaving the
    functions on lists and the listeners folded. *)
Ltac flat :=
  cbv [exec bind ret modify this assign skip
       enqueue setTimeout date push deliver callback job record eventOf cancel
       self host arrays chains ticks microtasks immediates timers nextTimer now
       console unhandled emitted calls future
       running suspended suspendTimeout muteEndIfEmpty interval index steps
       results busy promise events
       set_self set_host set_arrays set_chains set_ticks set_microtasks
       set_immediates set_timers set_nextTimer set_now set_console
       set_unhandled set_emitted set_calls set_future
       set_running set_suspended set_suspendTimeout set_muteEndIfEmpty
       set_interval set_index set_steps set_results set_busy set_promise
       set_events
       tid due tcb cursor history read bumped fst snd];
  cbn [app].

Section OneCall.

Variables (h : Host) (mute : bool) (itv : nat) (l : list SequenceStep)
  (res : nat) (con : list string) (unh : list SequenceError).

(** The worlds of one call: an instance that is not suspended, and a host
    with nothing in its [nextTick] and [setImmediate] queues. *)
Local Abbreviation Wd evs run sto i b prom arrs chs mt tm nt t em cl fu :=
  (MkWorld (MkSequence run false sto mute itv i l res b prom evs)
           h arrs chs [] mt [] tm nt t con unh em cl fu).

(** The step is called: its index is logged and its outcome handed to the
    host. *)
Lemma call_turn (evs : list Listener) (run : bool) (sto : option nat) (i : Z) (prom : nat)
  (arrs : list (list SequenceResult.t)) (chs : list ChainState) (c nt t : nat)
  (em : list Emission) (cl : list Z) (fu : FutureState) (s : SequenceStep) :
  stepAt l i = Some s ->
  let o := s (lastOf (nth res arrs [])) i (nth res arrs []) in
  turn (Wd evs run sto i true prom arrs chs [JInvoke c] [] nt t em cl fu) =
  Some (exec (deliver c (settlement o) (latency o))
          (Wd evs run sto i true prom arrs chs [] [] nt t em (cl ++ [i]) fu)).
Proof.
  intros H o. rewrite (turn_job (JInvoke c)) by reflexivity. cbv [job].
  match goal with
  | |- context [exec (invoke c) ?X] => rewrite (invoke_eq c X s H)
  end.
  reflexivity.
Qed.

(** A settlement that comes later is brought by a timer of the host. *)
Lemma wait_turn (evs : list Listener) (run : bool) (sto : option nat) (i : Z) (prom : nat)
  (arrs : list (list SequenceResult.t)) (chs : list ChainState) (c nt t d : nat)
  (em : list Emission) (cl : list Z) (fu : FutureState) (st : Settlement) :
  turn (exec (deliver c st (S d))
          (Wd evs run sto i true prom arrs chs [] [] nt t em cl fu)) =
  Some (Wd evs run sto i true prom arrs chs [JSettled c st] [] (S nt) (t + S d) em cl fu).
Proof.
  flat.
  rewrite (turn_timer (MkTimer nt (dueAt t (S d)) (CbSettle c st))) by reflexivity.
  rewrite fire_eq. flat. cbn [filter tid]. rewrite Nat.eqb_refl. cbn [negb].
  rewrite max_due. reflexivity.
Qed.

(** The reaction to the settlement: the record is pushed and notified, and
    the final callback queued.  A listener may have stopped the sequence. *)
Lemma record_turn (evs : list Listener) (run : bool) (sto : option nat) (i : Z) (prom : nat)
  (arrs : list (list SequenceResult.t)) (chs : list ChainState) (c nt t : nat)
  (em : list Emission) (cl : list Z) (fu : FutureState) (st : Settlement) :
  exists (run' : bool) (sto' : option nat) (fu' : FutureState),
    (run' = true -> run = true)
    /\ (evs = [] -> run' = run)
    /\ turn (Wd evs run sto i true prom arrs chs [JSettled c st] [] nt t em cl fu) =
       Some (Wd evs run' sto' i true prom
               (update res (fun x => x ++ [recordAt st i t]) arrs) chs
               [JAdvance c (recordAt st i t)] [] nt t
               (em ++ [EmStep (eventOf st) (recordAt st i t) i]) cl fu').
Proof.
  destruct evs as [|x evs'].
  { exists run, sto, fu. split; [auto|]. split; [auto|]. destruct st; reflexivity. }
  rewrite (turn_job (JSettled c st)) by reflexivity. cbv [job].
  rewrite settled_eq.
  match goal with
  | |- context [exec (emit ?ev ?e) ?X] =>
      destruct (emit_cases ev e X) as [f [E|E]]; cbv zeta in E; rewrite E
  end.
  - exists run, sto, f. split; [auto|]. split; [auto|]. destruct st; reflexivity.
  - exists false, None, f. split; [discriminate|]. split; [discriminate|].
    rewrite stop_eq. destruct st, sto; reflexivity.
Qed.

(** The final callback when a step follows: the cursor moves on, [busy] is
    cleared, the interval timer is set and the promise of the call is
    fulfilled with the record. *)
Lemma final_turn_more (evs : list Listener) (run : bool) (sto : option nat) (i : Z) (prom : nat)
  (arrs : list (list SequenceResult.t)) (chs : list ChainState) (nt t : nat)
  (em : list Emission) (cl : list Z) (fu : FutureState) (r : SequenceResult.t)
  (s : SequenceStep) :
  stepAt l (i + 1) = Some s ->
  turn (Wd evs run sto i true prom arrs (chs ++ [ChPending []])
          [JAdvance (length chs) r] [] nt t em cl fu) =
  Some (Wd evs run sto (i + 1)%Z false prom arrs (chs ++ [ChFulfilled (Some r)])
          [] [MkTimer nt (dueAt t itv) CbNext] (S nt) t em cl fu).
Proof.
  intros H. rewrite (turn_job (JAdvance (length chs) r)) by reflexivity.
  cbv [job]. rewrite advance_eq.
  match goal with
  | |- context [stepAt (steps (self ?X)) (cursor ?X + 1)] =>
      change (stepAt (steps (self X)) (cursor X + 1)) with (stepAt l (i + 1))
  end.
  rewrite H.
  rewrite (fulfil_pending _ _ []) by (flat; apply nth_error_snoc).
  flat. rewrite update_snoc. reflexivity.
Qed.

(** The final callback after the last step: [end] is emitted with the
    history array instead. *)
Lemma final_turn_last (evs : list Listener) (run : bool) (sto : option nat) (i : Z) (prom : nat)
  (arrs : list (list SequenceResult.t)) (chs : list ChainState) (nt t : nat)
  (em : list Emission) (cl : list Z) (fu : FutureState) (r : SequenceResult.t) :
  stepAt l (i + 1) = None ->
  exists (run' : bool) (sto' : option nat) (fu' : FutureState),
    (run' = true -> run = true)
    /\ (evs = [] -> run' = run)
    /\ turn (Wd evs run sto i true prom arrs (chs ++ [ChPending []])
               [JAdvance (length chs) r] [] nt t em cl fu) =
       Some (Wd evs run' sto' (i + 1)%Z false prom arrs (chs ++ [ChFulfilled (Some r)])
               [] [] nt t (em ++ [EmEnd res (nth res arrs [])]) cl fu').
Proof.
  intros H. rewrite (turn_job (JAdvance (length chs) r)) by reflexivity.
  cbv [job]. rewrite advance_eq.
  match goal with
  | |- context [stepAt (steps (self ?X)) (cursor ?X + 1)] =>
      change (stepAt (steps (self X)) (cursor X + 1)) with (stepAt l (i + 1))
  end.
  rewrite H, emitEnd_eq.
  destruct evs as [|x evs'].
  { exists run, sto, fu. split; [auto|]. split; [auto|].
    rewrite (fulfil_pending _ _ [])
      by (cbv [emit]; flat; cbn [filter forEach]; flat; apply nth_error_snoc).
    cbv [emit]. flat. cbn [filter forEach]. flat.
    rewrite update_snoc. reflexivity. }
  match goal with
  | |- context [exec (emit ?ev ?e) ?X] =>
      destruct (emit_cases ev e X) as [f [E|E]]; cbv zeta in E; rewrite E
  end.
  - exists run, sto, f. split; [auto|]. split; [auto|].
    rewrite (fulfil_pending _ _ []) by (flat; apply nth_error_snoc).
    flat. rewrite update_snoc. reflexivity.
  - exists false, None, f. split; [discriminate|]. split; [discriminate|].
    rewrite stop_eq.
    rewrite (fulfil_pending _ _ []) by (flat; apply nth_error_snoc).
    flat. rewrite update_snoc. destruct sto; reflexivity.
Qed.

(** The interval timer on a running sequence starts the call of the step
    at the cursor. *)
Lemma interval_turn_running (evs : list Listener) (sto : option nat) (i : Z) (prom : nat)
  (arrs : list (list SequenceResult.t)) (chs : list ChainState) (k d nt t : nat)
  (em : list Emission) (cl : list Z) (fu : FutureState) (s : SequenceStep)
  (p : option SequenceResult.t) :
  stepAt l i = Some s ->
  nth_error chs prom = Some (ChFulfilled p) ->
  turn (Wd evs true sto i false prom arrs chs [] [MkTimer k d CbNext] nt t em cl fu) =
  Some (Wd evs true sto i true (length chs) arrs (chs ++ [ChPending []])
          [JInvoke (length chs)] [] nt (Nat.max t d) em cl fu).
Proof.
  intros H P. rewrite (turn_timer (MkTimer k d CbNext)) by reflexivity.
  rewrite fire_eq. cbn [tcb].
  match goal with
  | |- context [exec (callback CbNext) ?X] =>
      rewrite (next_timer_starts X s p eq_refl eq_refl eq_refl H P)
  end.
  flat. cbn [filter tid]. rewrite Nat.eqb_refl. reflexivity.
Qed.

(** On a sequence that was stopped the interval timer does nothing, and
    nothing is left to run. *)
Lemma interval_turn_stopped (evs : list Listener) (sto : option nat) (i : Z) (prom : nat)
  (arrs : list (list SequenceResult.t)) (chs : list ChainState) (k d nt t : nat)
  (em : list Emission) (cl : list Z) (fu : FutureState) :
  turn (Wd evs false sto i false prom arrs chs [] [MkTimer k d CbNext] nt t em cl fu) =
  Some (Wd evs false sto i false prom arrs chs [] [] nt (Nat.max t d) em cl fu).
Proof.
  rewrite (turn_timer (MkTimer k d CbNext)) by reflexivity.
  rewrite fire_eq. cbn [tcb]. rewrite next_timer_inert by reflexivity.
  flat. cbn [filter tid]. rewrite Nat.eqb_refl. reflexivity.
Qed.

End OneCall.

(** ** A failing step, from the call to the step that follows *)

(** What [deliver] hands to the host is no call of a step. *)
Lemma deliver_calls (c : nat) (st : Settlement) (d : nat) (w : World) :
  calls (exec (deliver c st d) w) = calls w
  /\ busy (self (exec (deliver c st d) w)) = busy (self w).
Proof. destruct d; world w; split; reflexivity. Qed.

(** C2: a step that throws or returns a rejecting awaitable does not make
    [next()] reject.  On a sequence at rest with such a step at the cursor,
    [next] returns a new promise, and the loop then runs the call of the
    step, the [catch] callback and the final callback (three turns, four
    when the awaitable rejects later).
    - The promise that [next] returned is pending until the final callback
      has run and is then fulfilled with the record of the failure: it is
      never rejected, and no rejection is left unhandled.
    - The history has one more record: [FAILED], with the reason, the index
      of the step and the instant of the rejection.  [failed] was emitted
      with it, and the step was called once.
    - A throw and a rejected awaitable are handled alike: what the call
      leaves with the host depends on the reason and the delay alone.
    - The cursor has moved on and [busy] is cleared; only a listener can
      have stopped the sequence.  When a step follows, the interval timer
      is set; when it fires on a sequence that is still running the
      following step is called, and on a stopped sequence nothing more
      happens.  After the last step [end] was emitted with the history. *)
Theorem C2_step_failure_is_absorbed (w : World) (inner : bool) (s : SequenceStep)
  (e : Value) (p : option SequenceResult.t) :
  negb inner && running (self w) = false ->
  busy (self w) = false ->
  suspended (self w) = false ->
  stepAt (steps (self w)) (cursor w) = Some s ->
  settlement (s (lastOf (history w)) (cursor w) (history w)) = Rejects e ->
  nth_error (chains w) (promise (self w)) = Some (ChFulfilled p) ->
  results (self w) < length (arrays w) ->
  ticks w = [] -> microtasks w = [] -> immediates w = [] -> timers w = [] ->
  let o := s (lastOf (history w)) (cursor w) (history w) in
  let c := length (chains w) in
  let n := match latency o with O => 3 | S _ => 4 end in
  let r := SequenceResult.mk FAILED (cursor w) None (Some e) (now w + latency o) in
  let w1 := exec (next inner) w in
  let w' := drain n w1 in
  fst (next inner w) = NPromise c
  /\ (forall k, k < n -> nth_error (chains (drain k w1)) c = Some (ChPending []))
  /\ nth_error (chains w') c = Some (ChFulfilled (Some r))
  /\ promise (self w') = c
  /\ unhandled w' = unhandled w
  /\ history w' = history w ++ [r]
  /\ calls w' = calls w ++ [cursor w]
  /\ emitted w' =
       emitted w ++ EmStep EvFailed r (cursor w)
         :: match stepAt (steps (self w)) (cursor w + 1) with
            | Some _ => []
            | None => [EmEnd (results (self w)) (history w ++ [r])]
            end
  /\ drain 1 w1 =
       exec (deliver c (Rejects e) (latency o))
         (set_calls (calls w ++ [cursor w]) (set_microtasks [] w1))
  /\ cursor w' = (cursor w + 1)%Z
  /\ busy (self w') = false
  /\ steps (self w') = steps (self w)
  /\ now w' = now w + latency o
  /\ (ticks w' = [] /\ microtasks w' = [] /\ immediates w' = [])
  /\ (running (self w') = true -> running (self w) = true)
  /\ (events (self w) = [] -> running (self w') = running (self w))
  /\ (forall s', stepAt (steps (self w)) (cursor w + 1) = Some s' ->
        (exists id,
           timers w' = [MkTimer id (dueAt (now w') (interval (self w))) CbNext])
        /\ (running (self w') = true ->
              calls (drain 2 w') = calls w ++ [cursor w; (cursor w + 1)%Z]
              /\ busy (self (drain 2 w')) = true)
        /\ (running (self w') = false ->
              idle (drain 1 w')
              /\ calls (drain 1 w') = calls w ++ [cursor w]
              /\ history (drain 1 w') = history w ++ [r]))
  /\ (stepAt (steps (self w)) (cursor w + 1) = None -> timers w' = [] /\ idle w').
Proof.
  intros Hin Hb Hs Hst Hset Hch Hreg Htk Hmt Him Htm.
  destruct w as [[run susp sto mute itv i l res b prom evs]
                   h arrs chs tk mt im tm nt t con unh em cl fu].
  cbv [self running busy suspended steps cursor index history read results
       arrays chains promise ticks microtasks immediates timers] in
    Hin, Hb, Hs, Hst, Hset, Hch, Hreg, Htk, Hmt, Him, Htm.
  subst b susp tk mt im tm.
  set (W0 := MkWorld (MkSequence run false sto mute itv i l res false prom evs)
               h arrs chs [] [] [] [] nt t con unh em cl fu).
  set (hist := nth res arrs []) in *.
  assert (N : next inner W0 =
    (NPromise (length chs),
     MkWorld (MkSequence run false sto mute itv i l res true (length chs) evs)
       h arrs (chs ++ [ChPending []]) [] [JInvoke (length chs)] [] [] nt t
       con unh em cl fu)).
  { rewrite (next_starts inner W0 s p Hin eq_refl eq_refl Hst Hch). reflexivity. }
  intros o c n r w1 w'.
  change (history W0) with hist in *. change (cursor W0) with i in *.
  change (now W0) with t in *. change (length (chains W0)) with (length chs) in *.
  assert (E1 : w1 =
     MkWorld (MkSequence run false sto mute itv i l res true (length chs) evs)
       h arrs (chs ++ [ChPending []]) [] [JInvoke (length chs)] [] [] nt t
       con unh em cl fu).
  { subst w1. unfold exec. rewrite N. reflexivity. }
  (* the call *)
  pose proof (call_turn h mute itv l res con unh evs run sto i (length chs)
                arrs (chs ++ [ChPending []]) (length chs) nt t em cl fu s Hst) as T1.
  cbv zeta in T1. fold hist in T1. rewrite Hset in T1. fold o in T1.
  (* the settlement reaches the catch callback at instant [t'] *)
  assert (A : exists nt',
    drain (n - 2) w1 =
      MkWorld (MkSequence run false sto mute itv i l res true (length chs) evs)
        h arrs (chs ++ [ChPending []]) [] [JSettled (length chs) (Rejects e)] [] []
        nt' (t + latency o) con unh em (cl ++ [i]) fu
    /\ (forall k, k < n - 2 ->
          nth_error (chains (drain k w1)) c = Some (ChPending []))).
  { subst n. destruct (latency o) as [|d] eqn:L.
    - exists nt. split.
      + change (3 - 2) with 1. rewrite drain_S, E1, T1.
        rewrite Nat.add_0_r. reflexivity.
      + intros k Hk. change (3 - 2) with 1 in Hk.
        destruct k as [|k]; [|lia]. rewrite E1. apply nth_error_snoc.
    - exists (S nt). split.
      + change (4 - 2) with 2. rewrite drain_S, E1, T1, drain_S.
        rewrite (wait_turn h mute itv l res con unh evs). reflexivity.
      + intros k Hk. change (4 - 2) with 2 in Hk.
        destruct k as [|[|k]]; [| |lia].
        * rewrite E1. apply nth_error_snoc.
        * rewrite drain_S, E1, T1. flat. apply nth_error_snoc. }
  destruct A as (nt' & A & Apend).
  set (t' := t + latency o) in *.
  assert (R : r = recordAt (Rejects e) i t') by reflexivity.
  (* the catch callback *)
  destruct (record_turn h mute itv l res con unh evs run sto i (length chs) arrs
              (chs ++ [ChPending []]) (length chs) nt' t' em (cl ++ [i]) fu (Rejects e))
    as (run2 & sto2 & fu2 & Run2 & Quiet2 & T2).
  rewrite <- R in T2. cbn [eventOf] in T2.
  set (arrs' := update res (fun x => x ++ [r]) arrs) in *.
  assert (Hh : nth res arrs' [] = hist ++ [r]) by (apply read_update; exact Hreg).
  assert (Dn : n = (n - 2) + 2) by (subst n; destruct (latency o); reflexivity).
  assert (D1 : drain (S (n - 2)) w1 =
     MkWorld (MkSequence run2 false sto2 mute itv i l res true (length chs) evs)
       h arrs' (chs ++ [ChPending []]) [] [JAdvance (length chs) r] [] []
       nt' t' con unh (em ++ [EmStep EvFailed r i]) (cl ++ [i]) fu2).
  { replace (S (n - 2)) with ((n - 2) + 1) by lia.
    rewrite drain_add, A, drain_S, T2. reflexivity. }
  assert (Pend : forall k, k < n -> nth_error (chains (drain k w1)) c = Some (ChPending [])).
  { intros k Hk. destruct (Nat.lt_ge_cases k (n - 2)) as [Lt|Ge]; [auto|].
    destruct (Nat.eq_dec k (n - 2)) as [->|Ne].
    - rewrite A. apply nth_error_snoc.
    - replace k with (S (n - 2)) by lia. rewrite D1. apply nth_error_snoc. }
  assert (First : drain 1 w1 =
       exec (deliver c (Rejects e) (latency o))
         (set_calls (calls W0 ++ [i]) (set_microtasks [] w1))).
  { rewrite drain_S, E1, T1. reflexivity. }
  assert (D2 : w' = drain 1 (drain (S (n - 2)) w1)).
  { subst w'. rewrite <- drain_add. f_equal. lia. }
  rewrite D1, drain_S in D2.
  (* the final callback *)
  change (steps (self W0)) with l. change (results (self W0)) with res.
  change (interval (self W0)) with itv. change (events (self W0)) with evs.
  change (running (self W0)) with run. change (unhandled W0) with unh.
  change (emitted W0) with em. change (calls W0) with cl in *.
  destruct (stepAt l (i + 1)) as [s'|] eqn:Nx.
  - rewrite (final_turn_more h mute itv l res con unh evs run2 sto2 i (length chs)
               arrs' chs nt' t' (em ++ [EmStep EvFailed r i]) (cl ++ [i]) fu2 r s' Nx)
      in D2.
    cbn [drain] in D2.
    repeat apply conj; try (rewrite D2; reflexivity).
    + rewrite N. reflexivity.
    + exact Pend.
    + rewrite D2. apply nth_error_snoc.
    + rewrite D2. exact Hh.
    + exact First.
    + rewrite D2. exact Run2.
    + rewrite D2. exact Quiet2.
    + intros s'' _. split; [|split].
      * rewrite D2. eexists. reflexivity.
      * rewrite D2. cbn [self running]. intros ->.
        assert (P' : nth_error (chs ++ [ChFulfilled (Some r)]) (length chs)
                     = Some (ChFulfilled (Some r))) by apply nth_error_snoc.
        rewrite drain_S.
        rewrite (interval_turn_running h mute itv l res con unh evs sto2 (i + 1)
                   (length chs) arrs' (chs ++ [ChFulfilled (Some r)]) nt'
                   (dueAt t' itv) (S nt') t' (em ++ [EmStep EvFailed r i])
                   (cl ++ [i]) fu2 s' (Some r) Nx P').
        rewrite drain_S.
        rewrite (call_turn h mute itv l res con unh evs true sto2 (i + 1)
                   (length (chs ++ [ChFulfilled (Some r)])) arrs'
                   ((chs ++ [ChFulfilled (Some r)]) ++ [ChPending []])
                   (length (chs ++ [ChFulfilled (Some r)])) (S nt')
                   (Nat.max t' (dueAt t' itv)) (em ++ [EmStep EvFailed r i])
                   (cl ++ [i]) fu2 s' Nx).
        cbn [drain].
        match goal with
        | |- context [exec (deliver ?a ?b ?d) ?X] =>
            destruct (deliver_calls a b d X) as (Kc & Kb)
        end.
        rewrite Kc, Kb. split; [|reflexivity].
        cbn [calls]. rewrite <- app_assoc. reflexivity.
      * rewrite D2. cbn [self running]. intros ->.
        rewrite drain_S.
        rewrite (interval_turn_stopped h mute itv l res con unh evs).
        cbn [drain]. repeat split. exact Hh.
    + intros F. discriminate F.
  - destruct (final_turn_last h mute itv l res con unh evs run2 sto2 i (length chs)
                arrs' chs nt' t' (em ++ [EmStep EvFailed r i]) (cl ++ [i]) fu2 r Nx)
      as (run3 & sto3 & fu3 & Run3 & Quiet3 & T3).
    rewrite T3 in D2. cbn [drain] in D2.
    repeat apply conj; try (rewrite D2; reflexivity).
    + rewrite N. reflexivity.
    + exact Pend.
    + rewrite D2. apply nth_error_snoc.
    + rewrite D2. exact Hh.
    + rewrite D2. cbn [emitted]. rewrite Hh, <- app_assoc. reflexivity.
    + exact First.
    + rewrite D2. cbn [self running]. auto.
    + rewrite D2. cbn [self running]. intros Ev.
      rewrite (Quiet3 Ev). exact (Quiet2 Ev).
    + intros s' F. discriminate F.
    + intros _. rewrite D2. split; reflexivity.
Qed.

Lemma C2_step_failure_is_absorbed_witness :
  negb true && running (self retried) = false
  /\ busy (self retried) = false
  /\ suspended (self retried) = false
  /\ stepAt (steps (self retried)) (cursor retried) = Some (throwing (VStr "error"))
  /\ settlement (throwing (VStr "error") (lastOf (history retried))
                   (cursor retried) (history retried)) = Rejects (VStr "error")
  /\ nth_error (chains retried) (promise (self retried)) =
       Some (ChFulfilled (Some (SequenceResult.mk SUCCEEDED 1 (Some (VNum 2)) None 0)))
  /\ results (self retried) < length (arrays retried)
  /\ ticks retried = [] /\ microtasks retried = []
  /\ immediates retried = [] /\ timers retried = []
  /\ running (self retried) = true
  /\ nth_error (chains (drain 3 (exec (next true) retried))) (length (chains retried)) =
       Some (ChFulfilled (Some (SequenceResult.mk FAILED 0 None (Some (VStr "error")) 0)))
  /\ calls (drain 2 (drain 3 (exec (next true) retried))) = [0%Z; 1%Z; 0%Z; 1%Z].
Proof.
  assert (L : results (self retried) < length (arrays retried)) by (vm_compute; lia).
  pose proof (C2_step_failure_is_absorbed retried true (throwing (VStr "error"))
                (VStr "error")
                (Some (SequenceResult.mk SUCCEEDED 1 (Some (VNum 2)) None 0))
                eq_refl eq_refl eq_refl eq_refl eq_refl eq_refl L
                eq_refl eq_refl eq_refl eq_refl) as H.
  cbv zeta in H.
  destruct H as (_ & _ & F & _ & _ & _ & _ & _ & _ & _ & _ & _ & _ & _ & _ & _ & G & _).
  destruct (G (resolveWith (VNum 2)) eq_refl) as (_ & K & _).
  do 6 (split; [reflexivity|]).
  split; [exact L|].
  do 5 (split; [reflexivity|]).
  split; [exact F|].
  exact (proj1 (K eq_refl)).
Defined.

(** * Properties of [EventEmitter] *)

Lemma Fn_eqb_eq (a b : EventEmitter.Fn) : EventEmitter.Fn_eqb a b = true <-> a = b.
Proof.
  destruct a as [i|k n i], b as [j|k' n' j]; simpl; split; intros H;
    try discriminate.
  - apply Nat.eqb_eq in H. congruence.
  - injection H as ->. apply Nat.eqb_refl.
  - apply andb_true_iff in H. destruct H as [H H3].
    apply andb_true_iff in H. destruct H as [H1 H2].
    apply Nat.eqb_eq in H1, H3. apply String.eqb_eq in H2. congruence.
  - injection H as -> -> ->. rewrite !Nat.eqb_refl, String.eqb_refl. reflexivity.
Qed.

Lemma Fn_eqb_refl (a : EventEmitter.Fn) : EventEmitter.Fn_eqb a a = true.
Proof. apply Fn_eqb_eq. reflexivity. Qed.

Lemma Fn_eqb_neq (a b : EventEmitter.Fn) : EventEmitter.Fn_eqb a b = false <-> a <> b.
Proof.
  split; intros H.
  - intros E. apply Fn_eqb_eq in E. congruence.
  - destruct (EventEmitter.Fn_eqb a b) eqn:E; [|reflexivity].
    apply Fn_eqb_eq in E. contradiction.
Qed.

Lemma get_set (n m : string) (v : list EventEmitter.Fn)
  (l : list (string * list EventEmitter.Fn)) :
  EventEmitter.get n (EventEmitter.set m v l) =
  if String.eqb m n then Some v else EventEmitter.get n l.
Proof.
  induction l as [|[k u] l IH]; simpl.
  - destruct (String.eqb m n); reflexivity.
  - destruct (String.eqb_spec k m) as [->|Hkm]; simpl.
    + destruct (String.eqb m n); reflexivity.
    + rewrite IH. destruct (String.eqb_spec k n) as [->|Hkn]; [|reflexivity].
      destruct (String.eqb_spec m n); [congruence | reflexivity].
Qed.

Lemma get_delete (n m : string) (l : list (string * list EventEmitter.Fn)) :
  EventEmitter.get n (EventEmitter.delete m l) =
  if String.eqb m n then None else EventEmitter.get n l.
Proof.
  unfold EventEmitter.delete.
  induction l as [|[k u] l IH]; simpl.
  - destruct (String.eqb m n); reflexivity.
  - destruct (String.eqb_spec k m) as [->|Hkm]; simpl.
    + rewrite IH. destruct (String.eqb m n); reflexivity.
    + rewrite IH. destruct (String.eqb_spec k n) as [->|Hkn]; [|reflexivity].
      destruct (String.eqb_spec m n); [congruence | reflexivity].
Qed.

Lemma set_get (n : string) (v : list EventEmitter.Fn)
  (l : list (string * list EventEmitter.Fn)) :
  EventEmitter.get n l = Some v -> EventEmitter.set n v l = l.
Proof.
  induction l as [|[k u] l IH]; simpl; [discriminate|].
  destruct (String.eqb k n); intros H.
  - congruence.
  - rewrite (IH H). reflexivity.
Qed.

(** The handlers of [n] after [f] was subscribed to [m]. *)
Lemma listeners_subscribe (n m : string) (f : EventEmitter.Fn) (e : EventEmitter.State) :
  EventEmitter.listeners n (EventEmitter.subscribe m f e) =
  if String.eqb m n then EventEmitter.add f (EventEmitter.listeners m e)
  else EventEmitter.listeners n e.
Proof.
  unfold EventEmitter.subscribe, EventEmitter.listeners, EventEmitter.set_events. simpl.
  destruct (EventEmitter.get m (EventEmitter.events e)) as [s|] eqn:G.
  - rewrite G, get_set. destruct (String.eqb m n); reflexivity.
  - rewrite !get_set, String.eqb_refl.
    destruct (String.eqb m n); reflexivity.
Qed.

(** The handlers of [n] after [off(m, x)]. *)
Lemma listeners_off (n m : string) (x : option EventEmitter.Fn) (e : EventEmitter.State) :
  m <> ""%string ->
  EventEmitter.off m x e =
    (EventEmitter.Returned, snd (EventEmitter.off m x e))
  /\ EventEmitter.listeners n (snd (EventEmitter.off m x e)) =
     if String.eqb m n
     then match x with
          | Some f => EventEmitter.remove f (EventEmitter.listeners m e)
          | None => []
          end
     else EventEmitter.listeners n e.
Proof.
  intros Hm. unfold EventEmitter.off, EventEmitter.ensureEvent.
  destruct (String.eqb_spec m ""%string) as [E|_]; [contradiction|].
  unfold EventEmitter.listeners.
  destruct (EventEmitter.get m (EventEmitter.events e)) as [s|] eqn:G.
  - destruct x as [f|]; [destruct (EventEmitter.remove f s) as [|g r] eqn:S|]; simpl;
      (split; [reflexivity|]);
      rewrite ?get_delete, ?get_set;
      destruct (String.eqb m n); auto.
  - simpl. split; [reflexivity|].
    destruct (String.eqb_spec m n) as [->|_]; [|reflexivity].
    rewrite G. destruct x; reflexivity.
Qed.

Lemma add_new (f : EventEmitter.Fn) (s : list EventEmitter.Fn) :
  ~ In f s -> EventEmitter.add f s = s ++ [f].
Proof.
  intros H. unfold EventEmitter.add.
  destruct (existsb (EventEmitter.Fn_eqb f) s) eqn:E; [|reflexivity].
  apply existsb_exists in E. destruct E as (g & I & E).
  apply Fn_eqb_eq in E. subst g. contradiction.
Qed.

Lemma add_old (f : EventEmitter.Fn) (s : list EventEmitter.Fn) :
  In f s -> EventEmitter.add f s = s.
Proof.
  intros H. unfold EventEmitter.add.
  destruct (existsb (EventEmitter.Fn_eqb f) s) eqn:E; [reflexivity|].
  assert (X : existsb (EventEmitter.Fn_eqb f) s = true).
  { apply existsb_exists. exists f. split; [exact H | apply Fn_eqb_refl]. }
  congruence.
Qed.

Lemma remove_absent (f : EventEmitter.Fn) (s : list EventEmitter.Fn) :
  ~ In f s -> EventEmitter.remove f s = s.
Proof.
  intros H. unfold EventEmitter.remove.
  induction s as [|g s IH]; simpl; [reflexivity|].
  destruct (EventEmitter.Fn_eqb f g) eqn:E; simpl.
  - apply Fn_eqb_eq in E. subst g. exfalso. apply H. left. reflexivity.
  - rewrite IH; [reflexivity|]. intros I. apply H. right. exact I.
Qed.

Lemma remove_snoc (f : EventEmitter.Fn) (s : list EventEmitter.Fn) :
  ~ In f s -> EventEmitter.remove f (s ++ [f]) = s.
Proof.
  intros H. unfold EventEmitter.remove. rewrite filter_app. simpl.
  rewrite Fn_eqb_refl. simpl. rewrite app_nil_r. apply remove_absent. exact H.
Qed.

(** ** Subscribing *)

(** X18: [on] with a non-empty event name and a function returns normally.  The
    function is appended to the handlers of that event unless it is among
    them already, in which case nothing changes; the handlers of every other
    event are as before; and a second identical [on] changes nothing. *)
Theorem on_subscribes_once_in_order (name : string) (f : nat) (e : EventEmitter.State) :
  name <> ""%string ->
  let e' := snd (EventEmitter.on name (EventEmitter.Function f) e) in
  fst (EventEmitter.on name (EventEmitter.Function f) e) = EventEmitter.Returned
  /\ (~ In (EventEmitter.User f) (EventEmitter.listeners name e) ->
      EventEmitter.listeners name e' =
      EventEmitter.listeners name e ++ [EventEmitter.User f])
  /\ (In (EventEmitter.User f) (EventEmitter.listeners name e) ->
      EventEmitter.listeners name e' = EventEmitter.listeners name e)
  /\ (forall n, n <> name -> EventEmitter.listeners n e' = EventEmitter.listeners n e)
  /\ snd (EventEmitter.on name (EventEmitter.Function f) e') = e'.
Proof.
  intros Hn e'.
  assert (E : forall v, EventEmitter.on name (EventEmitter.Function f) v =
                (EventEmitter.Returned, EventEmitter.subscribe name (EventEmitter.User f) v)).
  { intros v. unfold EventEmitter.on, EventEmitter.ensureEvent.
    destruct (String.eqb_spec name ""%string); [contradiction | reflexivity]. }
  subst e'. rewrite !E. simpl fst. simpl snd.
  pose proof (listeners_subscribe name name (EventEmitter.User f) e) as L.
  rewrite String.eqb_refl in L.
  split; [reflexivity|]. split; [|split; [|split]].
  - intros H. rewrite L. apply add_new, H.
  - intros H. rewrite L. apply add_old, H.
  - intros n H. rewrite listeners_subscribe.
    destruct (String.eqb_spec name n); [congruence | reflexivity].
  - set (e1 := EventEmitter.subscribe name (EventEmitter.User f) e).
    assert (I : In (EventEmitter.User f) (EventEmitter.listeners name e1)).
    { subst e1. rewrite L. unfold EventEmitter.add.
      destruct (existsb _ _) eqn:X.
      - apply existsb_exists in X. destruct X as (g & I & X).
        apply Fn_eqb_eq in X. subst g. exact I.
      - apply in_or_app. right. left. reflexivity. }
    unfold EventEmitter.subscribe at 1.
    unfold EventEmitter.listeners in I |- *.
    destruct (EventEmitter.get name (EventEmitter.events e1)) as [s|] eqn:G;
      [|destruct I].
    assert (G' : EventEmitter.get name
                   (EventEmitter.events (EventEmitter.set_events (EventEmitter.events e1) e1))
                 = Some s) by exact G.
    rewrite G'. rewrite (add_old _ _ I). rewrite (set_get _ _ _ G).
    destruct e1; reflexivity.
Qed.

Lemma on_subscribes_once_in_order_witness :
  "end"%string <> ""%string
  /\ EventEmitter.listeners "end"
       (snd (EventEmitter.on "end" (EventEmitter.Function 7)
          (snd (EventEmitter.on "end" (EventEmitter.Function 7) EventEmitter.empty)))) =
     [EventEmitter.User 7].
Proof.
  assert (N : "end"%string <> ""%string) by discriminate.
  split; [exact N|].
  rewrite (proj2 (proj2 (proj2 (proj2
    (on_subscribes_once_in_order "end" 7 EventEmitter.empty N))))).
  reflexivity.
Defined.

(** ** Unsubscribing *)

Lemma off_frame (m : string) (x : option EventEmitter.Fn) (e : EventEmitter.State) :
  EventEmitter.called (snd (EventEmitter.off m x e)) = EventEmitter.called e
  /\ EventEmitter.errors (snd (EventEmitter.off m x e)) = EventEmitter.errors e
  /\ EventEmitter.serial (snd (EventEmitter.off m x e)) = EventEmitter.serial e.
Proof.
  unfold EventEmitter.off.
  destruct (EventEmitter.ensureEvent m); [|auto].
  destruct (EventEmitter.get m (EventEmitter.events e)) as [s|]; [|auto].
  destruct (match x with Some f => EventEmitter.remove f s | None => [] end); auto.
Qed.

(** After [off], a set that became empty is gone from the map. *)
Lemma off_leaves_no_empty_set (m : string) (x : option EventEmitter.Fn)
  (e : EventEmitter.State) (s : list EventEmitter.Fn) :
  EventEmitter.get m (EventEmitter.events e) = Some s ->
  m <> ""%string ->
  EventEmitter.get m (EventEmitter.events (snd (EventEmitter.off m x e))) <> Some [].
Proof.
  intros G Hm. unfold EventEmitter.off, EventEmitter.ensureEvent.
  destruct (String.eqb_spec m ""%string); [contradiction|].
  rewrite G.
  destruct (match x with Some f => EventEmitter.remove f s | None => [] end) eqn:S; simpl.
  - rewrite get_delete, String.eqb_refl. discriminate.
  - rewrite get_set, String.eqb_refl. discriminate.
Qed.

(** X19: [off] with a non-empty event name never throws.  With an executor it
    removes that function from the handlers of the event and no other; with
    none it removes every handler of the event; the handlers of the other
    events are as before; a set that became empty is deleted from the map.
    [off] after [on] of a function that was not subscribed gives back the
    handlers there were.  [clear] leaves no handler for any event. *)
Theorem off_unsubscribes (name : string) (e : EventEmitter.State) :
  name <> ""%string ->
  (forall x, fst (EventEmitter.off name x e) = EventEmitter.Returned)
  /\ (forall f, EventEmitter.listeners name (snd (EventEmitter.off name (Some f) e)) =
                EventEmitter.remove f (EventEmitter.listeners name e))
  /\ EventEmitter.listeners name (snd (EventEmitter.off name None e)) = []
  /\ (forall x n, n <> name ->
        EventEmitter.listeners n (snd (EventEmitter.off name x e)) =
        EventEmitter.listeners n e)
  /\ (forall x s, EventEmitter.get name (EventEmitter.events e) = Some s ->
        EventEmitter.get name (EventEmitter.events (snd (EventEmitter.off name x e)))
        <> Some [])
  /\ (forall f n, ~ In (EventEmitter.User f) (EventEmitter.listeners name e) ->
        EventEmitter.listeners n
          (snd (EventEmitter.off name (Some (EventEmitter.User f))
                  (snd (EventEmitter.on name (EventEmitter.Function f) e)))) =
        EventEmitter.listeners n e)
  /\ (forall n, EventEmitter.listeners n (EventEmitter.clear e) = []).
Proof.
  intros Hn. repeat apply conj.
  - intros x. destruct (listeners_off name name x e Hn) as [E _]. rewrite E. reflexivity.
  - intros f. destruct (listeners_off name name (Some f) e Hn) as [_ L].
    rewrite String.eqb_refl in L. exact L.
  - destruct (listeners_off name name None e Hn) as [_ L].
    rewrite String.eqb_refl in L. exact L.
  - intros x n H. destruct (listeners_off n name x e Hn) as [_ L].
    destruct (String.eqb_spec name n); [congruence | exact L].
  - intros x s G. exact (off_leaves_no_empty_set name x e s G Hn).
  - intros f n H.
    assert (E : EventEmitter.on name (EventEmitter.Function f) e =
                (EventEmitter.Returned, EventEmitter.subscribe name (EventEmitter.User f) e)).
    { unfold EventEmitter.on, EventEmitter.ensureEvent.
      destruct (String.eqb_spec name ""%string); [contradiction | reflexivity]. }
    rewrite E. simpl snd.
    destruct (listeners_off n name (Some (EventEmitter.User f))
                (EventEmitter.subscribe name (EventEmitter.User f) e) Hn) as [_ L].
    rewrite L, !listeners_subscribe, String.eqb_refl.
    destruct (String.eqb_spec name n) as [<-|_]; [|reflexivity].
    rewrite (add_new _ _ H). apply remove_snoc, H.
  - intros n. reflexivity.
Qed.

Lemma off_unsubscribes_witness :
  "end"%string <> ""%string
  /\ EventEmitter.listeners "end"
       (snd (EventEmitter.off "end" None
          (snd (EventEmitter.on "end" (EventEmitter.Function 7) EventEmitter.empty)))) = [].
Proof.
  assert (N : "end"%string <> ""%string) by discriminate.
  split; [exact N|].
  exact (proj1 (proj2 (proj2 (off_unsubscribes "end"
           (snd (EventEmitter.on "end" (EventEmitter.Function 7) EventEmitter.empty)) N)))).
Defined.

(** ** Refused arguments *)

(** X20: an empty event name is refused by [on], [once], [off] and [emit] with
    the error of [#ensureEvent], before anything is changed (and before the
    executor is looked at); with a proper name, [on] and [once] refuse an
    executor that is not a function with the error of [#ensureExecutor],
    again without changing anything. *)
Theorem invalid_arguments_are_refused (body : nat -> list Value -> EventEmitter.Body)
  (e : EventEmitter.State) :
  (forall ex, EventEmitter.on "" ex e = (EventEmitter.Thrown EventEmitter.EmptyEventName, e))
  /\ (forall ex, EventEmitter.once "" ex e =
                 (EventEmitter.Thrown EventEmitter.EmptyEventName, e))
  /\ (forall x, EventEmitter.off "" x e =
                (EventEmitter.Thrown EventEmitter.EmptyEventName, e))
  /\ (forall args, EventEmitter.emit body "" args e =
                   (EventEmitter.Thrown EventEmitter.EmptyEventName, e))
  /\ (forall name, name <> ""%string ->
        EventEmitter.on name EventEmitter.NotCallable e =
          (EventEmitter.Thrown EventEmitter.ExecutorNotFunction, e)
        /\ EventEmitter.once name EventEmitter.NotCallable e =
          (EventEmitter.Thrown EventEmitter.ExecutorNotFunction, e)).
Proof.
  repeat apply conj; try reflexivity.
  intros name Hn. unfold EventEmitter.on, EventEmitter.once, EventEmitter.ensureEvent.
  destruct (String.eqb_spec name ""%string); [contradiction|]. split; reflexivity.
Qed.

(** ** Emitting *)

Lemma subscribe_frame (m : string) (f : EventEmitter.Fn) (e : EventEmitter.State) :
  EventEmitter.called (EventEmitter.subscribe m f e) = EventEmitter.called e
  /\ EventEmitter.errors (EventEmitter.subscribe m f e) = EventEmitter.errors e.
Proof. split; reflexivity. Qed.

(** The calls a handler makes on the emitter touch neither the log of
    calls nor the console. *)
Lemma act_frame (a : EventEmitter.Act) (e : EventEmitter.State) :
  EventEmitter.called (snd (EventEmitter.act a e)) = EventEmitter.called e
  /\ EventEmitter.errors (snd (EventEmitter.act a e)) = EventEmitter.errors e.
Proof.
  destruct a as [n f|n f|n f]; simpl.
  - unfold EventEmitter.on. destruct (EventEmitter.ensureEvent n); auto.
  - unfold EventEmitter.once. destruct (EventEmitter.ensureEvent n); auto.
  - destruct (off_frame n (match f with Some i => Some (EventEmitter.User i) | None => None end) e)
      as (A & B & _). auto.
Qed.

Lemma perform_frame (l : list EventEmitter.Act) (e : EventEmitter.State) :
  EventEmitter.called (snd (EventEmitter.perform l e)) = EventEmitter.called e
  /\ EventEmitter.errors (snd (EventEmitter.perform l e)) = EventEmitter.errors e.
Proof.
  revert e. induction l as [|a l IH]; intros e; simpl; [auto|].
  destruct (act_frame a e) as [A B].
  destruct (EventEmitter.act a e) as [[|x] e']; simpl in *.
  - destruct (IH e') as [A' B']. split; congruence.
  - auto.
Qed.

Lemma callUser_frame (body : nat -> list Value -> EventEmitter.Body) (id : nat)
  (args : list Value) (e : EventEmitter.State) :
  EventEmitter.called (snd (EventEmitter.callUser body id args e)) =
    EventEmitter.called e ++ [(id, args)]
  /\ EventEmitter.errors (snd (EventEmitter.callUser body id args e)) = EventEmitter.errors e.
Proof.
  unfold EventEmitter.callUser.
  match goal with
  | |- context [EventEmitter.perform ?l ?v] =>
      destruct (perform_frame l v) as [A B];
      destruct (EventEmitter.perform l v) as [[|x] e2]
  end; simpl in *.
  - destruct (EventEmitter.raises (body id args)); auto.
  - auto.
Qed.

Lemma call_frame (body : nat -> list Value -> EventEmitter.Body) (f : EventEmitter.Fn)
  (args : list Value) (e : EventEmitter.State) :
  EventEmitter.called (snd (EventEmitter.call body f args e)) =
    EventEmitter.called e ++ [(EventEmitter.executorOf f, args)]
  /\ EventEmitter.errors (snd (EventEmitter.call body f args e)) = EventEmitter.errors e.
Proof.
  destruct f as [id|k n id]; simpl.
  - apply callUser_frame.
  - destruct (callUser_frame body id args e) as [A B].
    destruct (EventEmitter.callUser body id args e) as [[|x] e']; simpl in *.
    + destruct (off_frame n (Some (EventEmitter.Wrapper k n id)) e') as (A' & B' & _).
      split; congruence.
    + auto.
Qed.

Lemma notify_frame (body : nat -> list Value -> EventEmitter.Body) (name : string)
  (args : list Value) (e : EventEmitter.State) (f : EventEmitter.Fn) :
  EventEmitter.called (EventEmitter.notify body name args e f) =
    EventEmitter.called e ++ [(EventEmitter.executorOf f, args)]
  /\ exists log,
       EventEmitter.errors (EventEmitter.notify body name args e f) =
         EventEmitter.errors e ++ log
       /\ length log <= 1 /\ Forall (fun x => fst x = name) log.
Proof.
  unfold EventEmitter.notify.
  destruct (call_frame body f args e) as [A B].
  destruct (EventEmitter.call body f args e) as [[|x] e']; simpl in *.
  - split; [exact A|]. exists []. rewrite app_nil_r. repeat split; auto.
  - split; [exact A|]. exists [(name, x)]. rewrite B. repeat split; auto.
Qed.

Lemma fold_notify_frame (body : nat -> list Value -> EventEmitter.Body) (name : string)
  (args : list Value) (s : list EventEmitter.Fn) (e : EventEmitter.State) :
  EventEmitter.called (fold_left (EventEmitter.notify body name args) s e) =
    EventEmitter.called e ++ map (fun f => (EventEmitter.executorOf f, args)) s
  /\ exists log,
       EventEmitter.errors (fold_left (EventEmitter.notify body name args) s e) =
         EventEmitter.errors e ++ log
       /\ length log <= length s /\ Forall (fun x => fst x = name) log.
Proof.
  revert e. induction s as [|f s IH]; intros e; simpl.
  - split; [rewrite app_nil_r; reflexivity|]. exists []. rewrite app_nil_r. auto.
  - destruct (notify_frame body name args e f) as (A & l1 & B & L1 & F1).
    destruct (IH (EventEmitter.notify body name args e f)) as (A' & l2 & B' & L2 & F2).
    split.
    + rewrite A', A, <- app_assoc. reflexivity.
    + exists (l1 ++ l2). rewrite B', B, <- app_assoc. repeat split.
      * rewrite length_app. lia.
      * apply Forall_app. auto.
Qed.

(** What [emit] calls. *)
Lemma emit_called (body : nat -> list Value -> EventEmitter.Body) (name : string)
  (args : list Value) (e : EventEmitter.State) :
  name <> ""%string ->
  fst (EventEmitter.emit body name args e) = EventEmitter.Returned
  /\ EventEmitter.called (snd (EventEmitter.emit body name args e)) =
       EventEmitter.called e
         ++ map (fun f => (EventEmitter.executorOf f, args)) (EventEmitter.listeners name e)
  /\ exists log,
       EventEmitter.errors (snd (EventEmitter.emit body name args e)) =
         EventEmitter.errors e ++ log
       /\ length log <= length (EventEmitter.listeners name e)
       /\ Forall (fun x => fst x = name) log.
Proof.
  intros Hn. unfold EventEmitter.emit, EventEmitter.ensureEvent, EventEmitter.listeners.
  destruct (String.eqb_spec name ""%string); [contradiction|].
  destruct (EventEmitter.get name (EventEmitter.events e)) as [s|]; simpl.
  - split; [reflexivity|]. apply fold_notify_frame.
  - split; [reflexivity|]. split; [rewrite app_nil_r; reflexivity|].
    exists []. rewrite app_nil_r. auto.
Qed.

(** X21: [emit] works on the handlers that are subscribed when it starts: each
    of them is called exactly once, in subscription order and with the
    arguments of [emit], whatever the handlers do meanwhile (subscribe or
    unsubscribe handlers of this or another event, throw).  [emit] itself
    returns normally; what the handlers throw goes to [console.error], at
    most one line per handler, under the name of the event. *)
Theorem emit_calls_the_subscribed_handlers (body : nat -> list Value -> EventEmitter.Body)
  (name : string) (args : list Value) (e : EventEmitter.State) :
  name <> ""%string ->
  let e' := snd (EventEmitter.emit body name args e) in
  fst (EventEmitter.emit body name args e) = EventEmitter.Returned
  /\ EventEmitter.called e' =
       EventEmitter.called e
         ++ map (fun f => (EventEmitter.executorOf f, args)) (EventEmitter.listeners name e)
  /\ exists log,
       EventEmitter.errors e' = EventEmitter.errors e ++ log
       /\ length log <= length (EventEmitter.listeners name e)
       /\ Forall (fun x => fst x = name) log.
Proof. intros Hn e'. exact (emit_called body name args e Hn). Qed.

Lemma emit_calls_the_subscribed_handlers_witness :
  "end"%string <> ""%string
  /\ EventEmitter.called (snd (EventEmitter.emit sampleBody "end" [VNum 9] sampleEmitter)) =
       [(1, [VNum 9]); (2, [VNum 9])]
  /\ EventEmitter.listeners "end"
       (snd (EventEmitter.emit sampleBody "end" [VNum 9] sampleEmitter)) =
       [EventEmitter.User 1; EventEmitter.User 3].
Proof.
  assert (N : "end"%string <> ""%string) by discriminate.
  split; [exact N|]. split; [|reflexivity].
  exact (proj1 (proj2
    (emit_calls_the_subscribed_handlers sampleBody "end" [VNum 9] sampleEmitter N))).
Defined.

(** Handlers that do not touch the emitter: the fold of [emit] over them. *)
Lemma fold_notify_plain (body : nat -> list Value -> EventEmitter.Body) (name : string)
  (args : list Value) (ids : list nat) :
  (forall id, In id ids -> EventEmitter.acts (body id args) = []) ->
  forall e,
    fold_left (EventEmitter.notify body name args) (map EventEmitter.User ids) e =
    EventEmitter.MkState (EventEmitter.events e) (EventEmitter.serial e)
      (EventEmitter.called e ++ map (fun id => (id, args)) ids)
      (EventEmitter.errors e ++ EventEmitter.raised body name args ids).
Proof.
  induction ids as [|id ids IH]; intros P e; simpl.
  - rewrite !app_nil_r. destruct e; reflexivity.
  - rewrite IH by (intros i I; apply P; right; exact I).
    unfold EventEmitter.notify, EventEmitter.call, EventEmitter.callUser.
    rewrite (P id (or_introl eq_refl)). simpl.
    destruct (EventEmitter.raises (body id args)); simpl;
      rewrite <- ?app_assoc; reflexivity.
Qed.

Lemma listeners_get (name : string) (e : EventEmitter.State) (f : EventEmitter.Fn)
  (s : list EventEmitter.Fn) :
  EventEmitter.listeners name e = f :: s ->
  EventEmitter.get name (EventEmitter.events e) = Some (f :: s).
Proof.
  unfold EventEmitter.listeners.
  destruct (EventEmitter.get name (EventEmitter.events e)); [congruence | discriminate].
Qed.

(** X22: a handler that throws does not keep the others from being called, and
    [emit] does not throw: when the handlers of an event are functions that
    leave the emitter alone, [emit] calls them all, in order, writes one
    line to [console.error] for each one that threw, returns normally and
    leaves every subscription as it was. *)
Theorem emit_isolates_throwing_handlers (body : nat -> list Value -> EventEmitter.Body)
  (name : string) (args : list Value) (ids : list nat) (e : EventEmitter.State) :
  name <> ""%string ->
  EventEmitter.listeners name e = map EventEmitter.User ids ->
  (forall id, In id ids -> EventEmitter.acts (body id args) = []) ->
  EventEmitter.emit body name args e =
  (EventEmitter.Returned,
   EventEmitter.MkState (EventEmitter.events e) (EventEmitter.serial e)
     (EventEmitter.called e ++ map (fun id => (id, args)) ids)
     (EventEmitter.errors e ++ EventEmitter.raised body name args ids)).
Proof.
  intros Hn L P. unfold EventEmitter.emit, EventEmitter.ensureEvent.
  destruct (String.eqb_spec name ""%string); [contradiction|].
  unfold EventEmitter.listeners in L.
  destruct (EventEmitter.get name (EventEmitter.events e)) as [s|].
  - rewrite L. rewrite (fold_notify_plain body name args ids P). reflexivity.
  - destruct ids; [|discriminate]. simpl. rewrite !app_nil_r. destruct e; reflexivity.
Qed.

Lemma emit_isolates_throwing_handlers_witness :
  "end"%string <> ""%string
  /\ EventEmitter.emit sampleBody "end" []
       (snd (EventEmitter.on "end" (EventEmitter.Function 5)
          (snd (EventEmitter.on "end" (EventEmitter.Function 4) EventEmitter.empty)))) =
     (EventEmitter.Returned,
      EventEmitter.MkState [("end"%string, [EventEmitter.User 4; EventEmitter.User 5])] 0
        [(4, []); (5, [])] [("end"%string, EventEmitter.Raised (VStr "boom"))]).
Proof.
  assert (N : "end"%string <> ""%string) by discriminate.
  split; [exact N|].
  assert (P : forall id, In id [4; 5] -> EventEmitter.acts (sampleBody id []) = []).
  { intros id [<-|[<-|[]]]; reflexivity. }
  exact (emit_isolates_throwing_handlers sampleBody "end" [] [4; 5]
           (snd (EventEmitter.on "end" (EventEmitter.Function 5)
              (snd (EventEmitter.on "end" (EventEmitter.Function 4) EventEmitter.empty))))
           N eq_refl P).
Defined.

(** ** [once] *)

Lemma once_eq (name : string) (f : nat) (e : EventEmitter.State) :
  name <> ""%string ->
  EventEmitter.once name (EventEmitter.Function f) e =
  (EventEmitter.Returned,
   EventEmitter.subscribe name (EventEmitter.Wrapper (EventEmitter.serial e) name f)
     (EventEmitter.MkState (EventEmitter.events e) (S (EventEmitter.serial e))
        (EventEmitter.called e) (EventEmitter.errors e))).
Proof.
  intros Hn. unfold EventEmitter.once, EventEmitter.ensureEvent.
  destruct (String.eqb_spec name ""%string); [contradiction | reflexivity].
Qed.

Lemma wrapper_not_user (k : nat) (n : string) (f : nat) (ids : list nat) :
  ~ In (EventEmitter.Wrapper k n f) (map EventEmitter.User ids).
Proof. intros I. apply in_map_iff in I. destruct I as (i & E & _). discriminate. Qed.

(** The handlers after [once], when only functions of the caller were
    subscribed: the new wrapper comes last. *)
Lemma listeners_once (name : string) (f : nat) (ids : list nat) (e : EventEmitter.State) :
  name <> ""%string ->
  EventEmitter.listeners name e = map EventEmitter.User ids ->
  let e1 := snd (EventEmitter.once name (EventEmitter.Function f) e) in
  EventEmitter.listeners name e1 =
    map EventEmitter.User ids ++ [EventEmitter.Wrapper (EventEmitter.serial e) name f]
  /\ EventEmitter.called e1 = EventEmitter.called e
  /\ EventEmitter.errors e1 = EventEmitter.errors e.
Proof.
  intros Hn L e1. subst e1. rewrite (once_eq name f e Hn). simpl snd.
  split; [|split; reflexivity].
  rewrite listeners_subscribe, String.eqb_refl.
  change (EventEmitter.listeners name
            (EventEmitter.MkState (EventEmitter.events e) (S (EventEmitter.serial e))
               (EventEmitter.called e) (EventEmitter.errors e)))
    with (EventEmitter.listeners name e).
  rewrite L. apply add_new, wrapper_not_user.
Qed.

(** [emit] on an emitter whose last handler is a wrapper of [once] around
    a function that leaves the emitter alone, the handlers before it being
    such functions too. *)
Lemma emit_once (body : nat -> list Value -> EventEmitter.Body) (name : string)
  (args : list Value) (ids : list nat) (k f : nat) (e1 : EventEmitter.State) :
  name <> ""%string ->
  EventEmitter.listeners name e1 =
    map EventEmitter.User ids ++ [EventEmitter.Wrapper k name f] ->
  (forall id, In id ids -> EventEmitter.acts (body id args) = []) ->
  EventEmitter.acts (body f args) = [] ->
  let e2 := snd (EventEmitter.emit body name args e1) in
  EventEmitter.called e2 =
    EventEmitter.called e1 ++ map (fun id => (id, args)) ids ++ [(f, args)]
  /\ match EventEmitter.raises (body f args) with
     | None =>
         EventEmitter.listeners name e2 = map EventEmitter.User ids
         /\ EventEmitter.errors e2 =
              EventEmitter.errors e1 ++ EventEmitter.raised body name args ids
     | Some v =>
         EventEmitter.listeners name e2 = EventEmitter.listeners name e1
         /\ EventEmitter.errors e2 =
              EventEmitter.errors e1 ++ EventEmitter.raised body name args ids
                ++ [(name, EventEmitter.Raised v)]
     end.
Proof.
  intros Hn L P Pf e2. subst e2.
  assert (G : EventEmitter.get name (EventEmitter.events e1) =
              Some (map EventEmitter.User ids ++ [EventEmitter.Wrapper k name f])).
  { unfold EventEmitter.listeners in L.
    destruct (EventEmitter.get name (EventEmitter.events e1)); [congruence|].
    destruct ids; discriminate. }
  unfold EventEmitter.emit, EventEmitter.ensureEvent.
  destruct (String.eqb_spec name ""%string); [contradiction|].
  rewrite G. simpl snd. rewrite fold_left_app.
  rewrite (fold_notify_plain body name args ids P). simpl fold_left.
  set (v := EventEmitter.MkState _ _ _ _).
  unfold EventEmitter.notify, EventEmitter.call, EventEmitter.callUser. rewrite Pf.
  simpl EventEmitter.perform. cbv iota beta.
  destruct (EventEmitter.raises (body f args)) as [x|].
  - simpl. unfold EventEmitter.listeners. simpl. rewrite G.
    rewrite <- !app_assoc. repeat split; reflexivity.
  - match goal with
    | |- context [EventEmitter.off name ?x ?w] =>
        destruct (listeners_off name name x w Hn) as [E Lo];
        destruct (off_frame name x w) as (A & B & _);
        rewrite E
    end.
    cbv iota beta. rewrite A, B, Lo, String.eqb_refl. simpl.
    unfold EventEmitter.listeners at 1. simpl. rewrite G.
    rewrite remove_snoc by apply wrapper_not_user.
    rewrite <- !app_assoc. repeat split; reflexivity.
Qed.

(** X23: a handler subscribed with [once] is called by the first [emit] of its
    event, after the handlers subscribed before it, and is unsubscribed by
    then: the handlers are those there were before [once], and the second
    [emit] does not call it. *)
Theorem once_handler_is_called_once (body : nat -> list Value -> EventEmitter.Body)
  (name : string) (args : list Value) (ids : list nat) (f : nat)
  (e : EventEmitter.State) :
  name <> ""%string ->
  EventEmitter.listeners name e = map EventEmitter.User ids ->
  (forall id, In id ids -> EventEmitter.acts (body id args) = []) ->
  EventEmitter.acts (body f args) = [] ->
  EventEmitter.raises (body f args) = None ->
  let e1 := snd (EventEmitter.once name (EventEmitter.Function f) e) in
  let e2 := snd (EventEmitter.emit body name args e1) in
  let e3 := snd (EventEmitter.emit body name args e2) in
  fst (EventEmitter.once name (EventEmitter.Function f) e) = EventEmitter.Returned
  /\ EventEmitter.called e2 =
       EventEmitter.called e ++ map (fun id => (id, args)) ids ++ [(f, args)]
  /\ EventEmitter.listeners name e2 = map EventEmitter.User ids
  /\ EventEmitter.called e3 = EventEmitter.called e2 ++ map (fun id => (id, args)) ids.
Proof.
  intros Hn L P Pf R e1 e2 e3.
  destruct (listeners_once name f ids e Hn L) as (L1 & C1 & _). fold e1 in L1, C1.
  pose proof (emit_once body name args ids (EventEmitter.serial e) f e1 Hn L1 P Pf) as H.
  cbv zeta in H. fold e2 in H. rewrite R in H. destruct H as (C2 & L2 & _).
  repeat apply conj.
  - rewrite (once_eq name f e Hn). reflexivity.
  - rewrite C2, C1. reflexivity.
  - exact L2.
  - destruct (emit_called body name args e2 Hn) as (_ & C3 & _). fold e3 in C3.
    rewrite C3, L2, map_map. reflexivity.
Qed.

Lemma once_handler_is_called_once_witness :
  "end"%string <> ""%string
  /\ EventEmitter.called
       (snd (EventEmitter.emit sampleBody "end" []
          (snd (EventEmitter.emit sampleBody "end" []
             (snd (EventEmitter.once "end" (EventEmitter.Function 5) EventEmitter.empty))))))
     = [(5, [])].
Proof.
  assert (N : "end"%string <> ""%string) by discriminate.
  split; [exact N|].
  assert (P : forall id, In id [] -> EventEmitter.acts (sampleBody id []) = [])
    by (intros id []).
  destruct (once_handler_is_called_once sampleBody "end" [] [] 5 EventEmitter.empty
              N eq_refl P eq_refl eq_refl) as (_ & C2 & _ & C3).
  cbv zeta in C2, C3. rewrite C3, C2. reflexivity.
Defined.

(** X24: [off(eventName, f)] does not undo [once(eventName, f)]: the set holds
    the wrapper, which is another function, so it stays subscribed and the
    next [emit] still calls [f]. *)
Theorem off_does_not_undo_once (body : nat -> list Value -> EventEmitter.Body)
  (name : string) (args : list Value) (ids : list nat) (f : nat)
  (e : EventEmitter.State) :
  name <> ""%string ->
  EventEmitter.listeners name e = map EventEmitter.User ids ->
  let w := EventEmitter.Wrapper (EventEmitter.serial e) name f in
  let e1 := snd (EventEmitter.once name (EventEmitter.Function f) e) in
  let e2 := snd (EventEmitter.off name (Some (EventEmitter.User f)) e1) in
  let e3 := snd (EventEmitter.emit body name args e2) in
  EventEmitter.listeners name e2 =
    EventEmitter.remove (EventEmitter.User f) (map EventEmitter.User ids) ++ [w]
  /\ In w (EventEmitter.listeners name e2)
  /\ In (f, args) (skipn (length (EventEmitter.called e)) (EventEmitter.called e3)).
Proof.
  intros Hn L w e1 e2 e3.
  destruct (listeners_once name f ids e Hn L) as (L1 & C1 & _). fold e1 w in L1, C1.
  destruct (listeners_off name name (Some (EventEmitter.User f)) e1 Hn) as [_ L2].
  destruct (off_frame name (Some (EventEmitter.User f)) e1) as (C2 & _).
  fold e2 in L2, C2. rewrite String.eqb_refl, L1 in L2.
  assert (L2' : EventEmitter.listeners name e2 =
                EventEmitter.remove (EventEmitter.User f) (map EventEmitter.User ids) ++ [w]).
  { rewrite L2. unfold EventEmitter.remove. rewrite filter_app. reflexivity. }
  split; [exact L2'|]. split.
  - rewrite L2'. apply in_or_app. right. left. reflexivity.
  - destruct (emit_called body name args e2 Hn) as (_ & C3 & _). fold e3 in C3.
    rewrite C3, C2, C1, L2'.
    rewrite skipn_app, skipn_all, Nat.sub_diag. simpl.
    rewrite map_app. apply in_or_app. right. left. reflexivity.
Qed.

Lemma off_does_not_undo_once_witness :
  "end"%string <> ""%string
  /\ EventEmitter.listeners "end"
       (snd (EventEmitter.off "end" (Some (EventEmitter.User 5))
          (snd (EventEmitter.once "end" (EventEmitter.Function 5) EventEmitter.empty)))) =
     [EventEmitter.Wrapper 0 "end" 5].
Proof.
  assert (N : "end"%string <> ""%string) by discriminate.
  split; [exact N|].
  exact (proj1 (off_does_not_undo_once sampleBody "end" [] [] 5 EventEmitter.empty N eq_refl)).
Defined.

(** X25: a handler subscribed with [once] that throws is not unsubscribed: the
    wrapper calls [off] after its executor, and the exception skips it.
    [emit] logs the error, the wrapper stays among the handlers, and the next
    [emit] calls the executor again. *)
Theorem throwing_once_handler_stays (body : nat -> list Value -> EventEmitter.Body)
  (name : string) (args : list Value) (ids : list nat) (f : nat) (v : Value)
  (e : EventEmitter.State) :
  name <> ""%string ->
  EventEmitter.listeners name e = map EventEmitter.User ids ->
  (forall id, In id ids -> EventEmitter.acts (body id args) = []) ->
  EventEmitter.acts (body f args) = [] ->
  EventEmitter.raises (body f args) = Some v ->
  let e1 := snd (EventEmitter.once name (EventEmitter.Function f) e) in
  let e2 := snd (EventEmitter.emit body name args e1) in
  let e3 := snd (EventEmitter.emit body name args e2) in
  EventEmitter.listeners name e2 =
    map EventEmitter.User ids ++ [EventEmitter.Wrapper (EventEmitter.serial e) name f]
  /\ EventEmitter.errors e2 =
       EventEmitter.errors e ++ EventEmitter.raised body name args ids
         ++ [(name, EventEmitter.Raised v)]
  /\ EventEmitter.called e2 =
       EventEmitter.called e ++ map (fun id => (id, args)) ids ++ [(f, args)]
  /\ EventEmitter.called e3 =
       EventEmitter.called e2 ++ map (fun id => (id, args)) ids ++ [(f, args)].
Proof.
  intros Hn L P Pf R e1 e2 e3.
  destruct (listeners_once name f ids e Hn L) as (L1 & C1 & E1). fold e1 in L1, C1, E1.
  pose proof (emit_once body name args ids (EventEmitter.serial e) f e1 Hn L1 P Pf) as H.
  cbv zeta in H. fold e2 in H. rewrite R in H. destruct H as (C2 & L2 & E2).
  assert (L2' : EventEmitter.listeners name e2 =
                map EventEmitter.User ids
                  ++ [EventEmitter.Wrapper (EventEmitter.serial e) name f])
    by (rewrite L2; exact L1).
  pose proof (emit_once body name args ids (EventEmitter.serial e) f e2 Hn L2' P Pf) as H.
  cbv zeta in H. fold e3 in H. destruct H as (C3 & _).
  repeat apply conj.
  - exact L2'.
  - rewrite E2, E1. reflexivity.
  - rewrite C2, C1. reflexivity.
  - exact C3.
Qed.

Lemma throwing_once_handler_stays_witness :
  "end"%string <> ""%string
  /\ EventEmitter.called
       (snd (EventEmitter.emit sampleBody "end" []
          (snd (EventEmitter.emit sampleBody "end" []
             (snd (EventEmitter.once "end" (EventEmitter.Function 4) EventEmitter.empty))))))
     = [(4, []); (4, [])].
Proof.
  assert (N : "end"%string <> ""%string) by discriminate.
  split; [exact N|].
  assert (P : forall id, In id [] -> EventEmitter.acts (sampleBody id []) = [])
    by (intros id []).
  destruct (throwing_once_handler_stays sampleBody "end" [] [] 4 (VStr "boom")
              EventEmitter.empty N eq_refl P eq_refl eq_refl) as (_ & _ & C2 & C3).
  cbv zeta in C2, C3. rewrite C3, C2. reflexivity.
Defined.

(** ** The options of the constructor *)

(** X2: whether an empty sequence announces its end is decided by the
    option [emitEndIfEmpty] alone, and the other way round from its name:
    the sequence emits no [end] at all exactly when [emitEndIfEmpty] is
    [true]; the option [muteEndIfEmpty] plays no part. *)
Theorem empty_sequence_is_silent_iff_emit_option (h : Host) (o : SequenceOptions.t) :
  let w := drain 3 (new h [] o) in
  idle w
  /\ (emitted w = [] <-> SequenceOptions.emitEndIfEmpty o = Some true).
Proof.
  destruct o as [[[|]|] i [[|]|] m], h; (split; [reflexivity|]);
    split; intros H; first [reflexivity | discriminate H].
Qed.

(** X16: with [autoRun: false] the constructor schedules nothing: the
    sequence is at rest and no step is called until [run()] is; [run()]
    then starts step 0 at once, and the whole reference run takes place. *)
Theorem manual_sequence_waits_for_run (h : Host) (s : SequenceStep)
  (l : list SequenceStep) (o : SequenceOptions.t) :
  SequenceOptions.autoRun o = Some false ->
  idle (new h (s :: l) o)
  /\ calls (new h (s :: l) o) = []
  /\ running (self (new h (s :: l) o)) = false
  /\ exists n, forall fuel, n <= fuel ->
       let w := drain fuel (exec run (new h (s :: l) o)) in
       let hist := played (intervalOf (SequenceOptions.interval o)) (s :: l) [] 0 in
       idle w
       /\ history w = hist
       /\ calls w = indices (S (length l))
       /\ emitted w = stepEvents hist ++ [EmEnd 1 hist].
Proof.
  intros A. destruct o as [e i a m]. simpl in A. subst a.
  split; [reflexivity|]. split; [reflexivity|]. split; [reflexivity|].
  destruct (steps_to_end h (truthy e) None (s :: l) (intervalOf i) [] s l
              [ChFulfilled None; ChFulfilled None] 1 0 [] eq_refl)
    as (n & front & r & chs & nt & news & P & N & Len & R).
  simpl in N, Len. subst news. injection Len as Len.
  exists n. intros fuel L w hist. subst w hist.
  change (exec run (new h (s :: l) (SequenceOptions.mk e i (Some false) m)))
    with (atCall h (truthy e) [] None (s :: l) (intervalOf i) []
            [ChFulfilled None; ChFulfilled None] 1 0 []).
  rewrite (R fuel L). simpl SequenceOptions.interval. rewrite P, <- Len.
  repeat apply conj; reflexivity.
Qed.

Lemma manual_sequence_waits_for_run_witness :
  SequenceOptions.autoRun manual = Some false
  /\ idle (new HostNextTick [resolveWith (VNum 1)] manual).
Proof.
  split; [reflexivity|].
  exact (proj1 (manual_sequence_waits_for_run HostNextTick (resolveWith (VNum 1)) []
                  manual eq_refl)).
Defined.

(** X17: [stop()] called right after the construction changes nothing, the
    sequence not running yet: the automatic start is a timer that [stop()]
    does not know of, so it still fires, sets [running] and every step is
    called. *)
Theorem stop_does_not_prevent_the_automatic_start (h : Host) (s : SequenceStep)
  (l : list SequenceStep) (o : SequenceOptions.t) :
  SequenceOptions.autoRun o <> Some false ->
  exec stop (new h (s :: l) o) = new h (s :: l) o
  /\ exists n, forall fuel, n <= fuel ->
       let w := drain fuel (exec stop (new h (s :: l) o)) in
       running (self w) = true
       /\ calls w = indices (S (length l))
       /\ history w = played (intervalOf (SequenceOptions.interval o)) (s :: l) [] 0.
Proof.
  intros A.
  assert (E : exec stop (new h (s :: l) o) = new h (s :: l) o).
  { destruct o as [e i [[|]|] m]; vm_compute; reflexivity. }
  split; [exact E|].
  destruct (new_runs h s l o A) as (n & front & r & chs & nt & P & Len & R).
  cbv zeta in P, R.
  exists n. intros fuel L w. subst w.
  replace (exec stop (new h (s :: l) o)) with (new h (s :: l) o) by (symmetry; exact E).
  rewrite (R fuel L), P, <- Len. repeat apply conj; reflexivity.
Qed.

Lemma stop_does_not_prevent_the_automatic_start_witness :
  SequenceOptions.autoRun SequenceOptions.default <> Some false
  /\ exec stop (new HostNextTick [resolveWith (VNum 1)] SequenceOptions.default) =
     new HostNextTick [resolveWith (VNum 1)] SequenceOptions.default.
Proof.
  assert (A : SequenceOptions.autoRun SequenceOptions.default <> Some false)
    by discriminate.
  split; [exact A|].
  exact (proj1 (stop_does_not_prevent_the_automatic_start HostNextTick
                  (resolveWith (VNum 1)) [] SequenceOptions.default A)).
Defined.

(** ** Appending after the end *)

(** [append] on a sequence at rest at the end of its queue: the call of the
    first appended step is queued at once. *)
Lemma append_restarts (h : Host) (mute : bool) (sto : option nat)
  (l : list SequenceStep) (itv : nat) (hist : list SequenceResult.t)
  (chs : list ChainState) (p : option SequenceResult.t) (nt t : nat)
  (em : list Emission) (s' : SequenceStep) (l' : list SequenceStep) :
  length hist = length l ->
  exec (append (Many (s' :: l')))
    (runWorld h mute [] sto l itv true false (Z.of_nat (length hist)) hist
       (chs ++ [ChFulfilled p]) (length chs) [] [] nt t em
       (indices (length hist)) FPending) =
  atCall h mute [] sto (l ++ s' :: l') itv hist (chs ++ [ChFulfilled p]) nt t em.
Proof.
  intros Len. rewrite append_eq. cbv zeta.
  set (W := runWorld _ _ _ _ _ _ _ _ _ _ _ _ _ _ _ _ _ _ _).
  set (pushed := set_self (set_steps (steps (self W) ++ stepsOf (Many (s' :: l'))) (self W)) W).
  assert (C : running (self W) && (Z.of_nat (length (steps (self W))) <=? cursor W)%Z = true).
  { subst W. rfields. rewrite Len. apply Z.leb_refl. }
  rewrite C.
  assert (N : next true pushed =
    (NPromise (length (chains pushed)),
     set_self (set_promise (length (chains pushed)) (set_busy true (self pushed)))
       (set_microtasks (microtasks pushed ++ [JInvoke (length (chains pushed))])
          (set_chains (chains pushed ++ [ChPending []]) pushed)))).
  { apply (next_starts true pushed s' p); try reflexivity.
    - subst pushed W. rfields. cbn [stepsOf]. rewrite stepAt_of_nat, Len.
      rewrite nth_error_app2 by lia. rewrite Nat.sub_diag. reflexivity.
    - subst pushed W. rfields. apply nth_error_snoc. }
  unfold exec, bind. cbv beta zeta. rewrite N. reflexivity.
Qed.

(** X26: steps appended to a sequence that has run all its steps and is still
    running are played at once, with no [run()]: the first of them is called
    at the instant of the [append], the history goes on as the reference
    run from the history so far, one notification per new record is emitted,
    and [end] is emitted again, with the whole history. *)
Theorem append_after_the_end_plays_on (h : Host) (s : SequenceStep)
  (l : list SequenceStep) (o : SequenceOptions.t) (s' : SequenceStep)
  (l' : list SequenceStep) :
  SequenceOptions.autoRun o <> Some false ->
  exists n m, forall fuel fuel', n <= fuel -> m <= fuel' ->
    let w1 := drain fuel (new h (s :: l) o) in
    let w2 := drain fuel' (exec (append (Many (s' :: l'))) w1) in
    idle w2
    /\ history w2 =
         played (intervalOf (SequenceOptions.interval o)) (s' :: l') (history w1) (now w1)
    /\ (exists news,
          history w2 = history w1 ++ news
          /\ length news = S (length l')
          /\ emitted w2 = emitted w1 ++ stepEvents news ++ [EmEnd 1 (history w2)])
    /\ calls w2 = indices (S (length l) + S (length l'))
    /\ running (self w2) = true.
Proof.
  intros A.
  destruct (new_runs h s l o A) as (n & front & r & chs & nt & P & Len & R).
  cbv zeta in P, R.
  set (itv := intervalOf (SequenceOptions.interval o)) in *.
  set (mute := truthy (SequenceOptions.emitEndIfEmpty o)) in *.
  set (h1 := front ++ [r]) in *.
  assert (L1 : length h1 = length (s :: l)).
  { subst h1. rewrite length_app. simpl. lia. }
  assert (Sk : skipn (length h1) ((s :: l) ++ s' :: l') = s' :: l').
  { rewrite L1, skipn_app, skipn_all, Nat.sub_diag. reflexivity. }
  destruct (steps_to_end h mute None ((s :: l) ++ s' :: l') itv h1 s' l'
              (chs ++ [ChFulfilled (Some r)]) nt (SequenceResult.time r)
              (stepEvents h1 ++ [EmEnd 1 h1]) Sk)
    as (m & front2 & r2 & chs2 & nt2 & news & P2 & N2 & Len2 & R2).
  exists n, m. intros fuel fuel' Lf Lf' w1 w2.
  assert (E1 : w1 =
    runWorld h mute [] None (s :: l) itv true false (Z.of_nat (length h1)) h1
      (chs ++ [ChFulfilled (Some r)]) (length chs) [] [] nt (SequenceResult.time r)
      (stepEvents h1 ++ [EmEnd 1 h1]) (indices (length h1)) FPending).
  { subst w1. rewrite (R fuel Lf). subst h1. rewrite length_app. simpl length.
    rewrite Nat.add_1_r. reflexivity. }
  assert (E2 : w2 =
    runWorld h mute [] None ((s :: l) ++ s' :: l') itv true false
      (Z.of_nat (S (length front2))) (front2 ++ [r2])
      (chs2 ++ [ChFulfilled (Some r2)]) (length chs2) [] [] nt2 (SequenceResult.time r2)
      (((stepEvents h1 ++ [EmEnd 1 h1]) ++ stepEvents news) ++ [EmEnd 1 (front2 ++ [r2])])
      (indices (S (length front2))) FPending).
  { subst w2. rewrite E1. rewrite (append_restarts _ _ _ _ _ _ _ _ _ _ _ _ _ L1).
    apply R2. exact Lf'. }
  assert (Ln : length news = S (length l')).
  { pose proof (f_equal (@length _) N2) as X. rewrite !length_app in X.
    rewrite length_app in Len2. simpl in *. lia. }
  rewrite E2. rewrite E1. repeat apply conj.
  - reflexivity.
  - exact (eq_sym P2).
  - exists news. repeat apply conj.
    + exact N2.
    + exact Ln.
    + cbv [emitted runWorld history read self results arrays nth].
      rewrite <- !app_assoc. reflexivity.
  - cbv [calls runWorld]. rewrite Len2, length_app. simpl. reflexivity.
  - reflexivity.
Qed.

Lemma append_after_the_end_plays_on_witness :
  SequenceOptions.autoRun SequenceOptions.default <> Some false
  /\ exists n m, forall fuel fuel', n <= fuel -> m <= fuel' ->
       calls (drain fuel' (exec (append (Many [resolveWith (VNum 2)]))
                (drain fuel (new HostNextTick [resolveWith (VNum 1)]
                               SequenceOptions.default)))) = [0%Z; 1%Z].
Proof.
  assert (A : SequenceOptions.autoRun SequenceOptions.default <> Some false)
    by discriminate.
  split; [exact A|].
  destruct (append_after_the_end_plays_on HostNextTick (resolveWith (VNum 1)) []
              SequenceOptions.default (resolveWith (VNum 2)) [] A) as (n & m & H).
  exists n, m. intros fuel fuel' L L'.
  exact (proj1 (proj2 (proj2 (proj2 (H fuel fuel' L L'))))).
Defined.

(** ** The interval *)

Lemma lastOf_snoc (hs : list SequenceResult.t) (r : SequenceResult.t) :
  lastOf (hs ++ [r]) = Some r.
Proof. unfold lastOf. rewrite rev_app_distr. reflexivity. Qed.

Lemma lastOf_nth (hs : list SequenceResult.t) (r : SequenceResult.t) (k : nat) :
  nth_error hs k = Some r -> S k = length hs -> lastOf hs = Some r.
Proof.
  intros N L. destruct (exists_last (l := hs)) as (front & x & E).
  { intros ->. discriminate. }
  subst hs. rewrite lastOf_snoc. rewrite length_app in L. simpl in L.
  rewrite nth_error_app2 in N by lia.
  replace (k - length front) with 0 in N by lia. exact N.
Qed.

Lemma spaced_snoc (itv : nat) (hs : list SequenceResult.t) (r : SequenceResult.t) :
  spaced itv hs ->
  (forall x, lastOf hs = Some x -> SequenceResult.time x + itv <= SequenceResult.time r) ->
  spaced itv (hs ++ [r]).
Proof.
  intros Sp La k r1 r2 N1 N2.
  destruct (Nat.lt_ge_cases (S k) (length hs)) as [L|L].
  - rewrite nth_error_app1 in N1 by lia. rewrite nth_error_app1 in N2 by lia.
    exact (Sp k r1 r2 N1 N2).
  - assert (Lk : S k = length hs).
    { assert (S k < length (hs ++ [r])) by (apply nth_error_Some; congruence).
      rewrite length_app in *. simpl in *. lia. }
    rewrite nth_error_app1 in N1 by lia.
    rewrite nth_error_app2 in N2 by lia.
    replace (S k - length hs) with 0 in N2 by lia. injection N2 as <-.
    apply La. exact (lastOf_nth hs r1 k N1 Lk).
Qed.

(** The reference run keeps the records apart: a step is called [itv]
    milliseconds after the record of the step before it, at the earliest. *)
Lemma played_spaced (itv : nat) (l : list SequenceStep) :
  forall (hist : list SequenceResult.t) (t : nat),
    spaced itv hist ->
    (forall x, lastOf hist = Some x -> SequenceResult.time x + itv <= t) ->
    spaced itv (played itv l hist t).
Proof.
  induction l as [|s l IH]; intros hist t Sp La; simpl; [exact Sp|].
  set (o := s (lastOf hist) (Z.of_nat (length hist)) hist).
  set (r := recordAt (settlement o) (Z.of_nat (length hist)) (t + latency o)).
  assert (Tr : SequenceResult.time r = t + latency o)
    by (subst r; destruct (settlement o); reflexivity).
  apply IH.
  - apply spaced_snoc; [exact Sp|]. intros x Hx. specialize (La x Hx). lia.
  - intros x Hx. rewrite lastOf_snoc in Hx. injection Hx as <-. lia.
Qed.

Lemma played_prefix (itv : nat) (l : list SequenceStep) :
  forall (hist : list SequenceResult.t) (t : nat),
    exists rest, played itv l hist t = hist ++ rest.
Proof.
  induction l as [|s l IH]; intros hist t; simpl.
  - exists []. rewrite app_nil_r. reflexivity.
  - match goal with
    | |- exists rest, played _ _ (hist ++ [?r]) ?t' = _ =>
        destruct (IH (hist ++ [r]) t') as (rest & E); rewrite E, <- app_assoc
    end.
    eexists. reflexivity.
Qed.

(** X27: in the history of a sequence left alone, consecutive records are at
    least the interval apart: the call of a step waits for the interval
    after the step before it has completed; the first step is called at
    once, so its record carries the latency of its call. *)
Theorem steps_are_spaced_by_the_interval (h : Host) (s : SequenceStep)
  (l : list SequenceStep) (o : SequenceOptions.t) :
  SequenceOptions.autoRun o <> Some false ->
  exists n, forall fuel, n <= fuel ->
    let w := drain fuel (new h (s :: l) o) in
    (forall k r1 r2,
       nth_error (history w) k = Some r1 -> nth_error (history w) (S k) = Some r2 ->
       SequenceResult.time r1 + intervalOf (SequenceOptions.interval o)
       <= SequenceResult.time r2)
    /\ (forall r, nth_error (history w) 0 = Some r ->
          SequenceResult.time r = latency (s None 0%Z [])).
Proof.
  intros A.
  destruct (new_runs h s l o A) as (n & front & r & chs & nt & P & Len & R).
  cbv zeta in P, R.
  exists n. intros fuel L w. subst w. rewrite (R fuel L).
  change (history (runWorld _ _ _ _ _ _ _ _ _ (front ++ [r]) _ _ _ _ _ _ _ _ _))
    with (front ++ [r]).
  rewrite <- P. split.
  - apply played_spaced.
    + intros k r1 r2 N. destruct k; discriminate.
    + intros x Hx. discriminate.
  - intros r0 N. simpl played in N.
    match type of N with
    | nth_error (played ?i ?l0 ?hs ?t) 0 = _ =>
        destruct (played_prefix i l0 hs t) as (rest & E); rewrite E in N
    end.
    simpl in N. injection N as <-. destruct (settlement _); reflexivity.
Qed.

Lemma steps_are_spaced_by_the_interval_witness :
  SequenceOptions.autoRun (SequenceOptions.mk None (Some 100) None None) <> Some false
  /\ exists n, forall fuel, n <= fuel ->
       forall r, nth_error (history (drain fuel
                   (new HostNextTick [slowly 5 (VNum 1); resolveWith (VNum 2)]
                      (SequenceOptions.mk None (Some 100) None None)))) 0 = Some r ->
                 SequenceResult.time r = 5.
Proof.
  assert (A : SequenceOptions.autoRun (SequenceOptions.mk None (Some 100) None None)
              <> Some false) by discriminate.
  split; [exact A|].
  destruct (steps_are_spaced_by_the_interval HostNextTick (slowly 5 (VNum 1))
              [resolveWith (VNum 2)] (SequenceOptions.mk None (Some 100) None None) A)
    as (n & H).
  exists n. intros fuel L. exact (proj2 (H fuel L)).
Defined.

